(** * A wavelet / block-transform image codec: encoder_2000.py and decoder.py

    Shallow embedding of the transform and serialization core of the
    repository (JPEG-Compression/encoder_2000.py, decoder.py) and the
    properties of its specification.

    Conventions.
    - Python exceptions are the constructors of [exn]; fallible code returns a
      [result].
    - numpy arrays hold exact rationals ([Q]).  The two filter kernels are
      dyadic (multiples of 1/8), so on integer pixels every intermediate value
      of the decomposition is a multiple of 1/64, which binary floating point
      represents exactly; floating-point range and rounding of the division
      are not modelled.
    - Python integers are [Z]; list and array indices that the code takes from
      its caller are [Z] with Python's negative-index rule, loop counters are
      [nat].
    - Code that mutates Python objects ([dwt], [dwt_levels]) runs in a
      state-and-exception monad over a heap of objects, so that views and
      list slots alias exactly as they do in the interpreter. *)

From stdpp Require Import base list.
From Stdlib Require Import ZArith QArith Qround Lia Lqa.

Local Open Scope Z_scope.

(* ================================================================== *)
(** * Part I: definitions                                               *)
(* ================================================================== *)

(** ** Exceptions and results

    [NotModelled] is not a Python exception: it marks the one place where the
    model stops (see [round_div]). *)

Inductive exn : Type :=
| AssertionError
| IndexError
| ValueError
| AttributeError
| TypeError
| NotModelled.

Inductive result (A : Type) : Type :=
| Ok (a : A)
| Raise (e : exn).
Arguments Ok {A} a.
Arguments Raise {A} e.

(** ** Python sequence primitives *)

Module Py.

(** Normalisation of one slice bound against a sequence of length [len]:
    a negative bound counts from the end, and the result is clipped to
    [0 .. len]. *)
Definition clip (len : nat) (i : Z) : nat :=
  if i <? 0 then Z.to_nat (Z.max 0 (i + Z.of_nat len))
  else Nat.min (Z.to_nat i) len.

(** [l[lo:hi]] *)
Definition slice {A} (lo hi : Z) (l : list A) : list A :=
  let s := clip (length l) lo in
  let e := clip (length l) hi in
  take (e - s) (drop s l).

(** [l[::2]] *)
Fixpoint evens {A} (l : list A) : list A :=
  match l with
  | [] => []
  | x :: r => x :: match r with [] => [] | _ :: r' => evens r' end
  end.

(** [l[i]] for an index given by the caller: negative indices count from
    the end, anything else out of range raises IndexError. *)
Definition index (len : nat) (i : Z) : result nat :=
  if (0 <=? i) && (i <? Z.of_nat len) then Ok (Z.to_nat i)
  else if (i <? 0) && (- Z.of_nat len <=? i) then Ok (Z.to_nat (i + Z.of_nat len))
  else Raise IndexError.

End Py.

(** ** The boundary-extended FIR filter (encoder_2000.py, lfilter)

    The filter is written once for any element type with a zero, an addition
    and a multiplication, as numpy's routines are; the decomposition below
    uses it at [Q]. *)

Section Filter.
Context {R : Type} (rzero : R) (radd rmul : R -> R -> R).

(** Accumulation of a sum, first term first. *)
Definition rsum (l : list R) : R := fold_left radd l rzero.

(** numpy.correlate(a, w, 'valid') for [length w <= length a]:
    [out[n] = sum_j a[n+j] * w[j]]. *)
Definition correlate_valid (a w : list R) : list R :=
  (fun n => rsum (zip_with rmul (take (length w) (drop n a)) w))
    <$> seq 0 (length a + 1 - length w).

(** numpy.convolve(a, v, 'valid'): the operands are swapped when [v] is the
    longer one, an empty operand is refused, and the result is the
    correlation of [a] with [v] reversed. *)
Definition convolve_valid (a v : list R) : result (list R) :=
  let '(a, v) := if (length a <? length v)%nat then (v, a) else (a, v) in
  if (length a =? 0)%nat then Raise ValueError
  else if (length v =? 0)%nat then Raise ValueError
  else Ok (correlate_valid a (reverse v)).

(** lfilter(taps, array, filter_centre).  The first assignment of the
    source ([arr = array.copy()]) is overwritten before it is read. *)
Definition lfilter (taps array : list R) (filter_centre : Z) : result (list R) :=
  let left_pad_len := Z.of_nat (length taps) - filter_centre - 1 in
  let right_pad_len := filter_centre in
  let arr := reverse (Py.slice 1 (1 + left_pad_len) array)
             ++ array
             ++ reverse (Py.slice (- right_pad_len - 1) (-1) array) in
  convolve_valid arr (reverse taps).

(** *** The filter as the specification describes it *)

(** The sequence extended on the left by the [l] samples at indices
    [1..l] in reverse order and on the right by the [c] samples just
    inside the right boundary (indices [N-1-c .. N-2]) in reverse order. *)
Definition mirror_extend (l c : nat) (x : list R) : list R :=
  reverse ((fun i => nth i x rzero) <$> seq 1 l)
  ++ x
  ++ reverse ((fun i => nth i x rzero) <$> seq (length x - 1 - c) c).

(** Sample [t] of the true convolution of [a] with a kernel [v]:
    [sum_m a[m] * v[t-m]], [m] running over the support of the kernel. *)
Definition conv_at (a v : list R) (t : nat) : R :=
  rsum ((fun m => rmul (nth m a rzero) (nth (t - m) v rzero))
          <$> seq (t + 1 - length v) (length v)).

(** Its 'valid' region: the samples [t] for which the kernel lies entirely
    inside [a]. *)
Definition valid_convolution (a v : list R) : list R :=
  conv_at a v <$> seq (length v - 1) (length a + 1 - length v).

End Filter.

(** The two kernels of the decomposition (encoder_2000.py, dwt, lines 76-81). *)
Definition LPF : list Q := [-1 # 8; 1 # 4; 3 # 4; 1 # 4; -1 # 8]%Q.
Definition LPF_center : Z := 2.
Definition HPF : list Q := [-1 # 2; 1; -1 # 2]%Q.
Definition HPF_center : Z := 2.

(** lfilter on numpy's float arrays. *)
Definition lfilterQ : list Q -> list Q -> Z -> result (list Q) :=
  lfilter 0%Q Qplus Qmult.

(** The minimum input length the specification requires of the filter: one
    more than the larger pad. *)
Definition min_length (k : nat) (c : Z) : Z :=
  Z.max (Z.of_nat k - c - 1) c + 1.

(** ** Run-length decoding (decoder.py, run_length_decode) *)

(** The while loop, with the index [i] and the list [serialized] as loop
    state.  [fuel] bounds the number of iterations; [None] means the bound
    was reached, which [run_length_decode] below never does.  Reading
    [rlcoded[i+1]] past the end raises IndexError. *)
Fixpoint rld_loop (fuel : nat) (rlcoded : list Z) (i : nat) (serialized : list Z)
  : option (result (list Z)) :=
  if (i <? length rlcoded)%nat then
    match fuel with
    | O => None
    | S fuel' =>
        match rlcoded !! i with
        | None => Some (Raise IndexError)
        | Some x =>
            if x =? 0 then
              match rlcoded !! (i + 1)%nat with
              | None => Some (Raise IndexError)
              | Some n =>
                  rld_loop fuel' rlcoded (i + 2)
                           (serialized ++ replicate (Z.to_nat (n + 1)) 0)
              end
            else rld_loop fuel' rlcoded (i + 1) (serialized ++ [x])
        end
    end
  else Some (Ok serialized).

Definition run_length_decode (rlcoded : list Z) : option (result (list Z)) :=
  rld_loop (length rlcoded) rlcoded 0 [].

(** *** Run-length decoding as the specification describes it *)

(** Left-to-right expansion: a [0] with its following token [n] becomes
    [n+1] zeros, any other token is copied. *)
Fixpoint expand (s : list Z) : list Z :=
  match s with
  | [] => []
  | x :: r =>
      if x =? 0 then
        match r with
        | [] => []
        | n :: r' => replicate (Z.to_nat (n + 1)) 0 ++ expand r'
        end
      else x :: expand r
  end.

(** Every [0] met by the scan has a following token. *)
Fixpoint paired (s : list Z) : bool :=
  match s with
  | [] => true
  | x :: r =>
      if x =? 0 then
        match r with
        | [] => false
        | _ :: r' => paired r'
        end
      else paired r
  end.

(** Every token following a [0] marker is a count, that is, not negative. *)
Fixpoint counts (s : list Z) : bool :=
  match s with
  | [] => true
  | x :: r =>
      if x =? 0 then
        match r with
        | [] => true
        | n :: r' => (0 <=? n) && counts r'
        end
      else counts r
  end.

Definition well_formed (s : list Z) : bool := paired s && counts s.

(** Number of literal (non-zero, non-count) tokens. *)
Fixpoint literals (s : list Z) : Z :=
  match s with
  | [] => 0
  | x :: r =>
      if x =? 0 then
        match r with
        | [] => 0
        | _ :: r' => literals r'
        end
      else 1 + literals r
  end.

(** Sum of [n+1] over the marker pairs [(0, n)]. *)
Fixpoint run_total (s : list Z) : Z :=
  match s with
  | [] => 0
  | x :: r =>
      if x =? 0 then
        match r with
        | [] => 0
        | n :: r' => (n + 1) + run_total r'
        end
      else run_total r
  end.

(** ** Two-dimensional numpy arrays

    An array carries its shape and its elements row by row; every operation
    below keeps [length (data a) = nrows a] and every row of length
    [ncols a].  Float arrays are [ndarray Q], integer arrays [ndarray Z]. *)

Record ndarray (A : Type) : Type := NdArray {
  nrows : nat;
  ncols : nat;
  data : list (list A)
}.
Arguments NdArray {A} nrows ncols data.
Arguments nrows {A} _.
Arguments ncols {A} _.
Arguments data {A} _.

(** [a[i, j]] for indices in range. *)
Definition at2 {A} (m : list (list A)) (i j : nat) : option A :=
  m !! i ≫= fun row => row !! j.

(** numpy.zeros((r, c)) *)
Definition np_zeros {A} (zero : A) (r c : nat) : ndarray A :=
  NdArray r c (replicate r (replicate c zero)).

(** The array whose element [(i, j)] is [f i j]. *)
Definition tabulate {A} (r c : nat) (f : nat -> nat -> A) : list (list A) :=
  (fun i => f i <$> seq 0 c) <$> seq 0 r.

(** ** Quantization and dequantization *)

(** numpy.round on one value: to the nearest integer, a tie to the even
    neighbour. *)
Definition np_round (x : Q) : Z :=
  let f := Qfloor x in
  match Qcompare (x - inject_Z f) (1 # 2) with
  | Lt => f
  | Gt => f + 1
  | Eq => if Z.even f then f else f + 1
  end.

(** One element of [np.round(a / d).astype(int)] (encoder_2000.py, dwt,
    lines 114-115), for a divisor [d <> 0], with the quotient taken exactly;
    [quantize_float64] below is the float64 computation, from which it can
    differ when the quotient needs more than 53 bits. *)
Definition quantize (v : Q) (d : Z) : Z := np_round (v / inject_Z d).

(** *** The same line in float64 arithmetic

    [quantize] divides exactly.  numpy divides in float64: the integer
    divisor is converted to float64, the quotient is rounded to the nearest
    float64, numpy.round rounds that to an integer (ties to even), and
    [astype(int)] converts it, exactly below 2**63.  A float64 is modelled
    by the rational it denotes, and an IEEE operation by the exact operation
    followed by rounding to the nearest float64. *)

(** [2**e] for any integer [e]. *)
Definition pow2 (e : Z) : Q :=
  if 0 <=? e then inject_Z (2 ^ e) else 1 / inject_Z (2 ^ (- e)).

(** The position of the leading binary digit of [|x|]: the [k] with
    [2**k <= |x| < 2**(k+1)], for [x <> 0]. *)
Definition ilog2 (x : Q) : Z :=
  let n := Z.abs (Qnum x) in
  let d := Z.pos (Qden x) in
  let k := Z.log2 n - Z.log2 d in
  if (if 0 <=? k then 2 ^ k * d <=? n else d <=? n * 2 ^ (- k)) then k else k - 1.

(** The float64 nearest to [x], ties to the even significand: 53
    significant bits, and steps of [2**-1074] in the subnormal range.
    (Overflow to infinity, above [2**1024], is not represented; no quotient
    of a float64 by a nonzero integer reaches it.) *)
Definition float64 (x : Q) : Q :=
  let e := Z.max (ilog2 x - 52) (-1074) in
  inject_Z (np_round (x / pow2 e)) * pow2 e.

(** One element of [np.round(a / d).astype(int)] for a float64 [v] and a
    divisor [d <> 0], as numpy computes it. *)
Definition quantize_float64 (v : Q) (d : Z) : Z :=
  np_round (float64 (v / float64 (inject_Z d))).

(** Shape of an elementwise operation under numpy's broadcasting rule, one
    axis at a time. *)
Definition broadcast_dim (a b : nat) : result nat :=
  if (a =? b)%nat then Ok a
  else if (a =? 1)%nat then Ok b
  else if (b =? 1)%nat then Ok a
  else Raise ValueError.

(** [x * y] on two-dimensional integer arrays. *)
Definition np_multiply (x y : ndarray Z) : result (ndarray Z) :=
  match broadcast_dim (nrows x) (nrows y), broadcast_dim (ncols x) (ncols y) with
  | Ok r, Ok c =>
      let pick (n i : nat) := if (n =? 1)%nat then O else i in
      let elt (a : ndarray Z) (i j : nat) :=
        default 0 (at2 (data a) (pick (nrows a) i) (pick (ncols a) j)) in
      Ok (NdArray r c (tabulate r c (fun i j => elt x i j * elt y i j)))
  | Raise e, _ => Raise e
  | _, Raise e => Raise e
  end.

(** Sequencing of fallible steps over a list, first failure wins. *)
Fixpoint result_mapM {A B} (f : A -> result B) (l : list A) : result (list B) :=
  match l with
  | [] => Ok []
  | x :: r =>
      match f x with
      | Raise e => Raise e
      | Ok y => match result_mapM f r with
                | Raise e => Raise e
                | Ok ys => Ok (y :: ys)
                end
      end
  end.

(** decoder.py, dequantize: [np.array([block * quantization_table for block
    in quantized])]. *)
Definition dequantize (quantized : list (ndarray Z)) (quantization_table : ndarray Z)
  : result (list (ndarray Z)) :=
  result_mapM (fun block => np_multiply block quantization_table) quantized.

(** The 1 x 1 array holding [v]. *)
Definition scalar_array (v : Z) : ndarray Z := NdArray 1 1 [[v]].

(** ** Zigzag deserialization (decoder.py, deserialize) *)

(** Narrowing of an integer to int16, as numpy's assignment into an int16
    array does for a value read from an integer array. *)
Definition int16 (z : Z) : Z := (z + 32768) mod 65536 - 32768.

Section Deserialize.
(** [generate_indicies_zigzag] is imported from encoder.py, which is not
    among the sources; deserialize is modelled for any index generator. *)
Variable generate_indicies_zigzag : nat -> nat -> list (nat * nat).

(** [matrix[i, j] = v] on an [n_rows x n_cols] int16 array. *)
Definition setitem16 (n_rows n_cols : nat) (matrix : list (list Z))
           (i j : nat) (v : Z) : result (list (list Z)) :=
  if (i <? n_rows)%nat && (j <? n_cols)%nat
  then Ok (alter (fun row => <[j := int16 v]> row) i matrix)
  else Raise IndexError.

(** The inner loop over the zigzag positions of one block; [step] is the
    running read position in [serialized]. *)
Fixpoint fill_block (serialized : list Z) (n_rows n_cols : nat)
         (indices : list (nat * nat)) (matrix : list (list Z)) (step : nat)
  : result (list (list Z) * nat) :=
  match indices with
  | [] => Ok (matrix, step)
  | (i, j) :: rest =>
      match serialized !! step with
      | None => Raise IndexError
      | Some v =>
          match setitem16 n_rows n_cols matrix i j v with
          | Raise e => Raise e
          | Ok matrix' =>
              fill_block serialized n_rows n_cols rest matrix' (S step)
          end
      end
  end.

(** The outer loop [for matrix in output]. *)
Fixpoint fill_blocks (serialized : list Z) (n_rows n_cols : nat)
         (output : list (list (list Z))) (step : nat)
  : result (list (list (list Z))) :=
  match output with
  | [] => Ok []
  | matrix :: rest =>
      match fill_block serialized n_rows n_cols
                       (generate_indicies_zigzag n_rows n_cols) matrix step with
      | Raise e => Raise e
      | Ok (matrix', step') =>
          match fill_blocks serialized n_rows n_cols rest step' with
          | Raise e => Raise e
          | Ok rest' => Ok (matrix' :: rest')
          end
      end
  end.

Definition deserialize (serialized : list Z) (n_blocks n_rows n_cols : nat)
  : result (list (ndarray Z)) :=
  let output := replicate n_blocks (replicate n_rows (replicate n_cols 0)) in
  match fill_blocks serialized n_rows n_cols output 0 with
  | Raise e => Raise e
  | Ok blocks => Ok (NdArray n_rows n_cols <$> blocks)
  end.

End Deserialize.

(** The range of int16, the shape of a block, and the positions of a block. *)
Definition in_int16 (x : Z) : Prop := -32768 <= x <= 32767.

Definition has_shape {A} (r c : nat) (m : list (list A)) : Prop :=
  length m = r /\ Forall (fun row => length row = c) m.

Definition in_block (n_rows n_cols : nat) (p : nat * nat) : Prop :=
  (p.1 < n_rows)%nat /\ (p.2 < n_cols)%nat.

(** An index generator for the examples: the zigzag order of a 2 x 2
    block. *)
Definition zigzag_2x2 (n_rows n_cols : nat) : list (nat * nat) :=
  [(0, 0); (0, 1); (1, 0); (1, 1)]%nat.

(** ** Flattening of the subband tree (encoder_2000.py, dwt_serialize) *)

Local Unset Elimination Schemes.

(** An element of the nested list given to dwt_serialize: a numpy array or
    again a list. *)
Inductive subband_item : Type :=
| Leaf (a : ndarray Z)
| Nested (l : list subband_item).

(** An element of the length record: an integer or again a list. *)
Inductive length_item : Type :=
| LInt (n : nat)
| LList (l : list length_item).

Local Set Elimination Schemes.

(** The variables of one activation of dwt_serialize.  [output] and
    [length] are rebound by [+], which builds a new list, whereas
    [length.append] changes the list object that [length] names at that
    moment.  That object is the caller's list until the first rebinding:
    [f_caller] is the content of the caller's list and [f_aliased] tells
    whether [length] still names it. *)
Record frame : Type := Frame {
  f_output : list Z;
  f_length : list length_item;
  f_caller : list length_item;
  f_aliased : bool
}.

Section Flatten.
(** [serialize(i, True).tolist()], imported from encoder.py, which is not
    among the sources: the zigzag scan of one array. *)
Variable serialize : ndarray Z -> list Z.

(** One iteration of the loop body, for the element [i]. *)
Fixpoint visit (i : subband_item) (st : frame) : frame :=
  match i with
  | Nested l =>
      (* output_temp, length_temp = dwt_serialize(i, [], []) *)
      let sub := fold_left (fun st' x => visit x st') l (Frame [] [] [] true) in
      let output_temp := f_output sub in
      let length_temp := f_length sub in
      Frame (f_output st ++ output_temp)
            (f_length st ++ [LList length_temp])
            (if f_aliased st then f_caller st ++ [LList length_temp]
             else f_caller st)
            (f_aliased st)
  | Leaf a =>
      let new_output := serialize a in
      Frame (f_output st ++ new_output)
            (f_length st ++ [LInt (length new_output)])
            (f_caller st)
            false
  end.

(** The loop [for i in filtered_image]. *)
Definition visit_all (l : list subband_item) (st : frame) : frame :=
  fold_left (fun st' x => visit x st') l st.

(** dwt_serialize(filtered_image, output, length): the returned pair, and
    the content of the caller's [length] list after the call. *)
Definition dwt_serialize (filtered_image : list subband_item)
           (output : list Z) (length : list length_item)
  : (list Z * list length_item) * list length_item :=
  let st := visit_all filtered_image (Frame output length length true) in
  ((f_output st, f_length st), f_caller st).

(** *** The flattening as the specification describes it *)

(** The tree with every leaf replaced by its coefficient count, the number
    of values the scan emits for it. *)
Fixpoint shape_of (i : subband_item) : length_item :=
  match i with
  | Leaf a => LInt (length (serialize a))
  | Nested l => LList (shape_of <$> l)
  end.

(** Depth-first concatenation of the scanned leaves. *)
Fixpoint flatten (i : subband_item) : list Z :=
  match i with
  | Leaf a => serialize a
  | Nested l => concat (flatten <$> l)
  end.

End Flatten.

(** Sum of all integers of a length record. *)
Fixpoint total (r : length_item) : nat :=
  match r with
  | LInt n => n
  | LList l => foldr (fun x acc => (total x + acc)%nat) O l
  end.

Definition total_list (l : list length_item) : nat :=
  foldr (fun x acc => (total x + acc)%nat) O l.

(** Row-major scan, used in the examples in place of the zigzag scan. *)
Definition scan_rows (a : ndarray Z) : list Z := concat (data a).

(** ** The object heap

    Python objects live in a heap addressed by position; a new object is
    appended.  A numpy array owns its buffer ([OFloatArray], [OIntArray]) or
    is a strided view [base[::rstep, ::cstep]] of an owning array ([OView]),
    so that writing to the base is visible through the view.  A Python list
    holds the addresses of its items. *)

Abbreviation addr := nat (only parsing).

Inductive pyobj : Type :=
| OFloatArray (a : ndarray Q)
| OIntArray (a : ndarray Z)
| OView (base : addr) (rstep cstep : nat)
| OList (items : list addr).

Abbreviation heap := (list pyobj) (only parsing).

(** Computations that read and change the heap and may raise; the heap
    reached when an exception is raised is kept, as the interpreter keeps
    it. *)
Definition M (A : Type) : Type := heap -> result A * heap.

Definition ret {A} (a : A) : M A := fun h => (Ok a, h).

Definition bind {A B} (m : M A) (k : A -> M B) : M B :=
  fun h => match m h with
           | (Ok a, h') => k a h'
           | (Raise e, h') => (Raise e, h')
           end.

Definition raise {A} (e : exn) : M A := fun h => (Raise e, h).

Definition lift {A} (r : result A) : M A := fun h => (r, h).

Notation "x <- m ;; k" := (bind m (fun x => k))
  (at level 100, m at level 99, k at level 200, right associativity).
Notation "m ;;; k" := (bind m (fun _ => k))
  (at level 100, k at level 200, right associativity).

(** [try: m except IndexError: handler] *)
Definition try_except_IndexError {A} (m handler : M A) : M A :=
  fun h => match m h with
           | (Raise IndexError, h') => handler h'
           | r => r
           end.

(** [for x in l: body x] *)
Definition for_each {A} (l : list A) (body : A -> M unit) : M unit :=
  (fix go (l : list A) : M unit :=
     match l with
     | [] => ret tt
     | x :: r => body x ;;; go r
     end) l.

(** [for i in range(0, n): body i] *)
Definition for_range (n : nat) (body : nat -> M unit) : M unit :=
  for_each (seq 0 n) body.

Definition alloc (o : pyobj) : M addr :=
  fun h => (Ok (length h), h ++ [o]).

(** *** Arrays in the heap *)

(** Number of elements of [l[::step]] for a sequence of [n] elements. *)
Definition strided_len (n step : nat) : nat := ((n + step - 1) / step)%nat.

(** [l[::step]] for [step >= 1]. *)
Definition strided {A} (step : nat) (l : list A) : list A :=
  match l with
  | [] => []
  | d :: _ => (fun k => nth (k * step) l d) <$> seq 0 (strided_len (length l) step)
  end.

(** The elements of an integer array read as numbers. *)
Definition pixels (m : list (list Z)) : list (list Q) :=
  (fun row : list Z => inject_Z <$> row) <$> m.

(** The array held by an object that owns its buffer; integers are read as
    numbers. *)
Definition owned_array (o : pyobj) : option (ndarray Q) :=
  match o with
  | OFloatArray x => Some x
  | OIntArray x =>
      Some (NdArray (nrows x) (ncols x) (pixels (data x)))
  | _ => None
  end.

(** The shape and the elements that the object at [a] denotes as an array:
    a view is read through its base. *)
Definition resolve (h : heap) (a : addr) : option (ndarray Q) :=
  match h !! a with
  | Some (OView base rstep cstep) =>
      match h !! base ≫= owned_array with
      | Some x =>
          Some (NdArray (strided_len (nrows x) rstep) (strided_len (ncols x) cstep)
                        (strided rstep ((fun row : list Q => strided cstep row) <$> data x)))
      | None => None
      end
  | Some o => owned_array o
  | None => None
  end.

(** Reading the object at [a] as an array; a list has no shape. *)
Definition array_of (a : addr) : M (ndarray Q) :=
  fun h => match resolve h a with
           | Some x => (Ok x, h)
           | None => (Raise AttributeError, h)
           end.

(** [a[i, :]] *)
Definition getrow (a : addr) (i : nat) : M (list Q) :=
  x <- array_of a ;;
  match data x !! i with
  | Some row => ret row
  | None => raise IndexError
  end.

(** [a[:, j]] *)
Definition getcol (a : addr) (j : nat) : M (list Q) :=
  x <- array_of a ;;
  if (j <? ncols x)%nat then ret ((fun row => nth j row 0%Q) <$> data x)
  else raise IndexError.

(** The value assigned to a row or column of [n] elements: numpy accepts
    [n] values, repeats a single value, and refuses anything else. *)
Definition broadcast_to (n : nat) (v : list Q) : result (list Q) :=
  if (length v =? n)%nat then Ok v
  else match v with
       | [x] => Ok (replicate n x)
       | _ => Raise ValueError
       end.

(** [a[i, :] = v] and [a[:, j] = v] for a float array [a] that owns its
    buffer, the only targets of the assignments in dwt. *)
Definition setrow (a : addr) (i : nat) (v : list Q) : M unit :=
  fun h =>
    match h !! a with
    | Some (OFloatArray x) =>
        if (i <? nrows x)%nat then
          match broadcast_to (ncols x) v with
          | Ok v' => (Ok tt, <[a := OFloatArray (NdArray (nrows x) (ncols x)
                                                   (<[i := v']> (data x)))]> h)
          | Raise e => (Raise e, h)
          end
        else (Raise IndexError, h)
    | _ => (Raise TypeError, h)
    end.

Definition setcol (a : addr) (j : nat) (v : list Q) : M unit :=
  fun h =>
    match h !! a with
    | Some (OFloatArray x) =>
        if (j <? ncols x)%nat then
          match broadcast_to (nrows x) v with
          | Ok v' => (Ok tt, <[a := OFloatArray (NdArray (nrows x) (ncols x)
                                 (zip_with (fun row y => <[j := y]> row) (data x) v'))]> h)
          | Raise e => (Raise e, h)
          end
        else (Raise IndexError, h)
    | _ => (Raise TypeError, h)
    end.

(** [a[:, ::2]] and [a[::2, :]]: a new view object on the buffer that [a]
    reads. *)
Definition view_cols2 (a : addr) : M addr :=
  fun h =>
    match h !! a with
    | Some (OFloatArray _) | Some (OIntArray _) => alloc (OView a 1 2) h
    | Some (OView base rstep cstep) => alloc (OView base rstep (2 * cstep)) h
    | _ => (Raise TypeError, h)
    end.

Definition view_rows2 (a : addr) : M addr :=
  fun h =>
    match h !! a with
    | Some (OFloatArray _) | Some (OIntArray _) => alloc (OView a 2 1) h
    | Some (OView base rstep cstep) => alloc (OView base (2 * rstep) cstep) h
    | _ => (Raise TypeError, h)
    end.

(** [np.round(a / d).astype(int)]: a new integer array.  For [d = 0] numpy
    produces infinities and an unspecified integer; the model stops there. *)
Definition round_div (a : addr) (d : Z) : M addr :=
  x <- array_of a ;;
  if d =? 0 then raise NotModelled
  else alloc (OIntArray (NdArray (nrows x) (ncols x)
                                 ((fun row : list Q => (fun v => quantize v d) <$> row) <$> data x))).

(** *** Lists in the heap *)

(** [l[i]] and [l[i] = x] for a Python list [l]. *)
Definition list_getitem (l : addr) (i : Z) : M addr :=
  fun h =>
    match h !! l with
    | Some (OList items) =>
        match Py.index (length items) i with
        | Ok k => match items !! k with
                  | Some x => (Ok x, h)
                  | None => (Raise IndexError, h)
                  end
        | Raise e => (Raise e, h)
        end
    | _ => (Raise TypeError, h)
    end.

Definition list_setitem (l : addr) (i : Z) (x : addr) : M unit :=
  fun h =>
    match h !! l with
    | Some (OList items) =>
        match Py.index (length items) i with
        | Ok k => (Ok tt, <[l := OList (<[k := x]> items)]> h)
        | Raise e => (Raise e, h)
        end
    | _ => (Raise TypeError, h)
    end.

(** [q[i]] for the Python list of divisors. *)
Definition divisor (quantization_Array : list Z) (i : nat) : M Z :=
  match quantization_Array !! i with
  | Some d => ret d
  | None => raise IndexError
  end.

(** ** Single-level decomposition (encoder_2000.py, dwt) *)

Definition dwt (image_array : addr) (quantization_Array : list Z) : M addr :=
  shape <- array_of image_array ;;
  let nrow := nrows shape in
  let ncol := ncols shape in
  LL <- alloc (OFloatArray (np_zeros 0%Q nrow ncol)) ;;
  LH <- alloc (OFloatArray (np_zeros 0%Q nrow ncol)) ;;
  HL <- alloc (OFloatArray (np_zeros 0%Q nrow ncol)) ;;
  HH <- alloc (OFloatArray (np_zeros 0%Q nrow ncol)) ;;
  filtered_image <- alloc (OList [LL; LH; HL; HH]) ;;
  LowPass_rows <- alloc (OFloatArray (np_zeros 0%Q nrow ncol)) ;;
  HighPass_rows <- alloc (OFloatArray (np_zeros 0%Q nrow ncol)) ;;
  (* filtering the rows *)
  for_range nrow (fun i =>
    row <- getrow image_array i ;;
    lo <- lift (lfilterQ LPF row LPF_center) ;;
    setrow LowPass_rows i lo ;;;
    row <- getrow image_array i ;;
    hi <- lift (lfilterQ HPF row HPF_center) ;;
    setrow HighPass_rows i hi) ;;;
  (* down sample rows: the list now holds views of LL, LH, HL, HH *)
  for_range 4 (fun i =>
    x <- list_getitem filtered_image (Z.of_nat i) ;;
    v <- view_cols2 x ;;
    list_setitem filtered_image (Z.of_nat i) v) ;;;
  (* apply filters across columns, writing into LL, LH, HL, HH *)
  for_range ncol (fun i =>
    col <- getcol LowPass_rows i ;;
    y <- lift (lfilterQ LPF col LPF_center) ;;
    setcol LL i y ;;;
    col <- getcol LowPass_rows i ;;
    y <- lift (lfilterQ HPF col HPF_center) ;;
    setcol LH i y ;;;
    col <- getcol HighPass_rows i ;;
    y <- lift (lfilterQ LPF col LPF_center) ;;
    setcol HL i y ;;;
    col <- getcol HighPass_rows i ;;
    y <- lift (lfilterQ HPF col HPF_center) ;;
    setcol HH i y) ;;;
  (* down sample columns and quantize *)
  for_range 4 (fun i =>
    x <- list_getitem filtered_image (Z.of_nat i) ;;
    v <- view_rows2 x ;;
    list_setitem filtered_image (Z.of_nat i) v ;;;
    x <- list_getitem filtered_image (Z.of_nat i) ;;
    d <- divisor quantization_Array i ;;
    r <- round_div x d ;;
    list_setitem filtered_image (Z.of_nat i) r) ;;;
  ret filtered_image.



(** ** Recursive decomposition (encoder_2000.py, dwt_levels) *)

Local Unset Elimination Schemes.

(** One entry of the [levels] argument: [[k]] or [[k, sub]], the index of a
    subband and, optionally, the entries for the subbands made from it. *)
Inductive level : Type :=
| Level (index : Z) (sub : option (list level)).

Local Set Elimination Schemes.

(** dwt_levels(filtered_image, levels, quantization_Array).  It returns
    None; its result is the change it makes to the list [filtered_image].
    [level[1]] raises IndexError when the entry has one element, and the
    handler also catches an IndexError raised inside the recursive call.

    The recursion goes through the entries of [levels]: [dwt_level] is the
    body of the loop for one entry, and contains the activation of
    dwt_levels on [level[1]] (the assertion and the loop). *)
Fixpoint dwt_level (filtered_image : addr) (quantization_Array : list Z)
         (entry : level) {struct entry} : M unit :=
  match entry with
  | Level index sub =>
      x <- list_getitem filtered_image index ;;
      y <- dwt x quantization_Array ;;
      list_setitem filtered_image index y ;;;
      try_except_IndexError
        (z <- list_getitem filtered_image index ;;
         match sub with
         | None => raise IndexError
         | Some levels =>
             (* dwt_levels(filtered_image[level[0]], level[1], ...) *)
             if (4 <? length levels)%nat then raise AssertionError
             else for_each levels (dwt_level z quantization_Array)
         end)
        (ret tt)
  end.

Definition dwt_levels (filtered_image : addr) (levels : list level)
           (quantization_Array : list Z) : M unit :=
  if (4 <? length levels)%nat then raise AssertionError
  else for_each levels (dwt_level filtered_image quantization_Array).

(** Nesting depth of a decomposition specification: [[k]] has depth 1,
    and an entry [[k, sub]] is one deeper than [sub]. *)
Fixpoint level_depth (entry : level) : nat :=
  match entry with
  | Level _ sub =>
      S (match sub with
         | None => 0
         | Some levels => foldr (fun e d => Nat.max (level_depth e) d) 0%nat levels
         end)
  end.

Definition depth (levels : list level) : nat :=
  foldr (fun e d => Nat.max (level_depth e) d) 0%nat levels.

(** *** The decomposition as the specification describes it *)

(** The boundary-extended filter of a whole sequence: the valid convolution
    of the mirror-extended sequence with the kernel reversed. *)
Definition boundary_filter (taps : list Q) (c : Z) (x : list Q) : list Q :=
  valid_convolution 0%Q Qplus Qmult
    (mirror_extend 0%Q (Z.to_nat (Z.of_nat (length taps) - c - 1)) (Z.to_nat c) x)
    (reverse taps).

(** Column [j] of a matrix, and the matrix whose rows are the first [n]
    columns. *)
Definition column (j : nat) (m : list (list Q)) : list Q :=
  (fun row => nth j row 0%Q) <$> m.

Definition transpose (n : nat) (m : list (list Q)) : list (list Q) :=
  (fun j => column j m) <$> seq 0 n.

(** Filtering every row, and filtering every column, of an
    [nrow x ncol] matrix. *)
Definition filter_rows (taps : list Q) (c : Z) (m : list (list Q)) : list (list Q) :=
  boundary_filter taps c <$> m.

Definition filter_cols (taps : list Q) (c : Z) (nrow ncol : nat)
           (m : list (list Q)) : list (list Q) :=
  transpose nrow (boundary_filter taps c <$> transpose ncol m).

(** Keeping the even-indexed rows and the even-indexed columns. *)
Definition downsample (m : list (list Q)) : list (list Q) :=
  Py.evens ((fun row : list Q => Py.evens row) <$> m).

(** Division by the divisor and rounding, element by element. *)
Definition quantize_all (d : Z) (m : list (list Q)) : list (list Z) :=
  (fun row : list Q => (fun v => quantize v d) <$> row) <$> m.

(** One subband: rows filtered with one kernel, columns with the other,
    downsampled, quantized. *)
Definition subband (row_taps : list Q) (row_c : Z) (col_taps : list Q) (col_c : Z)
           (image : ndarray Z) (d : Z) : ndarray Z :=
  let rows_done := filter_rows row_taps row_c (pixels (data image)) in
  let cols_done := filter_cols col_taps col_c (nrows image) (ncols image) rows_done in
  NdArray (nrows image / 2) (ncols image / 2)
          (quantize_all d (downsample cols_done)).

(** The four subbands in the order LL, LH, HL, HH: the first letter names the
    kernel applied along the rows, the second the kernel applied along the
    columns. *)
Definition dwt_reference (image : ndarray Z) (d0 d1 d2 d3 : Z) : list (ndarray Z) :=
  [ subband LPF LPF_center LPF LPF_center image d0;
    subband LPF LPF_center HPF HPF_center image d1;
    subband HPF HPF_center LPF LPF_center image d2;
    subband HPF HPF_center HPF HPF_center image d3 ].

(** *** What a computation leaves of the heap it was given *)

(** [kept K n h h']: the heap [h'] still has the first [n] objects of [h],
    each related to its earlier state by [K]. *)
Definition kept (K : option pyobj -> option pyobj -> Prop) (n : nat)
           (h h' : heap) : Prop :=
  (n <= length h')%nat /\ forall a, (a < n)%nat -> K (h !! a) (h' !! a).

(** [frames K n Q m]: run on a heap of at least [n] objects, [m] keeps the
    first [n] objects up to [K], and a value it returns satisfies [Q]. *)
Definition frames (K : option pyobj -> option pyobj -> Prop) (n : nat)
           {A} (Q : A -> Prop) (m : M A) : Prop :=
  forall h, (n <= length h)%nat ->
            kept K n h (m h).2 /\ forall v, (m h).1 = Ok v -> Q v.


(** ** Sample inputs *)

Definition sample_image : ndarray Z :=
  NdArray 4 4 [[1; 2; 3; 4]; [5; 6; 7; 8]; [9; 10; 11; 12]; [13; 14; 15; 16]].

(** Four all-zero [k x k] subbands at addresses 0..3 and the list of them at
    address 4. *)
Definition zero_subbands (k : nat) : heap :=
  let z := OIntArray (NdArray k k (replicate k (replicate k 0))) in
  [z; z; z; z; OList [0; 1; 2; 3]%nat].

(** [[0, [[0, [[0, [[0, [[0]]]]]]]]]]: the LL subband decomposed five times. *)
Definition chain5 : list level :=
  [Level 0 (Some [Level 0 (Some [Level 0 (Some [Level 0 (Some [Level 0 None])])])])].

(** ** Vocabulary of the proofs about dwt *)

(** An array whose elements fill its shape. *)
Definition wf_array {A} (x : ndarray A) : Prop :=
  has_shape (nrows x) (ncols x) (data x).

(** The float array object of shape [n x m] with elements [D]. *)
Definition fa (n m : nat) (D : list (list Q)) : pyobj :=
  OFloatArray (NdArray n m D).

(** The body of the row loop of dwt. *)
Definition row_body (img lp hp : addr) (i : nat) : M unit :=
  row <- getrow img i ;;
  lo <- lift (lfilterQ LPF row LPF_center) ;;
  setrow lp i lo ;;;
  row <- getrow img i ;;
  hi <- lift (lfilterQ HPF row HPF_center) ;;
  setrow hp i hi.

(** The body of the column loop of dwt. *)
Definition col_body (lp hp ll lh hl hh : addr) (i : nat) : M unit :=
  col <- getcol lp i ;;
  y <- lift (lfilterQ LPF col LPF_center) ;;
  setcol ll i y ;;;
  col <- getcol lp i ;;
  y <- lift (lfilterQ HPF col HPF_center) ;;
  setcol lh i y ;;;
  col <- getcol hp i ;;
  y <- lift (lfilterQ LPF col LPF_center) ;;
  setcol hl i y ;;;
  col <- getcol hp i ;;
  y <- lift (lfilterQ HPF col HPF_center) ;;
  setcol hh i y.

(** A matrix being overwritten column by column: the columns before [s] are
    those of [D], the others those of [T]. *)
Definition frontier (s : nat) (D T : list (list Q)) : list (list Q) :=
  zip_with (fun d t => take s d ++ drop s t) D T.

(** The heap during the column loop: the caller's heap [h], the four
    subband buffers, the list, the two row-filtered buffers, the views. *)
Definition col_heap (h : heap) (n m : nat) (LPd HPd : list (list Q)) (o4 : pyobj)
           (rest : heap) (A B C D : list (list Q)) : heap :=
  h ++ fa n m A :: fa n m B :: fa n m C :: fa n m D :: o4
    :: fa n m LPd :: fa n m HPd :: rest.

(** The integer array made from the even rows and columns of [X]. *)
Definition quantized (n m : nat) (d : Z) (X : list (list Q)) : pyobj :=
  OIntArray (NdArray (strided_len n 2) (strided_len m 2)
                     (quantize_all d
                        (strided 2 ((fun row : list Q => strided 2 row) <$> X)))).

(** The heap that dwt leaves when started on the heap [h]. *)
Definition dwt_final_heap (h : heap) (image : ndarray Z) (d0 d1 d2 d3 : Z) : heap :=
  let n := nrows image in
  let m := ncols image in
  let LPd := filter_rows LPF LPF_center (pixels (data image)) in
  let HPd := filter_rows HPF HPF_center (pixels (data image)) in
  h ++ [fa n m (filter_cols LPF LPF_center n m LPd);
        fa n m (filter_cols HPF HPF_center n m LPd);
        fa n m (filter_cols LPF LPF_center n m HPd);
        fa n m (filter_cols HPF HPF_center n m HPd);
        OList [length h + 12; length h + 14; length h + 16; length h + 18]%nat;
        fa n m LPd; fa n m HPd;
        OView (length h + 0) 1 2; OView (length h + 1) 1 2;
        OView (length h + 2) 1 2; OView (length h + 3) 1 2;
        OView (length h + 0) 2 2;
        quantized n m d0 (filter_cols LPF LPF_center n m LPd);
        OView (length h + 1) 2 2;
        quantized n m d1 (filter_cols HPF HPF_center n m LPd);
        OView (length h + 2) 2 2;
        quantized n m d2 (filter_cols LPF LPF_center n m HPd);
        OView (length h + 3) 2 2;
        quantized n m d3 (filter_cols HPF HPF_center n m HPd)].

(* ================================================================== *)
(** * Part I, continued: the rest of the two files                      *)
(* ================================================================== *)

(** ** Scanning a block along a sequence of positions *)

(** The values of [matrix] at the positions [(i, j)] of [indices], in that
    order: the stream that [fill_block] reads back. *)
Definition scan (indices : list (nat * nat)) (matrix : list (list Z)) : list Z :=
  (fun p => default 0 (at2 matrix p.1 p.2)) <$> indices.

(** ** The leading sublists of a subband tree *)

(** The items before the first array: those whose records reach the
    caller's list through [length.append]. *)
Fixpoint leading_nested (l : list subband_item) : list subband_item :=
  match l with
  | Nested x :: r => Nested x :: leading_nested r
  | _ => []
  end.

(** ** Shapes that cannot be combined elementwise *)

Definition incompatible (a b : nat) : Prop := a <> b /\ a <> 1%nat /\ b <> 1%nat.

(** ** Valid image dimensions (encoder_2000.py, check_image, lines 44-46)

    [round(size / divisor) * divisor] with [divisor = 2**depth], for one of
    the two dimensions: Python's [round] of a float goes to the nearest
    integer, ties to even, and the quotient of an image size (an integer
    below 2**53) by a power of two is an exact float.  The resizing itself
    belongs to the imaging library and is not modelled. *)
Definition check_image_dim (size : Z) (depth : nat) : Z :=
  let divisor := 2 ^ Z.of_nat depth in
  np_round (inject_Z size / inject_Z divisor) * divisor.

(** ** What a computation leaves untouched

    [untouched_except l n h h']: the heap [h'] still has the first [n]
    objects of [h], and each of them other than the one at [l] is as it
    was. *)
Definition untouched_except (l : addr) (n : nat) (h h' : heap) : Prop :=
  (n <= length h')%nat
  /\ forall a, (a < n)%nat -> a <> l -> h' !! a = h !! a.

(** ** Reassembling the image (decoder.py, get_reconstructed_image) *)

(** Narrowing of an integer to uint8, as numpy's assignment into a uint8
    array does for a value read from an integer array. *)
Definition uint8 (z : Z) : Z := z mod 256.

(** An axis of [src] elements can be assigned to an axis of [target]
    elements when the lengths agree or the source has a single element,
    which is then repeated. *)
Definition assign_dim (src target : nat) : bool :=
  (src =? target)%nat || (src =? 1)%nat.

(** [lo <= k < lo + len] *)
Definition in_range (lo len k : nat) : bool :=
  (lo <=? k)%nat && (k <? lo + len)%nat.

(** [image[r0 : r0 + box_size, c0 : c0 + box_size] = block] on a uint8
    array: the slices are clipped to the array, and the block must fit the
    region they select. *)
Definition setblock (image : ndarray Z) (r0 c0 box_size : nat) (block : ndarray Z)
  : result (ndarray Z) :=
  let target_rows :=
    (Nat.min (r0 + box_size) (nrows image) - Nat.min r0 (nrows image))%nat in
  let target_cols :=
    (Nat.min (c0 + box_size) (ncols image) - Nat.min c0 (ncols image))%nat in
  if assign_dim (nrows block) target_rows && assign_dim (ncols block) target_cols
  then
    let pick (n i : nat) := if (n =? 1)%nat then O else i in
    let elt (i j : nat) :=
      default 0 (at2 (data block) (pick (nrows block) i) (pick (ncols block) j)) in
    Ok (NdArray (nrows image) (ncols image)
          (imap (fun y row =>
                   if in_range r0 box_size y
                   then imap (fun x v => if in_range c0 box_size x
                                         then uint8 (elt (y - r0) (x - c0))%nat
                                         else v) row
                   else row)
                (data image)))
  else Raise ValueError.

(** A loop whose body may raise, threading a state. *)
Fixpoint result_foldM {A S} (f : S -> A -> result S) (l : list A) (s : S) : result S :=
  match l with
  | [] => Ok s
  | x :: r => match f s x with
              | Ok s' => result_foldM f r s'
              | Raise e => Raise e
              end
  end.

(** The body of the inner loop, for the block row [i] and the block column
    [j]: the state is the image and the counter [c]. *)
Definition place_block (divided_image : list (ndarray Z)) (box_size i : nat)
           (st : ndarray Z * nat) (j : nat) : result (ndarray Z * nat) :=
  match divided_image !! st.2 with
  | None => Raise IndexError
  | Some block =>
      match setblock st.1 (i * box_size) (j * box_size) box_size block with
      | Ok image => Ok (image, S st.2)
      | Raise e => Raise e
      end
  end.

Definition get_reconstructed_image (divided_image : list (ndarray Z))
           (n_rows n_cols box_size : nat) : result (ndarray Z) :=
  let image_reconstructed := np_zeros 0 (n_rows * box_size) (n_cols * box_size) in
  match
    result_foldM
      (fun st i => result_foldM (place_block divided_image box_size i) (seq 0 n_cols) st)
      (seq 0 n_rows) (image_reconstructed, O)
  with
  | Ok st => Ok st.1
  | Raise e => Raise e
  end.

(** An image of [n_rows x n_cols] blocks of [box_size x box_size] pixels. *)
Definition canvas (n_rows n_cols box_size : nat) (image : ndarray Z) : Prop :=
  nrows image = (n_rows * box_size)%nat
  /\ ncols image = (n_cols * box_size)%nat
  /\ wf_array image.

(** The first [c] blocks, counted row by row, are in their places in
    [image]. *)
Definition tiled (divided_image : list (ndarray Z)) (n_cols box_size c : nat)
           (image : ndarray Z) : Prop :=
  forall i j y x block v,
    (i * n_cols + j < c)%nat -> (j < n_cols)%nat ->
    (y < box_size)%nat -> (x < box_size)%nat ->
    divided_image !! (i * n_cols + j)%nat = Some block ->
    at2 (data block) y x = Some v ->
    at2 (data image) (i * box_size + y) (j * box_size + x) = Some (uint8 v).
(* ================================================================== *)
(** * Part II: theorems                                                 *)
(* ================================================================== *)

(** ** Python slices *)

Lemma take_drop_nth {A} (d : A) (x : list A) (s n : nat) :
  (s + n <= length x)%nat ->
  take n (drop s x) = (fun i => nth i x d) <$> seq s n.
Proof.
  intros Hlen. apply list_eq. intros i.
  rewrite list_lookup_fmap.
  destruct (decide (i < n)%nat) as [Hi|Hi].
  - rewrite lookup_take_lt by done. rewrite lookup_drop.
    rewrite lookup_seq_lt by done. simpl.
    rewrite nth_lookup.
    destruct (lookup_lt_is_Some_2 x (s + i)) as [y Hy]; [lia|].
    by rewrite Hy.
  - rewrite lookup_take_ge by lia.
    rewrite lookup_seq_ge by lia. done.
Qed.

Lemma slice_nil {A} (lo hi : Z) : Py.slice lo hi (@nil A) = [].
Proof. unfold Py.slice. by rewrite drop_nil, take_nil. Qed.

Lemma slice_inside_left {A} (d : A) (x : list A) (l : nat) :
  (l < length x)%nat ->
  Py.slice 1 (1 + Z.of_nat l) x = (fun i => nth i x d) <$> seq 1 l.
Proof.
  intros Hl. unfold Py.slice, Py.clip.
  replace (1 <? 0) with false by done.
  replace (1 + Z.of_nat l <? 0) with false by (symmetry; apply Z.ltb_ge; lia).
  replace (Z.to_nat (1 + Z.of_nat l) `min` length x)%nat with (S l) by lia.
  replace (Z.to_nat 1 `min` length x)%nat with 1%nat by lia.
  replace (S l - 1)%nat with l by lia.
  apply take_drop_nth. lia.
Qed.

Lemma slice_inside_right {A} (d : A) (x : list A) (c : nat) :
  (c < length x)%nat ->
  Py.slice (- Z.of_nat c - 1) (-1) x
  = (fun i => nth i x d) <$> seq (length x - 1 - c) c.
Proof.
  intros Hc. unfold Py.slice, Py.clip.
  replace (- Z.of_nat c - 1 <? 0) with true by (symmetry; apply Z.ltb_lt; lia).
  replace (-1 <? 0) with true by done.
  replace (Z.to_nat (0 `max` (-1 + Z.of_nat (length x)))) with (length x - 1)%nat by lia.
  replace (Z.to_nat (0 `max` (- Z.of_nat c - 1 + Z.of_nat (length x))))
    with (length x - 1 - c)%nat by lia.
  replace (length x - 1 - (length x - 1 - c))%nat with c by lia.
  apply take_drop_nth. lia.
Qed.

(** ** The filter *)

Section FilterFacts.
Context {R : Type} (rzero : R) (radd rmul : R -> R -> R).

Lemma nth_lookup_eq (l : list R) (i : nat) (y : R) :
  l !! i = Some y -> nth i l rzero = y.
Proof. intros H. by rewrite nth_lookup, H. Qed.

(** One output sample of numpy's correlation is the corresponding sample
    of the true convolution with the kernel reversed; the products occur in
    the same order, so no law of the arithmetic is needed. *)
Lemma correlate_sample (a w : list R) (n : nat) :
  (n + length w <= length a)%nat ->
  rsum rzero radd (zip_with rmul (take (length w) (drop n a)) w)
  = conv_at rzero radd rmul a (reverse w) (length w - 1 + n).
Proof.
  intros Hn. unfold conv_at. f_equal.
  rewrite length_reverse.
  destruct (decide (length w = 0)%nat) as [Hw|Hw].
  { rewrite Hw. by rewrite take_0. }
  replace (length w - 1 + n + 1 - length w)%nat with n by lia.
  apply list_eq. intros j.
  rewrite lookup_zip_with, list_lookup_fmap.
  destruct (decide (j < length w)%nat) as [Hj|Hj].
  - rewrite lookup_take_lt, lookup_drop, lookup_seq_lt by done. simpl.
    destruct (lookup_lt_is_Some_2 a (n + j)) as [x Hx]; [lia|].
    destruct (lookup_lt_is_Some_2 w j) as [y Hy]; [lia|].
    rewrite Hx, Hy. simpl. f_equal. f_equal.
    + symmetry. by apply nth_lookup_eq.
    + symmetry. apply nth_lookup_eq.
      rewrite reverse_lookup by lia.
      rewrite <- Hy. f_equal. lia.
  - rewrite lookup_take_ge by lia. rewrite lookup_seq_ge by lia. done.
Qed.

Lemma correlate_is_convolution (a w : list R) :
  (1 <= length w <= length a)%nat ->
  correlate_valid rzero radd rmul a w
  = valid_convolution rzero radd rmul a (reverse w).
Proof.
  intros [Hw Ha]. unfold correlate_valid, valid_convolution.
  rewrite length_reverse.
  apply list_eq. intros i. rewrite !list_lookup_fmap.
  destruct (decide (i < length a + 1 - length w)%nat) as [Hi|Hi].
  - rewrite !lookup_seq_lt by done. simpl. f_equal.
    rewrite correlate_sample by lia. done.
  - rewrite !lookup_seq_ge by lia. done.
Qed.

Lemma length_correlate_valid (a w : list R) :
  length (correlate_valid rzero radd rmul a w) = (length a + 1 - length w)%nat.
Proof. unfold correlate_valid. by rewrite length_fmap, length_seq. Qed.

Lemma length_valid_convolution (a v : list R) :
  length (valid_convolution rzero radd rmul a v) = (length a + 1 - length v)%nat.
Proof. unfold valid_convolution. by rewrite length_fmap, length_seq. Qed.

Lemma length_mirror_extend (l c : nat) (x : list R) :
  length (mirror_extend rzero l c x) = (l + length x + c)%nat.
Proof.
  unfold mirror_extend.
  rewrite !length_app, !length_reverse, !length_fmap, !length_seq. lia.
Qed.

(** numpy.convolve does not swap and does not fail when the first operand
    is at least as long as the non-empty second one. *)
Lemma convolve_valid_long (a v : list R) :
  (1 <= length v <= length a)%nat ->
  convolve_valid rzero radd rmul a v
  = Ok (correlate_valid rzero radd rmul a (reverse v)).
Proof.
  intros [Hv Ha]. unfold convolve_valid.
  replace (length a <? length v)%nat with false
    by (symmetry; apply Nat.ltb_ge; lia).
  replace (length a =? 0)%nat with false by (symmetry; apply Nat.eqb_neq; lia).
  replace (length v =? 0)%nat with false by (symmetry; apply Nat.eqb_neq; lia).
  done.
Qed.

(** On a sequence longer than both pads, the slices of lfilter are the
    mirror extension. *)
Lemma lfilter_extension (k : nat) (x : list R) (c : Z) :
  0 <= c < Z.of_nat k ->
  Z.of_nat k - c - 1 < Z.of_nat (length x) ->
  c < Z.of_nat (length x) ->
  reverse (Py.slice 1 (1 + (Z.of_nat k - c - 1)) x)
    ++ x ++ reverse (Py.slice (- c - 1) (-1) x)
  = mirror_extend rzero (Z.to_nat (Z.of_nat k - c - 1)) (Z.to_nat c) x.
Proof.
  intros Hc Hl Hr. unfold mirror_extend.
  replace (Z.of_nat k - c - 1) with (Z.of_nat (Z.to_nat (Z.of_nat k - c - 1))) at 1 by lia.
  rewrite (slice_inside_left rzero) by lia.
  replace c with (Z.of_nat (Z.to_nat c)) at 2 by lia.
  rewrite (slice_inside_right rzero) by lia.
  done.
Qed.

End FilterFacts.

(** On a sequence longer than both pads lfilter is the valid convolution of
    the mirror extension with the reversed kernel, and keeps the length. *)
Lemma lfilter_mirror_convolution
  {R : Type} (rzero : R) (radd rmul : R -> R -> R)
  (taps array : list R) (c : Z) :
  0 <= c < Z.of_nat (length taps) ->
  Z.of_nat (length taps) - c - 1 < Z.of_nat (length array) ->
  c < Z.of_nat (length array) ->
  let ext := mirror_extend rzero (Z.to_nat (Z.of_nat (length taps) - c - 1))
                           (Z.to_nat c) array in
  lfilter rzero radd rmul taps array c
  = Ok (valid_convolution rzero radd rmul ext (reverse taps))
  /\ length (valid_convolution rzero radd rmul ext (reverse taps)) = length array.
Proof.
  intros Hc Hl Hr ext. split.
  - unfold lfilter.
    rewrite (lfilter_extension rzero) by done. fold ext.
    assert (Hext : length ext = (length array + length taps - 1)%nat).
    { unfold ext. rewrite length_mirror_extend. lia. }
    rewrite convolve_valid_long by (rewrite length_reverse, Hext; lia).
    rewrite reverse_involutive.
    rewrite correlate_is_convolution by (rewrite Hext; lia).
    done.
  - rewrite length_valid_convolution, length_reverse.
    unfold ext. rewrite length_mirror_extend. lia.
Qed.

(** C2.  For a sequence of length N and a kernel of length K with centre
    offset c (0 <= c < K), if N exceeds both pad lengths K-c-1 and c, then
    lfilter returns the 'valid' true convolution of the reversed kernel with
    the sequence extended on the left by the samples at indices 1..K-c-1
    reversed and on the right by the c samples before the last one reversed,
    and that result has exactly N samples. *)
Theorem lfilter_valid_convolution
  {R : Type} (rzero : R) (radd rmul : R -> R -> R)
  (taps array : list R) (c : Z) :
  0 <= c < Z.of_nat (length taps) ->
  Z.of_nat (length taps) - c - 1 < Z.of_nat (length array) ->
  c < Z.of_nat (length array) ->
  let ext := mirror_extend rzero (Z.to_nat (Z.of_nat (length taps) - c - 1))
                           (Z.to_nat c) array in
  lfilter rzero radd rmul taps array c
  = Ok (valid_convolution rzero radd rmul ext (reverse taps))
  /\ length (valid_convolution rzero radd rmul ext (reverse taps)) = length array.
Proof.
  intros Hc Hl Hr ext.
  assert (Hext : length ext = (length array + length taps - 1)%nat).
  { unfold ext. rewrite length_mirror_extend. lia. }
  split.
  - unfold lfilter.
    rewrite (lfilter_extension rzero) by done. fold ext.
    rewrite convolve_valid_long by (rewrite length_reverse, Hext; lia).
    rewrite reverse_involutive.
    by rewrite correlate_is_convolution by (rewrite Hext; lia).
  - rewrite length_valid_convolution, length_reverse, Hext. lia.
Qed.

Lemma lfilter_valid_convolution_witness :
  lfilter 0 Z.add Z.mul [-1; 2; 6; 2; -1] [1; 2; 3; 4; 5; 6] 2
  = Ok [8; 14; 24; 32; 42; 48].
Proof.
  pose proof (lfilter_valid_convolution 0 Z.add Z.mul
                [-1; 2; 6; 2; -1] [1; 2; 3; 4; 5; 6] 2) as H.
  destruct H as [H _]; [simpl; lia | simpl; lia | simpl; lia |].
  rewrite H. vm_compute. reflexivity.
Defined.

(** A non-empty sequence and a non-empty kernel never make lfilter raise:
    numpy clips the slices and swaps the operands of the convolution. *)
Lemma lfilter_nonempty_ok {R : Type} (rzero : R) (radd rmul : R -> R -> R)
  (taps array : list R) (c : Z) :
  taps <> [] -> array <> [] ->
  exists out, lfilter rzero radd rmul taps array c = Ok out /\ out <> [].
Proof.
  intros Ht Ha. unfold lfilter.
  set (arr := _ ++ array ++ _).
  assert (Harr : (1 <= length arr)%nat).
  { unfold arr. rewrite !length_app. destruct array; [done|simpl; lia]. }
  assert (Hk : (1 <= length (reverse taps))%nat).
  { rewrite length_reverse. destruct taps; [done|simpl; lia]. }
  unfold convolve_valid.
  destruct (length arr <? length (reverse taps))%nat eqn:Hswap.
  - apply Nat.ltb_lt in Hswap.
    replace (length (reverse taps) =? 0)%nat with false
      by (symmetry; apply Nat.eqb_neq; lia).
    replace (length arr =? 0)%nat with false by (symmetry; apply Nat.eqb_neq; lia).
    eexists. split; [done|].
    intros E. apply (f_equal length) in E.
    rewrite length_correlate_valid, !length_reverse in E.
    rewrite length_reverse in Hk, Hswap. simpl in E. lia.
  - apply Nat.ltb_ge in Hswap.
    replace (length (reverse taps) =? 0)%nat with false
      by (symmetry; apply Nat.eqb_neq; lia).
    replace (length arr =? 0)%nat with false by (symmetry; apply Nat.eqb_neq; lia).
    eexists. split; [done|].
    intros E. apply (f_equal length) in E.
    rewrite length_correlate_valid, !length_reverse in E.
    rewrite length_reverse in Hk, Hswap. simpl in E. lia.
Qed.

(** C7 (counterexample).  The low-pass kernel has 5 taps and centre 2, so the
    minimum length is 3; on a sequence of length 2 lfilter raises nothing and
    returns two samples. *)
Lemma lfilter_below_minimum_returns :
  min_length (length LPF) LPF_center = 3
  /\ exists y0 y1, lfilterQ LPF [10; 20]%Q LPF_center = Ok [y0; y1].
Proof. split; [reflexivity|]. vm_compute. eauto. Qed.

(** C7 (amended).  At exactly the minimum length lfilter succeeds and returns
    as many samples as it was given.  One sample below the minimum it does
    not fail either, unless that leaves an empty sequence: it returns a
    non-empty result computed from the clipped slices. *)
Theorem lfilter_at_and_below_minimum
  {R : Type} (rzero : R) (radd rmul : R -> R -> R)
  (taps array : list R) (c : Z) :
  0 <= c < Z.of_nat (length taps) ->
  (Z.of_nat (length array) = min_length (length taps) c ->
   exists out, lfilter rzero radd rmul taps array c = Ok out
               /\ length out = length array)
  /\ (Z.of_nat (length array) = min_length (length taps) c - 1 ->
      array <> [] ->
      exists out, lfilter rzero radd rmul taps array c = Ok out /\ out <> [])
  /\ (Z.of_nat (length array) = min_length (length taps) c - 1 ->
      array = [] ->
      lfilter rzero radd rmul taps array c = Raise ValueError).
Proof.
  intros Hc. unfold min_length. split; [|split].
  - intros HN.
    destruct (lfilter_mirror_convolution rzero radd rmul taps array c)
      as [H1 H2]; [lia..|].
    eexists. split; [exact H1|exact H2].
  - intros _ Ha. apply lfilter_nonempty_ok; [|done].
    destruct taps; [simpl in Hc; lia|done].
  - intros _ ->. destruct taps as [|t taps]; [simpl in Hc; lia|].
    unfold lfilter, convolve_valid. rewrite !slice_nil. simpl.
    rewrite length_reverse. simpl. by destruct (_ =? _)%nat.
Qed.

Lemma lfilter_at_and_below_minimum_witness :
  (exists out, lfilterQ LPF [1; 2; 3]%Q 2 = Ok out /\ length out = 3%nat)
  /\ (exists out, lfilterQ LPF [1; 2]%Q 2 = Ok out /\ out <> [])
  /\ lfilterQ [1%Q] [] 0 = Raise ValueError.
Proof.
  split; [|split].
  - apply (lfilter_at_and_below_minimum 0%Q Qplus Qmult LPF [1; 2; 3]%Q 2);
      [simpl; lia | reflexivity].
  - apply (lfilter_at_and_below_minimum 0%Q Qplus Qmult LPF [1; 2]%Q 2);
      [simpl; lia | reflexivity | discriminate].
  - apply (lfilter_at_and_below_minimum 0%Q Qplus Qmult [1%Q] [] 0);
      [simpl; lia | reflexivity | reflexivity].
Defined.

(** ** Run-length decoding *)

Lemma rld_loop_step (fuel : nat) (s : list Z) (i : nat) (acc : list Z) (x : Z) :
  s !! i = Some x ->
  rld_loop (S fuel) s i acc
  = if x =? 0 then
      match s !! (i + 1)%nat with
      | None => Some (Raise IndexError)
      | Some n => rld_loop fuel s (i + 2) (acc ++ replicate (Z.to_nat (n + 1)) 0)
      end
    else rld_loop fuel s (i + 1) (acc ++ [x]).
Proof.
  intros Hx. simpl.
  apply lookup_lt_Some in Hx as Hi.
  replace (i <? length s)%nat with true by (symmetry; apply Nat.ltb_lt; lia).
  by rewrite Hx.
Qed.

Lemma rld_loop_end (fuel : nat) (s : list Z) (i : nat) (acc : list Z) :
  (length s <= i)%nat -> rld_loop fuel s i acc = Some (Ok acc).
Proof.
  intros Hi. destruct fuel; simpl;
    by replace (i <? length s)%nat with false by (symmetry; apply Nat.ltb_ge; lia).
Qed.

(** The loop invariant: started at the beginning of a segment [suf] in which
    every marker has its count, the loop reaches the end of the segment with
    the expansion of the segment appended, having spent at most one unit of
    fuel per token. *)
Lemma rld_loop_scan (n : nat) :
  forall (suf pre rest acc : list Z) (fuel : nat),
    (length suf <= n)%nat ->
    paired suf = true ->
    (length suf <= fuel)%nat ->
    exists fuel', (fuel - length suf <= fuel')%nat
      /\ rld_loop fuel (pre ++ suf ++ rest) (length pre) acc
         = rld_loop fuel' (pre ++ suf ++ rest) (length pre + length suf)
                    (acc ++ expand suf).
Proof.
  induction n as [|n IH]; intros suf pre rest acc fuel Hn Hp Hf.
  - destruct suf; [|simpl in Hn; lia].
    exists fuel. simpl. rewrite app_nil_r, Nat.add_0_r. split; [lia|done].
  - destruct suf as [|x r].
    { exists fuel. simpl. rewrite app_nil_r, Nat.add_0_r. split; [lia|done]. }
    destruct fuel as [|fuel]; [simpl in Hf; lia|].
    rewrite (rld_loop_step _ _ _ _ x) by (simpl; by apply list_lookup_middle).
    simpl in Hp |- *.
    destruct (x =? 0) eqn:Hx.
    + destruct r as [|m r']; [done|].
      replace ((pre ++ x :: m :: r' ++ rest) !! (length pre + 1)%nat) with (Some m).
      2:{ symmetry. rewrite lookup_app_r by lia.
          replace (length pre + 1 - length pre)%nat with 1%nat by lia. done. }
      destruct (IH r' (pre ++ [x; m]) rest
                  (acc ++ replicate (Z.to_nat (m + 1)) 0) fuel)
        as (fuel' & Hfuel' & Heq); [simpl in *; lia | done | simpl in *; lia |].
      exists fuel'. split; [simpl in *; lia|].
      rewrite length_app in Heq. simpl in Heq.
      rewrite <- !app_assoc in Heq. simpl in Heq.
      simpl. rewrite Heq. f_equal. lia.
    + destruct (IH r (pre ++ [x]) rest (acc ++ [x]) fuel)
        as (fuel' & Hfuel' & Heq); [simpl in *; lia | done | simpl in *; lia |].
      exists fuel'. split; [simpl in *; lia|].
      rewrite length_app in Heq. simpl in Heq.
      rewrite <- !app_assoc in Heq. simpl in Heq.
      simpl. rewrite Heq. f_equal. lia.
Qed.

Lemma expand_length (s : list Z) :
  counts s = true ->
  Z.of_nat (length (expand s)) = literals s + run_total s.
Proof.
  induction s as [s IH] using (induction_ltof1 _ length). unfold ltof in IH.
  intros Hc. destruct s as [|x r]; [done|]. simpl in *.
  destruct (x =? 0).
  - destruct r as [|n r']; [done|].
    apply andb_true_iff in Hc as [Hn Hc]. apply Z.leb_le in Hn.
    rewrite length_app, length_replicate, Nat2Z.inj_add.
    rewrite IH by (simpl; lia || done). lia.
  - rewrite length_cons, Nat2Z.inj_succ, IH by (simpl; lia || done). lia.
Qed.

(** C4.  On a stream in which every 0 marker is followed by a count,
    run_length_decode returns the left-to-right expansion (a marker with its
    count n becomes n+1 zeros, every other token is copied), and the length
    of the output is the number of literal tokens plus the sum of n+1 over
    the marker pairs. *)
Theorem run_length_decode_expands (rlcoded : list Z) :
  well_formed rlcoded = true ->
  run_length_decode rlcoded = Some (Ok (expand rlcoded))
  /\ Z.of_nat (length (expand rlcoded)) = literals rlcoded + run_total rlcoded.
Proof.
  unfold well_formed. intros [Hp Hc]%andb_true_iff. split.
  - unfold run_length_decode.
    destruct (rld_loop_scan (length rlcoded) rlcoded [] [] [] (length rlcoded))
      as (fuel' & _ & Heq); [lia | done | lia |].
    rewrite app_nil_r in Heq. simpl in Heq. rewrite Heq.
    by apply rld_loop_end.
  - by apply expand_length.
Qed.

Lemma run_length_decode_expands_witness :
  run_length_decode [5; 0; 2; -3; 0; 0; 7]
  = Some (Ok [5; 0; 0; 0; -3; 0; 7])
  /\ Z.of_nat (length [5; 0; 0; 0; -3; 0; 7]) = 3 + (3 + 1).
Proof.
  exact (run_length_decode_expands [5; 0; 2; -3; 0; 0; 7] eq_refl).
Defined.

(** C8.  A stream that ends in a 0 marker without its count (the tokens
    before it are complete literals and marker pairs) makes
    run_length_decode raise IndexError: nothing is returned. *)
Theorem run_length_decode_trailing_marker (prefix : list Z) :
  paired prefix = true ->
  run_length_decode (prefix ++ [0]) = Some (Raise IndexError).
Proof.
  intros Hp. unfold run_length_decode.
  destruct (rld_loop_scan (length prefix) prefix [] [0] []
                          (length (prefix ++ [0])))
    as (fuel' & Hfuel' & Heq); [lia | done | rewrite length_app; lia |].
  simpl in Heq. rewrite Heq.
  rewrite length_app in Hfuel'. simpl in Hfuel'.
  destruct fuel' as [|fuel']; [lia|].
  rewrite (rld_loop_step _ _ _ _ 0).
  - simpl. rewrite lookup_ge_None_2; [done|]. rewrite length_app. simpl. lia.
  - by apply list_lookup_middle.
Qed.

Lemma run_length_decode_trailing_marker_witness :
  run_length_decode ([5; 0; 2; -3] ++ [0]) = Some (Raise IndexError).
Proof.
  exact (run_length_decode_trailing_marker [5; 0; 2; -3] eq_refl).
Defined.

(** ** Quantization *)

Lemma np_round_close (x : Q) :
  (- (1 # 2) <= inject_Z (np_round x) - x <= 1 # 2)%Q.
Proof.
  unfold np_round.
  pose proof (Qfloor_le x) as Hlo.
  pose proof (Qlt_floor x) as Hhi.
  rewrite inject_Z_plus in Hhi. change (inject_Z 1) with 1%Q in Hhi.
  set (f := Qfloor x) in *.
  destruct (Qcompare (x - inject_Z f) (1 # 2)) eqn:Hcmp.
  - apply Qeq_alt in Hcmp.
    destruct (Z.even f); [|rewrite inject_Z_plus; change (inject_Z 1) with 1%Q];
      lra.
  - apply Qlt_alt in Hcmp. lra.
  - apply Qgt_alt in Hcmp. rewrite inject_Z_plus. change (inject_Z 1) with 1%Q.
    lra.
Qed.

(** The reconstruction error of one coefficient under the exact quotient,
    for any rational value: at most half a quantization step. *)
Lemma quantize_error (v : Q) (d : Z) :
  0 < d ->
  (- ((1 # 2) * inject_Z d) <= inject_Z (quantize v d * d) - v
   <= (1 # 2) * inject_Z d)%Q.
Proof.
  intros Hd. unfold quantize.
  pose proof (np_round_close (v / inject_Z d)) as H.
  set (q := np_round (v / inject_Z d)) in *.
  assert (Hd' : (0 < inject_Z d)%Q).
  { change 0%Q with (inject_Z 0). by rewrite <- Zlt_Qlt. }
  rewrite inject_Z_mult.
  set (D := inject_Z d) in *. set (iq := inject_Z q) in *.
  assert (Hv : (v == v / D * D)%Q) by (field; lra).
  set (w := (v / D)%Q) in *.
  rewrite Hv. clearbody w. clear Hv.
  destruct H as [H1 H2].
  assert (Ha : (0 <= (iq - w + (1 # 2)) * D)%Q)
    by (apply Qmult_le_0_compat; lra).
  assert (Hb : (0 <= ((1 # 2) - (iq - w)) * D)%Q)
    by (apply Qmult_le_0_compat; lra).
  clearbody D iq. split; lra.
Qed.

(** *** Quantization in float64 *)

Lemma inject_Z_pos (d : Z) : 0 < d -> (0 < inject_Z d)%Q.
Proof. intros Hd. change 0%Q with (inject_Z 0). by rewrite <- Zlt_Qlt. Qed.

(** An integer within less than one half of [x] is what [x] rounds to. *)
Lemma np_round_unique (x : Q) (k : Z) :
  (- (1 # 2) < inject_Z k - x < 1 # 2)%Q -> np_round x = k.
Proof.
  intros [Hlo Hhi]. pose proof (np_round_close x) as [Clo Chi].
  assert (H1 : (inject_Z (np_round x) - inject_Z k < 1)%Q) by lra.
  assert (H2 : (inject_Z k - inject_Z (np_round x) < 1)%Q) by lra.
  assert (G1 : (inject_Z (np_round x) < inject_Z (k + 1))%Q).
  { rewrite inject_Z_plus. change (inject_Z 1) with 1%Q. lra. }
  assert (G2 : (inject_Z k < inject_Z (np_round x + 1))%Q).
  { rewrite inject_Z_plus. change (inject_Z 1) with 1%Q. lra. }
  rewrite <- Zlt_Qlt in G1, G2. lia.
Qed.

(** The powers of two. *)
Lemma pow2_positive (e : Z) : (0 < pow2 e)%Q.
Proof.
  unfold pow2. destruct (Z.leb_spec 0 e) as [He|He].
  - apply inject_Z_pos. by apply Z.pow_pos_nonneg.
  - assert (H1 : (0 < inject_Z (2 ^ (- e)))%Q).
    { apply inject_Z_pos. apply Z.pow_pos_nonneg; lia. }
    set (c := inject_Z (2 ^ (- e))) in *. clearbody c.
    apply Qlt_shift_div_l; [done | lra].
Qed.

Lemma pow2_le_1 (e : Z) : e <= 0 -> (pow2 e <= 1)%Q.
Proof.
  intros He. unfold pow2. destruct (Z.leb_spec 0 e) as [He'|He'].
  - replace e with 0 by lia. change (inject_Z (2 ^ 0)) with 1%Q. lra.
  - assert (H1 : 1 <= 2 ^ (- e)) by (apply Z.lt_pred_le, Z.pow_pos_nonneg; lia).
    rewrite Zle_Qle in H1. change (inject_Z 1) with 1%Q in H1.
    set (c := inject_Z (2 ^ (- e))) in *. clearbody c.
    apply Qle_shift_div_r; lra.
Qed.

Lemma pow2_inverse (e : Z) : e <= 0 -> (inject_Z (2 ^ (- e)) * pow2 e == 1)%Q.
Proof.
  intros He. unfold pow2. destruct (Z.leb_spec 0 e) as [He'|He'].
  - replace e with 0 by lia. by vm_compute.
  - assert (H1 : (0 < inject_Z (2 ^ (- e)))%Q).
    { apply inject_Z_pos. apply Z.pow_pos_nonneg; lia. }
    set (c := inject_Z (2 ^ (- e))) in *. clearbody c.
    field. lra.
Qed.

(** A value below 2**53 has its leading digit at position 52 at most. *)
Lemma ilog2_le (x : Q) :
  Z.abs (Qnum x) < 2 ^ 53 * Z.pos (Qden x) -> ilog2 x <= 52.
Proof.
  intros Hx. unfold ilog2. cbv zeta.
  set (n := Z.abs (Qnum x)) in *. set (d := Z.pos (Qden x)) in *.
  assert (Hd : 0 < d) by (unfold d; lia).
  assert (Hn : 0 <= n) by (unfold n; lia).
  clearbody n d.
  pose proof (Z.log2_nonneg d) as Hld.
  set (k := Z.log2 n - Z.log2 d).
  assert (Hk : k <= 53).
  { destruct (decide (n = 0)) as [Hn0|Hn0].
    - unfold k. rewrite Hn0. change (Z.log2 0) with 0. lia.
    - assert (Hlt : n < 2 ^ (54 + Z.log2 d)).
      { pose proof (Z.log2_spec d Hd) as [_ Hd2].
        rewrite Z.pow_add_r by (pose proof (Z.log2_nonneg d); lia).
        replace (2 ^ 54) with (2 ^ 53 * 2) by reflexivity.
        replace (Z.succ (Z.log2 d)) with (Z.log2 d + 1) in Hd2 by lia.
        rewrite Z.pow_add_r in Hd2 by (pose proof (Z.log2_nonneg d); lia).
        change (2 ^ 1) with 2 in Hd2. nia. }
      apply Z.log2_lt_pow2 in Hlt; [|lia]. unfold k. lia. }
  destruct (Z.leb_spec 0 k) as [Hk0|Hk0].
  - destruct (Z.leb_spec (2 ^ k * d) n) as [Ht|Ht]; [|lia].
    assert (2 ^ k < 2 ^ 53) by nia.
    apply Z.pow_lt_mono_r_iff in H; lia.
  - destruct (d <=? n * 2 ^ (- k)); lia.
Qed.

(** Rounding to a multiple of [p] moves a value by at most [p / 2]. *)
Lemma round_scaled_close (x p : Q) :
  (0 < p)%Q ->
  (- ((1 # 2) * p) <= inject_Z (np_round (x / p)) * p - x <= (1 # 2) * p)%Q.
Proof.
  intros Hp. pose proof (np_round_close (x / p)) as H.
  set (iq := inject_Z (np_round (x / p))) in *.
  assert (Hv : (x == x / p * p)%Q) by (field; lra).
  set (w := (x / p)%Q) in *.
  clearbody w iq.
  destruct H as [H1 H2].
  assert (Ha : (0 <= (iq - w + (1 # 2)) * p)%Q)
    by (apply Qmult_le_0_compat; lra).
  assert (Hb : (0 <= ((1 # 2) - (iq - w)) * p)%Q)
    by (apply Qmult_le_0_compat; lra).
  split; lra.
Qed.

Lemma Q_below_2_53 (x : Q) :
  (- inject_Z (2 ^ 53) < x < inject_Z (2 ^ 53))%Q ->
  Z.abs (Qnum x) < 2 ^ 53 * Z.pos (Qden x).
Proof.
  destruct x as [n d]. unfold Qlt. cbn [Qnum Qden inject_Z Qopp].
  intros [H1 H2]. lia.
Qed.

(** Below 2**53 the float64 grid is at least as fine as the halves: rounding
    to float64 moves a value by at most one half. *)
Lemma float64_close (x : Q) :
  (- inject_Z (2 ^ 53) < x < inject_Z (2 ^ 53))%Q ->
  (- (1 # 2) <= float64 x - x <= 1 # 2)%Q.
Proof.
  intros Hx. unfold float64. cbv zeta.
  pose proof (ilog2_le x (Q_below_2_53 x Hx)) as He.
  set (e := Z.max (ilog2 x - 52) (-1074)).
  assert (He0 : e <= 0) by (unfold e; lia).
  pose proof (pow2_positive e) as Hp. pose proof (pow2_le_1 e He0) as Hp1.
  pose proof (round_scaled_close x (pow2 e) Hp) as [Hlo Hhi].
  split; lra.
Qed.

(** The integers below 2**53 are float64 values. *)
Lemma float64_int (z : Z) :
  Z.abs z < 2 ^ 53 -> (float64 (inject_Z z) == inject_Z z)%Q.
Proof.
  intros Hz. unfold float64. cbv zeta.
  assert (He : ilog2 (inject_Z z) <= 52) by (apply ilog2_le; simpl; lia).
  set (e := Z.max (ilog2 (inject_Z z) - 52) (-1074)).
  assert (He0 : e <= 0) by (unfold e; lia).
  pose proof (pow2_positive e) as Hp.
  pose proof (pow2_inverse e He0) as Hinv.
  assert (Hq : (inject_Z z / pow2 e == inject_Z (z * 2 ^ (- e)))%Q).
  { rewrite inject_Z_mult. rewrite <- (Qmult_1_r (inject_Z z)) at 1.
    rewrite <- Hinv. field. lra. }
  rewrite (np_round_unique _ (z * 2 ^ (- e))) by (rewrite Hq; lra).
  rewrite inject_Z_mult, <- Qmult_assoc, Hinv. ring.
Qed.

(** C5 (amended).  For every integer v with |v| < 2**53 and every divisor d
    with 0 < d < 2**53 (integers that float64 holds exactly), quantizing v
    as dwt does (the float64 quotient v / d rounded to the nearest integer,
    ties to even) and dequantizing the result (elementwise multiplication by
    the divisor) gives a value within d of v. *)
Theorem dequantize_quantize_bound (v d : Z) :
  0 < d < 2 ^ 53 ->
  Z.abs v < 2 ^ 53 ->
  exists r,
    dequantize [scalar_array (quantize_float64 (inject_Z v) d)] (scalar_array d)
    = Ok [scalar_array r]
    /\ Z.abs (r - v) <= d.
Proof.
  intros Hd Hv. exists (quantize_float64 (inject_Z v) d * d). split; [reflexivity|].
  unfold quantize_float64.
  pose proof (float64_int d ltac:(lia)) as HD.
  set (D' := float64 (inject_Z d)) in *.
  assert (HDpos : (0 < inject_Z d)%Q) by (apply inject_Z_pos; lia).
  assert (HD1 : (1 <= inject_Z d)%Q).
  { change 1%Q with (inject_Z 1). rewrite <- Zle_Qle. lia. }
  assert (HV : (- inject_Z (2 ^ 53) < inject_Z v < inject_Z (2 ^ 53))%Q).
  { rewrite <- inject_Z_opp, <- !Zlt_Qlt. lia. }
  set (x := (inject_Z v / D')%Q).
  assert (Hx : (x * inject_Z d == inject_Z v)%Q).
  { unfold x. rewrite <- HD. field. lra. }
  assert (Hxr : (- inject_Z (2 ^ 53) < x < inject_Z (2 ^ 53))%Q).
  { unfold x. split.
    - apply Qlt_shift_div_l; [lra|].
      change (inject_Z (2 ^ 53)) with (9007199254740992%Q) in *. lra.
    - apply Qlt_shift_div_r; [lra|].
      change (inject_Z (2 ^ 53)) with (9007199254740992%Q) in *. lra. }
  pose proof (float64_close x Hxr) as [Hf1 Hf2].
  pose proof (np_round_close (float64 x)) as [Hr1 Hr2].
  set (r := np_round (float64 x)) in *.
  set (y := float64 x) in *. clearbody y r x D'.
  assert (Ha : (0 <= (inject_Z r - x + 1) * inject_Z d)%Q)
    by (apply Qmult_le_0_compat; lra).
  assert (Hb : (0 <= (1 - (inject_Z r - x)) * inject_Z d)%Q)
    by (apply Qmult_le_0_compat; lra).
  apply Z.abs_le. split.
  - rewrite Zle_Qle. unfold Z.sub.
    rewrite inject_Z_plus, !inject_Z_opp, inject_Z_mult. lra.
  - rewrite Zle_Qle. unfold Z.sub.
    rewrite inject_Z_plus, inject_Z_opp, inject_Z_mult. lra.
Qed.

Lemma dequantize_quantize_bound_witness :
  exists r,
    dequantize [scalar_array (quantize_float64 (inject_Z 7) 2)] (scalar_array 2)
    = Ok [scalar_array r]
    /\ Z.abs (r - 7) <= 2.
Proof. apply (dequantize_quantize_bound 7 2); simpl; lia. Defined.

(** C5 (counterexample).  For v = 2**60 and d = 3 the float64 quotient is
    384307168202282304, not the exact 384307168202282325.33..., and the
    dequantized value is 64 below v: further than d. *)
Lemma dequantize_quantize_beyond_float64 :
  0 < 3
  /\ dequantize [scalar_array (quantize_float64 (inject_Z (2 ^ 60)) 3)] (scalar_array 3)
     = Ok [scalar_array (2 ^ 60 - 64)]
  /\ ~ Z.abs ((2 ^ 60 - 64) - 2 ^ 60) <= 3.
Proof.
  split; [lia|]. split; [by vm_compute|].
  intros H. vm_compute in H. by apply H.
Qed.

(** ** Deserialization *)

Lemma int16_range (z : Z) : -32768 <= int16 z <= 32767.
Proof.
  unfold int16. pose proof (Z.mod_pos_bound (z + 32768) 65536). lia.
Qed.

Lemma at2_alter_insert_eq {A} (m : list (list A)) (r c i j : nat) (x : A) :
  has_shape r c m -> (i < r)%nat -> (j < c)%nat ->
  at2 (alter (fun row => <[j := x]> row) i m) i j = Some x.
Proof.
  intros [Hr Hc] Hi Hj. unfold at2.
  rewrite list_lookup_alter_eq.
  destruct (lookup_lt_is_Some_2 m i) as [row Hrow]; [lia|].
  rewrite Hrow. simpl.
  apply list_lookup_insert_eq.
  rewrite Forall_lookup in Hc. rewrite (Hc _ _ Hrow). done.
Qed.

Lemma at2_alter_insert_ne {A} (m : list (list A)) (i j i' j' : nat) (x : A) :
  (i, j) <> (i', j') ->
  at2 (alter (fun row => <[j := x]> row) i m) i' j' = at2 m i' j'.
Proof.
  intros Hne. unfold at2.
  destruct (decide (i = i')) as [<-|Hi].
  - rewrite list_lookup_alter_eq. destruct (m !! i) as [row|]; [|done]. simpl.
    apply list_lookup_insert_ne. congruence.
  - by rewrite list_lookup_alter_ne.
Qed.

Lemma has_shape_alter_insert {A} (m : list (list A)) (r c i j : nat) (x : A) :
  has_shape r c m -> has_shape r c (alter (fun row => <[j := x]> row) i m).
Proof.
  intros [Hr Hc]. split; [by rewrite length_alter|].
  apply Forall_alter; [done|]. intros row _ Hrow. by rewrite length_insert.
Qed.

Lemma Forall_alter_insert {A} (P : A -> Prop) (m : list (list A)) (i j : nat) (x : A) :
  P x -> Forall (Forall P) m ->
  Forall (Forall P) (alter (fun row => <[j := x]> row) i m).
Proof.
  intros Hx Hm. apply Forall_alter; [done|]. intros row _ Hrow.
  by apply Forall_insert.
Qed.

Section DeserializeFacts.
Variable gen : nat -> nat -> list (nat * nat).
Variable serialized : list Z.
Variables n_rows n_cols : nat.

(** One block: every listed position receives its stream value narrowed to
    int16, the other positions keep their contents. *)
Lemma fill_block_spec (indices : list (nat * nat)) :
  forall (matrix : list (list Z)) (step : nat),
    Forall (in_block n_rows n_cols) indices ->
    NoDup indices ->
    (step + length indices <= length serialized)%nat ->
    has_shape n_rows n_cols matrix ->
    Forall (Forall in_int16) matrix ->
    exists matrix',
      fill_block serialized n_rows n_cols indices matrix step
      = Ok (matrix', (step + length indices)%nat)
      /\ has_shape n_rows n_cols matrix'
      /\ Forall (Forall in_int16) matrix'
      /\ (forall k i j v,
             indices !! k = Some (i, j) ->
             serialized !! (step + k)%nat = Some v ->
             at2 matrix' i j = Some (int16 v))
      /\ (forall i j, (i, j) ∉ indices -> at2 matrix' i j = at2 matrix i j).
Proof.
  induction indices as [|[i0 j0] rest IH]; intros matrix step Hin Hnd Hlen Hsh Hrg.
  - exists matrix. simpl. rewrite Nat.add_0_r.
    repeat split; try done; apply Hsh.
  - simpl in Hlen. simpl.
    destruct (lookup_lt_is_Some_2 serialized step) as [v0 Hv0]; [lia|].
    rewrite Hv0. unfold setitem16.
    apply Forall_cons in Hin as [[Hi0 Hj0] Hin]. simpl in Hi0, Hj0.
    apply NoDup_cons in Hnd as [Hfresh Hnd].
    replace (i0 <? n_rows)%nat with true by (symmetry; by apply Nat.ltb_lt).
    replace (j0 <? n_cols)%nat with true by (symmetry; by apply Nat.ltb_lt).
    simpl.
    destruct (IH (alter (fun row => <[j0 := int16 v0]> row) i0 matrix) (S step))
      as (m' & Hrun & Hsh' & Hrg' & Hset & Hkeep);
      [done | done | lia | by apply has_shape_alter_insert
      | apply Forall_alter_insert; [apply int16_range | done] |].
    exists m'. rewrite Hrun.
    replace (S step + length rest)%nat with (step + S (length rest))%nat by lia.
    repeat split; try done; try apply Hsh'.
    + intros k i j v Hk Hv. destruct k as [|k].
      * simpl in Hk. injection Hk as <- <-.
        rewrite Nat.add_0_r, Hv0 in Hv. injection Hv as <-.
        rewrite Hkeep by done.
        by eapply at2_alter_insert_eq.
      * simpl in Hk. apply (Hset k); [done|].
        by replace (S step + k)%nat with (step + S k)%nat by lia.
    + intros i j Hnot. apply not_elem_of_cons in Hnot as [Hne Hnot].
      rewrite Hkeep by done. apply at2_alter_insert_ne. congruence.
Qed.

Lemma fill_blocks_spec (output : list (list (list Z))) :
  forall step,
    let zz := gen n_rows n_cols in
    Forall (in_block n_rows n_cols) zz ->
    NoDup zz ->
    (step + length output * length zz <= length serialized)%nat ->
    Forall (has_shape n_rows n_cols) output ->
    Forall (Forall (Forall in_int16)) output ->
    exists blocks,
      fill_blocks gen serialized n_rows n_cols output step = Ok blocks
      /\ length blocks = length output
      /\ Forall (Forall (Forall in_int16)) blocks
      /\ (forall b k i j v,
             (b < length output)%nat ->
             zz !! k = Some (i, j) ->
             serialized !! (step + b * length zz + k)%nat = Some v ->
             exists blk, blocks !! b = Some blk
                         /\ at2 blk i j = Some (int16 v)).
Proof.
  induction output as [|matrix rest IH]; intros step zz Hin Hnd Hlen Hsh Hrg.
  - exists []. simpl. repeat split; try done. intros; simpl in *; lia.
  - simpl in Hlen. simpl.
    apply Forall_cons in Hsh as [Hsh0 Hsh]. apply Forall_cons in Hrg as [Hrg0 Hrg].
    destruct (fill_block_spec zz matrix step)
      as (m' & Hrun & Hsh' & Hrg' & Hset & _); [done | done | fold zz; lia | done | done |].
    fold zz. rewrite Hrun.
    destruct (IH (step + length zz)%nat)
      as (blocks & Hrest & Hlen' & Hrgs & Hsets);
      [done | done | fold zz; lia | done | done |].
    fold zz in Hrest. rewrite Hrest.
    exists (m' :: blocks). repeat split; try done.
    + simpl. by rewrite Hlen'.
    + by apply Forall_cons.
    + intros b k i j v Hb Hk Hv. destruct b as [|b].
      * exists m'. split; [done|]. apply (Hset k); [done|].
        by replace (step + k)%nat with (step + 0 * length zz + k)%nat by lia.
      * destruct (Hsets b k i j v) as (blk & Hblk & Hat); [lia | done | |].
        -- rewrite <- Hv. f_equal. fold zz. lia.
        -- exists blk. done.
Qed.

(** Whatever the index generator and the stream, a block that is filled
    without an exception holds int16 values only. *)
Lemma fill_block_range (indices : list (nat * nat)) :
  forall (matrix matrix' : list (list Z)) (step step' : nat),
    Forall (Forall in_int16) matrix ->
    fill_block serialized n_rows n_cols indices matrix step = Ok (matrix', step') ->
    Forall (Forall in_int16) matrix'.
Proof.
  induction indices as [|[i0 j0] rest IH]; intros matrix matrix' step step' Hrg Hrun.
  - simpl in Hrun. by injection Hrun as <- <-.
  - simpl in Hrun.
    destruct (serialized !! step) as [v0|]; [|done].
    unfold setitem16 in Hrun.
    destruct ((i0 <? n_rows)%nat && (j0 <? n_cols)%nat); [|done].
    eapply IH; [|exact Hrun].
    apply Forall_alter_insert; [apply int16_range | done].
Qed.

Lemma fill_blocks_range (output : list (list (list Z))) :
  forall (blocks : list (list (list Z))) (step : nat),
    Forall (Forall (Forall in_int16)) output ->
    fill_blocks gen serialized n_rows n_cols output step = Ok blocks ->
    Forall (Forall (Forall in_int16)) blocks.
Proof.
  induction output as [|matrix rest IH]; intros blocks step Hrg Hrun.
  - simpl in Hrun. injection Hrun as <-. done.
  - simpl in Hrun. apply Forall_cons in Hrg as [Hrg0 Hrg].
    destruct (fill_block serialized n_rows n_cols (gen n_rows n_cols) matrix step)
      as [[m' step']|] eqn:Hblock; [|done].
    destruct (fill_blocks gen serialized n_rows n_cols rest step')
      as [rest'|] eqn:Hrest; [|done].
    injection Hrun as <-. apply Forall_cons. split.
    + by eapply fill_block_range.
    + by eapply IH.
Qed.

End DeserializeFacts.

(** C10.  deserialize stores every coefficient narrowed to int16.  Whatever
    the stream and the block count, the blocks it returns hold values in
    [-32768, 32767] only.  Given an index generator that lists distinct
    positions of the block and a stream long enough for the blocks, it
    returns n_blocks blocks, and the coefficient at zigzag position k of block
    b is the stream value number b*len + k reduced modulo 2^16 into that
    range: a value outside the range is wrapped, neither kept nor refused. *)
Theorem deserialize_narrows_to_int16
  (gen : nat -> nat -> list (nat * nat)) (serialized : list Z)
  (n_blocks n_rows n_cols : nat) :
  (forall out b blk i j x,
      deserialize gen serialized n_blocks n_rows n_cols = Ok out ->
      out !! b = Some blk -> at2 (data blk) i j = Some x -> in_int16 x)
  /\ (let zz := gen n_rows n_cols in
      Forall (in_block n_rows n_cols) zz ->
      NoDup zz ->
      (n_blocks * length zz <= length serialized)%nat ->
      exists out,
        deserialize gen serialized n_blocks n_rows n_cols = Ok out
        /\ length out = n_blocks
        /\ (forall b k i j v,
               (b < n_blocks)%nat ->
               zz !! k = Some (i, j) ->
               serialized !! (b * length zz + k)%nat = Some v ->
               exists blk, out !! b = Some blk
                           /\ at2 (data blk) i j = Some (int16 v))).
Proof.
  assert (Hzero : Forall (Forall (Forall in_int16))
                         (replicate n_blocks (replicate n_rows (replicate n_cols 0)))).
  { apply Forall_replicate, Forall_replicate, Forall_replicate.
    unfold in_int16. lia. }
  split.
  - intros out b blk i j x Hrun Hb Hx. unfold deserialize in Hrun.
    destruct (fill_blocks gen serialized n_rows n_cols _ 0%nat)
      as [blocks|] eqn:Hblocks; [|done].
    injection Hrun as <-.
    pose proof (fill_blocks_range gen serialized n_rows n_cols _ _ _ Hzero Hblocks)
      as Hrg.
    rewrite list_lookup_fmap in Hb.
    destruct (blocks !! b) as [m|] eqn:Hm; [|done].
    simpl in Hb. injection Hb as <-. simpl in Hx.
    rewrite Forall_lookup in Hrg. specialize (Hrg _ _ Hm).
    unfold at2 in Hx. destruct (m !! i) as [row|] eqn:Hrow; [|done].
    simpl in Hx. rewrite Forall_lookup in Hrg. specialize (Hrg _ _ Hrow).
    rewrite Forall_lookup in Hrg. by apply (Hrg _ _ Hx).
  - intros zz Hin Hnd Hlen. unfold deserialize.
    destruct (fill_blocks_spec gen serialized n_rows n_cols
                (replicate n_blocks (replicate n_rows (replicate n_cols 0))) 0%nat)
      as (blocks & Hrun & Hlen' & _ & Hset).
    + done.
    + done.
    + rewrite length_replicate. fold zz. lia.
    + apply Forall_replicate. split; [by rewrite length_replicate|].
      apply Forall_replicate. by rewrite length_replicate.
    + done.
    + rewrite Hrun. rewrite length_replicate in Hlen', Hset.
      exists (NdArray n_rows n_cols <$> blocks).
      split; [done|]. split; [by rewrite length_fmap|].
      intros b k i j v Hb Hk Hv.
      destruct (Hset b k i j v Hb Hk Hv) as (m & Hm & Hat).
      exists (NdArray n_rows n_cols m). rewrite list_lookup_fmap, Hm. done.
Qed.

Lemma deserialize_narrows_to_int16_witness :
  exists blk,
    deserialize zigzag_2x2 [1; 70000; -40000; 32768] 1 2 2 = Ok [blk]
    /\ at2 (data blk) 0 1 = Some (int16 70000)
    /\ int16 70000 = 4464
    /\ in_int16 (int16 70000).
Proof.
  destruct (deserialize_narrows_to_int16 zigzag_2x2 [1; 70000; -40000; 32768] 1 2 2)
    as [Hrange Htotal].
  destruct Htotal as (out & Hrun & Hlen & Hset).
  - repeat constructor; simpl; lia.
  - unfold zigzag_2x2. apply NoDup_ListNoDup.
    repeat constructor; simpl; intuition congruence.
  - simpl. lia.
  - destruct out as [|blk [|? ?]]; try discriminate Hlen.
    destruct (Hset 0%nat 1%nat 0%nat 1%nat 70000) as (blk' & Hb & Hat);
      [lia | reflexivity | reflexivity |].
    injection Hb as <-.
    exists blk. split; [exact Hrun|]. split; [exact Hat|]. split; [reflexivity|].
    exact (Hrange [blk] 0%nat blk 0%nat 1%nat _ Hrun eq_refl Hat).
Defined.

(** ** Flattening of the subband tree *)

(** Induction over a nested list of arrays. *)
Lemma subband_item_ind (P : subband_item -> Prop) :
  (forall a, P (Leaf a)) ->
  (forall l, Forall P l -> P (Nested l)) ->
  forall i, P i.
Proof.
  intros Hleaf Hnested. fix IH 1. intros [a|l].
  - apply Hleaf.
  - apply Hnested. induction l as [|x r IHr].
    + apply Forall_nil_2.
    + apply Forall_cons_2; [apply IH | exact IHr].
Qed.

Section FlattenFacts.
Variable serialize : ndarray Z -> list Z.

Lemma visit_all_spec (l : list subband_item) :
  Forall (fun i => forall st,
              f_output (visit serialize i st) = f_output st ++ flatten serialize i
              /\ f_length (visit serialize i st)
                 = f_length st ++ [shape_of serialize i]) l ->
  forall st,
    f_output (visit_all serialize l st) = f_output st ++ concat (flatten serialize <$> l)
    /\ f_length (visit_all serialize l st) = f_length st ++ (shape_of serialize <$> l).
Proof.
  induction 1 as [|i l Hi _ IH]; intros st.
  - simpl. by rewrite !app_nil_r.
  - simpl. destruct (IH (visit serialize i st)) as [-> ->].
    destruct (Hi st) as [-> ->].
    by rewrite <- !app_assoc.
Qed.

Lemma visit_spec (i : subband_item) :
  forall st,
    f_output (visit serialize i st) = f_output st ++ flatten serialize i
    /\ f_length (visit serialize i st) = f_length st ++ [shape_of serialize i].
Proof.
  induction i as [a|l IH] using subband_item_ind; intros st.
  - done.
  - simpl.
    destruct (visit_all_spec l IH (Frame [] [] [] true)) as [Ho Hl].
    unfold visit_all in Ho, Hl. rewrite Ho, Hl. done.
Qed.

Lemma total_list_shape_of (l : list subband_item) :
  Forall (fun i => total (shape_of serialize i) = length (flatten serialize i)) l ->
  total_list (shape_of serialize <$> l)
  = length (concat (flatten serialize <$> l)).
Proof.
  induction 1 as [|i l Hi _ IHl]; [done|].
  unfold total_list in *. simpl. rewrite length_app.
  f_equal; [exact Hi | exact IHl].
Qed.

Lemma total_shape_of (i : subband_item) :
  total (shape_of serialize i) = length (flatten serialize i).
Proof.
  induction i as [a|l IH] using subband_item_ind; [done|].
  by apply total_list_shape_of.
Qed.

End FlattenFacts.

(** C3.  For every nested list of coefficient arrays, the length record
    returned by dwt_serialize (called, as documented, with two empty lists)
    is the tree with every leaf replaced by its coefficient count, and the
    integers of that record add up to the length of the returned stream. *)
Theorem dwt_serialize_length_record
  (serialize : ndarray Z -> list Z) (filtered_image : list subband_item) :
  let returned := fst (dwt_serialize serialize filtered_image [] []) in
  let output := fst returned in
  let length_record := snd returned in
  length_record = shape_of serialize <$> filtered_image
  /\ total_list length_record = length output.
Proof.
  intros returned output length_record.
  unfold length_record, output, returned, dwt_serialize. cbn [fst snd].
  destruct (visit_all_spec serialize filtered_image
              (proj2 (Forall_forall _ _) (fun i _ => visit_spec serialize i))
              (Frame [] [] [] true)) as [Ho Hl].
  simpl in Ho, Hl. rewrite Ho, Hl.
  split; [done|].
  apply total_list_shape_of, Forall_forall. intros i _.
  apply total_shape_of.
Qed.

(** On the tree [[A, [B]], B] scanned row by row: the stream, the length
    record, and the caller's list, which received the first, nested, record
    through [append] before [length] was rebound. *)
Example dwt_serialize_sample :
  let A := NdArray 1 2 [[1; 2]] in
  let B := NdArray 2 2 [[3; 4]; [5; 6]] in
  dwt_serialize scan_rows [Nested [Leaf A; Nested [Leaf B]]; Leaf B] [] []
  = (([1; 2; 3; 4; 5; 6; 3; 4; 5; 6],
      [LList [LInt 2; LList [LInt 4]]; LInt 4]),
     [LList [LInt 2; LList [LInt 4]]]).
Proof. reflexivity. Qed.

(** ** The heap monad *)

Lemma bind_ok {A B} (m : M A) (k : A -> M B) (h h' : heap) (a : A) :
  m h = (Ok a, h') -> bind m k h = k a h'.
Proof. intros H. unfold bind. by rewrite H. Qed.

Lemma bind_raise {A B} (m : M A) (k : A -> M B) (h h' : heap) (e : exn) :
  m h = (Raise e, h') -> bind m k h = (Raise e, h').
Proof. intros H. unfold bind. by rewrite H. Qed.

Lemma for_each_cons {A} (x : A) (l : list A) (body : A -> M unit) (h : heap) :
  for_each (x :: l) body h = bind (body x) (fun _ => for_each l body) h.
Proof. done. Qed.

Lemma for_each_nil {A} (body : A -> M unit) (h : heap) :
  for_each [] body h = (Ok tt, h).
Proof. done. Qed.

Lemma for_each_nil' {A} (body : A -> M unit) :
  for_each [] body = ret tt.
Proof. done. Qed.

Lemma for_each_cons' {A} (x : A) (l : list A) (body : A -> M unit) :
  for_each (x :: l) body = bind (body x) (fun _ => for_each l body).
Proof. done. Qed.

Lemma lookup_app_plus {A} (l1 l2 : list A) (i : nat) :
  (l1 ++ l2) !! (length l1 + i)%nat = l2 !! i.
Proof. rewrite lookup_app_r by lia. f_equal. lia. Qed.

(** *** Reading and writing arrays *)

Lemma array_of_int (h : heap) (a : addr) (x : ndarray Z) :
  h !! a = Some (OIntArray x) ->
  array_of a h = (Ok (NdArray (nrows x) (ncols x) (pixels (data x))), h).
Proof. intros H. unfold array_of, resolve. by rewrite H. Qed.

Lemma array_of_float (h : heap) (a : addr) (x : ndarray Q) :
  h !! a = Some (OFloatArray x) -> array_of a h = (Ok x, h).
Proof. intros H. unfold array_of, resolve. by rewrite H. Qed.

Lemma getrow_int (h : heap) (a : addr) (x : ndarray Z) (i : nat) (row : list Z) :
  h !! a = Some (OIntArray x) ->
  data x !! i = Some row ->
  getrow a i h = (Ok (inject_Z <$> row), h).
Proof.
  intros H Hrow. unfold getrow.
  rewrite (bind_ok _ _ _ _ _ (array_of_int _ _ _ H)). simpl.
  unfold pixels. by rewrite list_lookup_fmap, Hrow.
Qed.

Lemma getcol_float (h : heap) (a : addr) (x : ndarray Q) (j : nat) :
  h !! a = Some (OFloatArray x) ->
  (j < ncols x)%nat ->
  getcol a j h = (Ok (column j (data x)), h).
Proof.
  intros H Hj. unfold getcol.
  rewrite (bind_ok _ _ _ _ _ (array_of_float _ _ _ H)).
  by replace (j <? ncols x)%nat with true by (symmetry; by apply Nat.ltb_lt).
Qed.

Lemma setrow_ok (h : heap) (a : addr) (x : ndarray Q) (i : nat) (v : list Q) :
  h !! a = Some (OFloatArray x) ->
  (i < nrows x)%nat ->
  length v = ncols x ->
  setrow a i v h
  = (Ok tt, <[a := OFloatArray (NdArray (nrows x) (ncols x) (<[i := v]> (data x)))]> h).
Proof.
  intros H Hi Hv. unfold setrow. rewrite H.
  replace (i <? nrows x)%nat with true by (symmetry; by apply Nat.ltb_lt).
  unfold broadcast_to.
  by replace (length v =? ncols x)%nat with true by (symmetry; by apply Nat.eqb_eq).
Qed.

Lemma setcol_ok (h : heap) (a : addr) (x : ndarray Q) (j : nat) (v : list Q) :
  h !! a = Some (OFloatArray x) ->
  (j < ncols x)%nat ->
  length v = nrows x ->
  setcol a j v h
  = (Ok tt, <[a := OFloatArray (NdArray (nrows x) (ncols x)
                      (zip_with (fun row y => <[j := y]> row) (data x) v))]> h).
Proof.
  intros H Hj Hv. unfold setcol. rewrite H.
  replace (j <? ncols x)%nat with true by (symmetry; by apply Nat.ltb_lt).
  unfold broadcast_to.
  by replace (length v =? nrows x)%nat with true by (symmetry; by apply Nat.eqb_eq).
Qed.

(** *** The two kernels on sequences of more than two samples *)

Lemma lfilter_LPF (x : list Q) :
  (2 < length x)%nat ->
  lfilterQ LPF x LPF_center = Ok (boundary_filter LPF LPF_center x)
  /\ length (boundary_filter LPF LPF_center x) = length x.
Proof.
  intros Hx.
  apply (lfilter_mirror_convolution 0%Q Qplus Qmult LPF x LPF_center);
    unfold LPF_center; simpl; lia.
Qed.

Lemma lfilter_HPF (x : list Q) :
  (2 < length x)%nat ->
  lfilterQ HPF x HPF_center = Ok (boundary_filter HPF HPF_center x)
  /\ length (boundary_filter HPF HPF_center x) = length x.
Proof.
  intros Hx.
  apply (lfilter_mirror_convolution 0%Q Qplus Qmult HPF x HPF_center);
    unfold HPF_center; simpl; lia.
Qed.

(** ** Single-level decomposition *)

(** Replacing position [s] of a partly filled sequence by the value of the
    finished one moves the frontier one step. *)
Lemma take_insert_frontier {A} (D F : list A) (s : nat) (y : A) :
  (s < length D)%nat ->
  F !! s = Some y ->
  take (S s) (<[s := y]> D) ++ drop (S s) F = take s D ++ drop s F.
Proof.
  intros Hs Hy.
  rewrite (take_S_r _ _ y) by (by apply list_lookup_insert_eq).
  rewrite take_insert_ge by lia.
  rewrite (drop_S F y s) by done.
  by rewrite <- app_assoc.
Qed.

Section RowLoop.
Variables (img lp hp : addr) (x : ndarray Z).
Hypothesis Hwf : wf_array x.
Hypothesis Hwide : (2 < ncols x)%nat.
Hypothesis Hdistinct : img <> lp /\ img <> hp /\ lp <> hp.

Lemma row_body_spec (i : nat) (H : heap) (Dl Dh : list (list Q)) (row : list Z) :
  H !! img = Some (OIntArray x) ->
  H !! lp = Some (fa (nrows x) (ncols x) Dl) ->
  H !! hp = Some (fa (nrows x) (ncols x) Dh) ->
  data x !! i = Some row ->
  row_body img lp hp i H
  = (Ok tt,
     <[hp := fa (nrows x) (ncols x) (<[i := boundary_filter HPF HPF_center (inject_Z <$> row)]> Dh)]>
       (<[lp := fa (nrows x) (ncols x) (<[i := boundary_filter LPF LPF_center (inject_Z <$> row)]> Dl)]> H)).
Proof using Hwf Hwide Hdistinct.
  intros Himg Hlp Hhp Hrow. destruct Hdistinct as (Hil & Hih & Hlh).
  assert (Hi : (i < nrows x)%nat).
  { destruct Hwf as [<- _]. by eapply lookup_lt_Some. }
  assert (Hlen : length (inject_Z <$> row) = ncols x).
  { rewrite length_fmap. destruct Hwf as [_ Hc].
    rewrite Forall_lookup in Hc. by apply (Hc i). }
  destruct (lfilter_LPF (inject_Z <$> row)) as [Hl1 Hl2]; [lia|].
  destruct (lfilter_HPF (inject_Z <$> row)) as [Hh1 Hh2]; [lia|].
  unfold row_body.
  rewrite (bind_ok _ _ _ _ _ (getrow_int _ _ _ _ _ Himg Hrow)).
  rewrite (bind_ok _ _ H H (boundary_filter LPF LPF_center (inject_Z <$> row)))
    by (unfold lift; by rewrite Hl1).
  erewrite bind_ok; last (apply (setrow_ok _ _ _ _ _ Hlp); simpl; [done|lia]).
  cbn beta.
  erewrite bind_ok; last first.
  { eapply getrow_int; [|exact Hrow]. by rewrite list_lookup_insert_ne. }
  erewrite bind_ok; last (unfold lift; by rewrite Hh1).
  rewrite (setrow_ok _ _ (NdArray (nrows x) (ncols x) Dh)); simpl; try done; try lia.
  by rewrite list_lookup_insert_ne.
Qed.

Lemma row_loop_spec (k : nat) :
  forall (s : nat) (H : heap) (Dl Dh : list (list Q)),
    (s + k = nrows x)%nat ->
    H !! img = Some (OIntArray x) ->
    H !! lp = Some (fa (nrows x) (ncols x) Dl) ->
    H !! hp = Some (fa (nrows x) (ncols x) Dh) ->
    length Dl = nrows x ->
    length Dh = nrows x ->
    for_each (seq s k) (row_body img lp hp) H
    = (Ok tt,
       <[hp := fa (nrows x) (ncols x)
                 (take s Dh ++ drop s (filter_rows HPF HPF_center (pixels (data x))))]>
         (<[lp := fa (nrows x) (ncols x)
                    (take s Dl ++ drop s (filter_rows LPF LPF_center (pixels (data x))))]>
            H)).
Proof using Hwf Hwide Hdistinct.
  induction k as [|k IH]; intros s H Dl Dh Hsk Himg Hlp Hhp HDl HDh.
  - simpl seq. rewrite for_each_nil.
    assert (Hlen : forall taps c, length (filter_rows taps c (pixels (data x))) = nrows x).
    { intros. unfold filter_rows, pixels. rewrite !length_fmap. apply Hwf. }
    rewrite !drop_ge by (rewrite Hlen; lia).
    rewrite !take_ge by lia. rewrite !app_nil_r.
    rewrite (list_insert_id _ lp) by done.
    by rewrite (list_insert_id _ hp) by done.
  - assert (Hs : (s < nrows x)%nat) by lia.
    destruct (lookup_lt_is_Some_2 (data x) s) as [row Hrow].
    { destruct Hwf as [-> _]. done. }
    simpl seq. rewrite for_each_cons.
    rewrite (bind_ok _ _ _ _ _ (row_body_spec s H Dl Dh row Himg Hlp Hhp Hrow)).
    destruct Hdistinct as (Hil & Hih & Hlh).
    apply lookup_lt_Some in Hlp as Hlp'. apply lookup_lt_Some in Hhp as Hhp'.
    rewrite (IH (S s) _
               (<[s := boundary_filter LPF LPF_center (inject_Z <$> row)]> Dl)
               (<[s := boundary_filter HPF HPF_center (inject_Z <$> row)]> Dh)).
    + f_equal.
      rewrite (list_insert_insert_ne _ lp hp) by done.
      rewrite !list_insert_insert_eq.
      f_equal; [|f_equal]; unfold fa; do 2 f_equal.
      * apply take_insert_frontier; [lia|].
        unfold filter_rows, pixels. by rewrite !list_lookup_fmap, Hrow.
      * apply take_insert_frontier; [lia|].
        unfold filter_rows, pixels. by rewrite !list_lookup_fmap, Hrow.
    + lia.
    + by rewrite !list_lookup_insert_ne.
    + rewrite list_lookup_insert_ne by done.
      apply list_lookup_insert_eq. done.
    + apply list_lookup_insert_eq. by rewrite length_insert.
    + by rewrite length_insert.
    + by rewrite length_insert.
Qed.

End RowLoop.

(** *** Columns *)

Lemma length_column (j : nat) (m : list (list Q)) : length (column j m) = length m.
Proof. unfold column. by rewrite length_fmap. Qed.

Lemma has_shape_transpose (n : nat) (X : list (list Q)) :
  has_shape n (length X) (transpose n X).
Proof.
  unfold transpose. split; [by rewrite length_fmap, length_seq|].
  apply Forall_fmap, Forall_forall. intros j _. simpl. apply length_column.
Qed.

(** Column [j] of a transposed matrix is row [j] of the matrix. *)
Lemma column_transpose (n j : nat) (X : list (list Q)) (Xj : list Q) :
  X !! j = Some Xj -> length Xj = n -> column j (transpose n X) = Xj.
Proof.
  intros HXj Hlen. unfold transpose, column.
  apply list_eq. intros r. rewrite !list_lookup_fmap.
  destruct (decide (r < n)%nat) as [Hr|Hr].
  - rewrite lookup_seq_lt by done. simpl.
    rewrite (nth_lookup_eq 0%Q _ j (nth r Xj 0%Q)).
    + destruct (lookup_lt_is_Some_2 Xj r) as [y Hy]; [lia|].
      rewrite Hy. f_equal. by apply nth_lookup_eq.
    + by rewrite list_lookup_fmap, HXj.
  - rewrite lookup_seq_ge by lia. simpl.
    symmetry. apply lookup_ge_None_2. lia.
Qed.

Lemma frontier_0 (D T : list (list Q)) :
  length D = length T -> frontier 0 D T = T.
Proof.
  intros Hlen. unfold frontier. apply list_eq. intros r.
  rewrite lookup_zip_with.
  destruct (T !! r) as [t|] eqn:Ht.
  - destruct (lookup_lt_is_Some_2 D r) as [d Hd].
    { rewrite Hlen. by eapply lookup_lt_Some. }
    rewrite Hd. simpl. by rewrite ?take_0, ?drop_0.
  - by destruct (D !! r).
Qed.

Lemma frontier_end (n c : nat) (D T : list (list Q)) :
  has_shape n c D -> has_shape n c T -> frontier c D T = D.
Proof.
  intros [HD1 HD2] [HT1 HT2]. unfold frontier. apply list_eq. intros r.
  rewrite lookup_zip_with.
  destruct (D !! r) as [d|] eqn:Hd; [|done].
  destruct (lookup_lt_is_Some_2 T r) as [t Ht].
  { rewrite HT1, <- HD1. by eapply lookup_lt_Some. }
  rewrite Ht. simpl.
  rewrite Forall_lookup in HD2. rewrite Forall_lookup in HT2.
  rewrite take_ge by (by rewrite (HD2 _ _ Hd)).
  rewrite drop_ge by (by rewrite (HT2 _ _ Ht)).
  by rewrite app_nil_r.
Qed.

(** Writing column [s] of the finished matrix moves the frontier. *)
Lemma frontier_step (n c s : nat) (D T : list (list Q)) :
  has_shape n c D -> has_shape n c T -> (s < c)%nat ->
  frontier (S s) (zip_with (fun row y => <[s := y]> row) D (column s T)) T
  = frontier s D T.
Proof.
  intros [HD1 HD2] [HT1 HT2] Hs. unfold frontier, column.
  apply list_eq. intros r. rewrite !lookup_zip_with, list_lookup_fmap.
  destruct (D !! r) as [d|] eqn:Hd; [|done].
  destruct (lookup_lt_is_Some_2 T r) as [t Ht].
  { rewrite HT1, <- HD1. by eapply lookup_lt_Some. }
  rewrite Ht. simpl. f_equal.
  rewrite Forall_lookup in HD2. rewrite Forall_lookup in HT2.
  apply take_insert_frontier; [by rewrite (HD2 _ _ Hd)|].
  destruct (lookup_lt_is_Some_2 t s) as [y Hy]; [by rewrite (HT2 _ _ Ht)|].
  rewrite Hy. f_equal. symmetry. by apply nth_lookup_eq.
Qed.

Lemma has_shape_setcol (n c s : nat) (D : list (list Q)) (v : list Q) :
  has_shape n c D -> length v = n ->
  has_shape n c (zip_with (fun row y => <[s := y]> row) D v).
Proof.
  intros [HD1 HD2] Hv. split.
  - rewrite length_zip_with. lia.
  - apply Forall_lookup. intros r row Hrow.
    apply lookup_zip_with_Some in Hrow as (d & y & -> & Hd & _).
    rewrite length_insert. rewrite Forall_lookup in HD2. by apply (HD2 r).
Qed.

(** The columns of a filtered matrix. *)
Lemma filter_cols_shape (taps : list Q) (c : Z) (n m : nat) (S : list (list Q)) :
  has_shape n m (filter_cols taps c n m S).
Proof.
  unfold filter_cols.
  pose proof (has_shape_transpose n (boundary_filter taps c <$> transpose m S)) as H.
  by rewrite length_fmap, (proj1 (has_shape_transpose m S)) in H.
Qed.

Lemma filter_cols_column (taps : list Q) (c : Z) (n m j : nat) (S : list (list Q)) :
  (j < m)%nat ->
  length (boundary_filter taps c (column j S)) = n ->
  column j (filter_cols taps c n m S) = boundary_filter taps c (column j S).
Proof.
  intros Hj Hlen. unfold filter_cols. apply column_transpose; [|done].
  unfold transpose. rewrite !list_lookup_fmap, lookup_seq_lt by done. done.
Qed.

(** One statement of the column loop: read a column, filter it, write it. *)
Lemma col_step_spec (src tgt : addr) (taps : list Q) (c : Z) (j n m : nat)
      (S T : list (list Q)) (H : heap) :
  (forall x, (2 < length x)%nat ->
             lfilterQ taps x c = Ok (boundary_filter taps c x)
             /\ length (boundary_filter taps c x) = length x) ->
  H !! src = Some (OFloatArray (NdArray n m S)) ->
  H !! tgt = Some (OFloatArray (NdArray n m T)) ->
  length S = n -> (2 < n)%nat -> (j < m)%nat ->
  bind (getcol src j) (fun col => bind (lift (lfilterQ taps col c))
                                       (fun y => setcol tgt j y)) H
  = (Ok tt, <[tgt := OFloatArray (NdArray n m
                (zip_with (fun row y => <[j := y]> row) T
                          (boundary_filter taps c (column j S))))]> H).
Proof.
  intros Hf Hsrc Htgt HS Hn Hj.
  destruct (Hf (column j S)) as [Hf1 Hf2]; [rewrite length_column; lia|].
  rewrite (bind_ok _ _ _ _ _ (getcol_float _ _ _ _ Hsrc Hj)). simpl data.
  rewrite (bind_ok _ _ H H (boundary_filter taps c (column j S)))
    by (unfold lift; by rewrite Hf1).
  rewrite (setcol_ok _ _ _ _ _ Htgt); simpl; try done.
  rewrite Hf2, length_column. done.
Qed.

Lemma bind_assoc {A B C} (m : M A) (f : A -> M B) (g : B -> M C) (h : heap) :
  bind m (fun a => bind (f a) g) h = bind (bind m f) g h.
Proof. unfold bind. destruct (m h) as [[a|e] h']; done. Qed.

Lemma col_step_k {B} (src tgt : addr) (taps : list Q) (c : Z) (j n m : nat)
      (S T : list (list Q)) (k : M B) (H : heap) :
  (forall x, (2 < length x)%nat ->
             lfilterQ taps x c = Ok (boundary_filter taps c x)
             /\ length (boundary_filter taps c x) = length x) ->
  H !! src = Some (OFloatArray (NdArray n m S)) ->
  H !! tgt = Some (OFloatArray (NdArray n m T)) ->
  length S = n -> (2 < n)%nat -> (j < m)%nat ->
  bind (getcol src j)
       (fun col => bind (lift (lfilterQ taps col c))
                        (fun y => bind (setcol tgt j y) (fun _ => k))) H
  = k (<[tgt := OFloatArray (NdArray n m
                (zip_with (fun row y => <[j := y]> row) T
                          (boundary_filter taps c (column j S))))]> H).
Proof.
  intros Hf Hsrc Htgt HS Hn Hj.
  destruct (Hf (column j S)) as [Hf1 Hf2]; [rewrite length_column; lia|].
  rewrite (bind_ok _ _ _ _ _ (getcol_float _ _ _ _ Hsrc Hj)). simpl data.
  rewrite (bind_ok _ _ H H (boundary_filter taps c (column j S)))
    by (unfold lift; by rewrite Hf1).
  erewrite bind_ok; [done|].
  rewrite (setcol_ok _ _ _ _ _ Htgt); simpl; try done.
  rewrite Hf2, length_column. done.
Qed.

Section ColLoop.
Variables (h : heap) (n m : nat) (LPd HPd : list (list Q)) (o4 : pyobj)
          (rest : heap).
Hypothesis Htall : (2 < n)%nat.
Hypothesis HLP : has_shape n m LPd.
Hypothesis HHP : has_shape n m HPd.

Lemma col_body_spec (s : nat) (A B C D : list (list Q)) :
  (s < m)%nat ->
  let w taps c S T :=
    zip_with (fun row y => <[s := y]> row) T (boundary_filter taps c (column s S)) in
  col_body (length h + 5) (length h + 6) (length h + 0) (length h + 1)
           (length h + 2) (length h + 3) s (col_heap h n m LPd HPd o4 rest A B C D)
  = (Ok tt, col_heap h n m LPd HPd o4 rest (w LPF LPF_center LPd A) (w HPF HPF_center LPd B)
                     (w LPF LPF_center HPd C) (w HPF HPF_center HPd D)).
Proof using Htall HLP HHP.
  intros Hs w. unfold col_body, col_heap.
  rewrite (col_step_k (length h + 5) (length h + 0) LPF LPF_center s n m LPd A);
    [| apply lfilter_LPF | by rewrite lookup_app_plus | by rewrite lookup_app_plus
     | apply HLP | done | done].
  rewrite insert_app_r. cbn [insert list_insert].
  rewrite (col_step_k (length h + 5) (length h + 1) HPF HPF_center s n m LPd B);
    [| apply lfilter_HPF | by rewrite lookup_app_plus | by rewrite lookup_app_plus
     | apply HLP | done | done].
  rewrite insert_app_r. cbn [insert list_insert].
  rewrite (col_step_k (length h + 6) (length h + 2) LPF LPF_center s n m HPd C);
    [| apply lfilter_LPF | by rewrite lookup_app_plus | by rewrite lookup_app_plus
     | apply HHP | done | done].
  rewrite insert_app_r. cbn [insert list_insert].
  rewrite (col_step_spec (length h + 6) (length h + 3) HPF HPF_center s n m HPd D);
    [| apply lfilter_HPF | by rewrite lookup_app_plus | by rewrite lookup_app_plus
     | apply HHP | done | done].
  rewrite insert_app_r. cbn [insert list_insert].
  done.
Qed.

Lemma col_loop_spec (k : nat) :
  forall (s : nat) (A B C D : list (list Q)),
    (s + k = m)%nat ->
    has_shape n m A -> has_shape n m B -> has_shape n m C -> has_shape n m D ->
    for_each (seq s k)
             (col_body (length h + 5) (length h + 6) (length h + 0) (length h + 1)
                       (length h + 2) (length h + 3))
             (col_heap h n m LPd HPd o4 rest A B C D)
    = (Ok tt,
       col_heap h n m LPd HPd o4 rest (frontier s A (filter_cols LPF LPF_center n m LPd))
                (frontier s B (filter_cols HPF HPF_center n m LPd))
                (frontier s C (filter_cols LPF LPF_center n m HPd))
                (frontier s D (filter_cols HPF HPF_center n m HPd))).
Proof using Htall HLP HHP.
  induction k as [|k IH]; intros s A B C D Hsk HA HB HC HD.
  - simpl seq. rewrite for_each_nil.
    replace s with m by lia.
    by rewrite !(frontier_end n m) by (done || apply filter_cols_shape).
  - simpl seq. rewrite for_each_cons.
    assert (Hs : (s < m)%nat) by lia.
    rewrite (bind_ok _ _ _ _ _ (col_body_spec s A B C D Hs)).
    assert (Hcol : forall taps c S,
               (forall x, (2 < length x)%nat ->
                          lfilterQ taps x c = Ok (boundary_filter taps c x)
                          /\ length (boundary_filter taps c x) = length x) ->
               has_shape n m S ->
               boundary_filter taps c (column s S)
               = column s (filter_cols taps c n m S)
               /\ length (boundary_filter taps c (column s S)) = n).
    { intros taps c S Hf [HS _].
      destruct (Hf (column s S)) as [_ Hl]; [rewrite length_column; lia|].
      rewrite length_column, HS in Hl.
      split; [|done]. symmetry. by apply filter_cols_column. }
    destruct (Hcol LPF LPF_center LPd lfilter_LPF HLP) as [E1 L1].
    destruct (Hcol HPF HPF_center LPd lfilter_HPF HLP) as [E2 L2].
    destruct (Hcol LPF LPF_center HPd lfilter_LPF HHP) as [E3 L3].
    destruct (Hcol HPF HPF_center HPd lfilter_HPF HHP) as [E4 L4].
    rewrite IH; [| lia | by apply has_shape_setcol ..].
    rewrite E1, E2, E3, E4.
    by rewrite !(frontier_step n m) by (done || apply filter_cols_shape).
Qed.

End ColLoop.

(** *** Straight-line steps on a heap [h ++ L] *)

Lemma alloc_app (h L : heap) (o : pyobj) :
  alloc o (h ++ L) = (Ok (length h + length L)%nat, h ++ (L ++ [o])).
Proof. unfold alloc. by rewrite length_app, <- app_assoc. Qed.

Lemma list_getitem_app (h L : heap) (k : nat) (i : Z) (items : list addr)
      (j : nat) (x : addr) :
  L !! k = Some (OList items) ->
  Py.index (length items) i = Ok j ->
  items !! j = Some x ->
  list_getitem (length h + k) i (h ++ L) = (Ok x, h ++ L).
Proof.
  intros HL Hi Hx. unfold list_getitem. by rewrite lookup_app_plus, HL, Hi, Hx.
Qed.

Lemma list_setitem_app (h L : heap) (k : nat) (i : Z) (items : list addr)
      (j : nat) (x : addr) :
  L !! k = Some (OList items) ->
  Py.index (length items) i = Ok j ->
  list_setitem (length h + k) i x (h ++ L)
  = (Ok tt, h ++ <[k := OList (<[j := x]> items)]> L).
Proof.
  intros HL Hi. unfold list_setitem.
  by rewrite lookup_app_plus, HL, Hi, insert_app_r.
Qed.

Lemma view_cols2_app (h L : heap) (k : nat) (X : ndarray Q) :
  L !! k = Some (OFloatArray X) ->
  view_cols2 (length h + k) (h ++ L)
  = (Ok (length h + length L)%nat, h ++ (L ++ [OView (length h + k) 1 2])).
Proof.
  intros HL. unfold view_cols2. rewrite lookup_app_plus, HL. apply alloc_app.
Qed.

Lemma view_rows2_app (h L : heap) (k : nat) (base rstep cstep : nat) :
  L !! k = Some (OView base rstep cstep) ->
  view_rows2 (length h + k) (h ++ L)
  = (Ok (length h + length L)%nat, h ++ (L ++ [OView base (2 * rstep) cstep])).
Proof.
  intros HL. unfold view_rows2. rewrite lookup_app_plus, HL. apply alloc_app.
Qed.

Lemma round_div_app (h L : heap) (k b rstep cstep : nat) (X : ndarray Q) (d : Z) :
  L !! k = Some (OView (length h + b) rstep cstep) ->
  L !! b = Some (OFloatArray X) ->
  d <> 0 ->
  round_div (length h + k) d (h ++ L)
  = (Ok (length h + length L)%nat,
     h ++ (L ++ [OIntArray
                   (NdArray (strided_len (nrows X) rstep) (strided_len (ncols X) cstep)
                            (quantize_all d
                               (strided rstep
                                  ((fun row : list Q => strided cstep row) <$> data X))))])).
Proof.
  intros Hk Hb Hd. unfold round_div.
  erewrite bind_ok; last first.
  { unfold array_of, resolve. rewrite lookup_app_plus, Hk, lookup_app_plus, Hb.
    simpl. reflexivity. }
  replace (d =? 0) with false by (symmetry; by apply Z.eqb_neq).
  rewrite alloc_app. done.
Qed.

Lemma divisor_ok (q : list Z) (i : nat) (d : Z) (H : heap) :
  q !! i = Some d -> divisor q i H = (Ok d, H).
Proof. intros Hq. unfold divisor. by rewrite Hq. Qed.

Ltac heap_norm :=
  cbn [length app insert list_insert Nat.mul Nat.add Z.of_nat].

Ltac heap_step lem :=
  erewrite bind_ok; last (eapply lem; first [reflexivity | done]); heap_norm.

Section Phases.
Variables (h : heap) (n m : nat) (A B C D LPd HPd : list (list Q)).
Variables (d0 d1 d2 d3 : Z).
Hypothesis Hd : d0 <> 0 /\ d1 <> 0 /\ d2 <> 0 /\ d3 <> 0.

(** The first loop over the list: its items become views of the four
    buffers. *)
Lemma views_phase :
  for_range 4 (fun i =>
    x <- list_getitem (length h + 4) (Z.of_nat i) ;;
    v <- view_cols2 x ;;
    list_setitem (length h + 4) (Z.of_nat i) v)
    (h ++ [fa n m A; fa n m B; fa n m C; fa n m D;
           OList [length h + 0; length h + 1; length h + 2; length h + 3]%nat;
           fa n m LPd; fa n m HPd])
  = (Ok tt,
     h ++ [fa n m A; fa n m B; fa n m C; fa n m D;
           OList [length h + 7; length h + 8; length h + 9; length h + 10]%nat;
           fa n m LPd; fa n m HPd;
           OView (length h + 0) 1 2; OView (length h + 1) 1 2;
           OView (length h + 2) 1 2; OView (length h + 3) 1 2]).
Proof.
  unfold for_range. simpl seq. rewrite !for_each_cons', for_each_nil'.
  do 4 (erewrite bind_ok; last first;
        [ heap_step list_getitem_app;
          heap_step view_cols2_app;
          eapply list_setitem_app; reflexivity
        | heap_norm ]).
  done.
Qed.

(** The second loop over the list: each view is narrowed to the even rows,
    read through to its buffer, divided, rounded and replaced by the new
    integer array. *)
Lemma quantize_phase :
  for_range 4 (fun i =>
    x <- list_getitem (length h + 4) (Z.of_nat i) ;;
    v <- view_rows2 x ;;
    list_setitem (length h + 4) (Z.of_nat i) v ;;;
    x <- list_getitem (length h + 4) (Z.of_nat i) ;;
    d <- divisor [d0; d1; d2; d3] i ;;
    r <- round_div x d ;;
    list_setitem (length h + 4) (Z.of_nat i) r)
    (h ++ [fa n m A; fa n m B; fa n m C; fa n m D;
           OList [length h + 7; length h + 8; length h + 9; length h + 10]%nat;
           fa n m LPd; fa n m HPd;
           OView (length h + 0) 1 2; OView (length h + 1) 1 2;
           OView (length h + 2) 1 2; OView (length h + 3) 1 2])
  = (Ok tt,
     h ++ [fa n m A; fa n m B; fa n m C; fa n m D;
           OList [length h + 12; length h + 14; length h + 16; length h + 18]%nat;
           fa n m LPd; fa n m HPd;
           OView (length h + 0) 1 2; OView (length h + 1) 1 2;
           OView (length h + 2) 1 2; OView (length h + 3) 1 2;
           OView (length h + 0) 2 2; quantized n m d0 A;
           OView (length h + 1) 2 2; quantized n m d1 B;
           OView (length h + 2) 2 2; quantized n m d2 C;
           OView (length h + 3) 2 2; quantized n m d3 D]).
Proof using Hd.
  destruct Hd as (Hd0 & Hd1 & Hd2 & Hd3).
  unfold for_range. simpl seq. rewrite !for_each_cons', for_each_nil'.
  do 4 (erewrite bind_ok; last first;
        [ heap_step list_getitem_app;
          heap_step view_rows2_app;
          heap_step list_setitem_app;
          heap_step list_getitem_app;
          heap_step divisor_ok;
          heap_step round_div_app;
          eapply list_setitem_app; reflexivity
        | heap_norm ]).
  done.
Qed.

End Phases.

(** *** The whole of dwt *)

Section DwtRun.
Variables (h : heap) (a : addr) (image : ndarray Z) (d0 d1 d2 d3 : Z).
Hypothesis Himage : h !! a = Some (OIntArray image).
Hypothesis Hwf : wf_array image.
Hypothesis Hrows : (2 < nrows image)%nat.
Hypothesis Hcols : (2 < ncols image)%nat.
Hypothesis Hd : d0 <> 0 /\ d1 <> 0 /\ d2 <> 0 /\ d3 <> 0.

Let n := nrows image.
Let m := ncols image.
Let LPd := filter_rows LPF LPF_center (pixels (data image)).
Let HPd := filter_rows HPF HPF_center (pixels (data image)).

Lemma filter_rows_shape (taps : list Q) (c : Z) :
  (forall x, (2 < length x)%nat ->
             lfilterQ taps x c = Ok (boundary_filter taps c x)
             /\ length (boundary_filter taps c x) = length x) ->
  has_shape n m (filter_rows taps c (pixels (data image))).
Proof using Hwf Hcols Hrows.
  intros Hf. destruct Hwf as [H1 H2]. unfold filter_rows, pixels. split.
  - by rewrite !length_fmap.
  - apply Forall_fmap, Forall_fmap. eapply Forall_impl; [exact H2|].
    intros row Hrow. simpl in Hrow |- *.
    destruct (Hf (inject_Z <$> row)) as [_ Hl]; [rewrite length_fmap; lia|].
    by rewrite Hl, length_fmap.
Qed.

Lemma dwt_run_app :
  dwt a [d0; d1; d2; d3] (h ++ []) = (Ok (length h + 4)%nat, dwt_final_heap h image d0 d1 d2 d3).
Proof using Himage Hwf Hrows Hcols Hd.
  assert (Ha : (a < length h)%nat) by (by eapply lookup_lt_Some).
  unfold dwt.
  erewrite bind_ok;
    last (apply array_of_int; rewrite lookup_app_l by done; exact Himage).
  cbn [nrows ncols]. fold n m.
  do 7 (heap_step alloc_app).
  (* rows *)
  erewrite bind_ok; last first.
  { unfold for_range.
    assert (Hdist : a <> (length h + 5)%nat /\ a <> (length h + 6)%nat
                    /\ (length h + 5)%nat <> (length h + 6)%nat) by lia.
    apply (row_loop_spec a (length h + 5) (length h + 6) image Hwf Hcols
             Hdist n 0 _ (replicate n (replicate m 0%Q))
             (replicate n (replicate m 0%Q)));
      [ done | by rewrite lookup_app_l | by rewrite lookup_app_plus
      | by rewrite lookup_app_plus | by rewrite length_replicate
      | by rewrite length_replicate ]. }
  rewrite !insert_app_r. heap_norm. cbn [take drop app].
  fold LPd HPd.
  (* views *)
  erewrite bind_ok; last apply views_phase.
  (* columns *)
  erewrite bind_ok; last first.
  { unfold for_range.
    apply (col_loop_spec h n m LPd HPd _
             [OView (length h + 0) 1 2; OView (length h + 1) 1 2;
              OView (length h + 2) 1 2; OView (length h + 3) 1 2]
             Hrows (filter_rows_shape _ _ lfilter_LPF)
             (filter_rows_shape _ _ lfilter_HPF) m 0);
      [done | split; [by rewrite length_replicate
                     | apply Forall_replicate; by rewrite length_replicate] ..]. }
  unfold col_heap, fa.
  rewrite !frontier_0
    by (rewrite length_replicate; symmetry; apply filter_cols_shape).
  (* quantization *)
  erewrite bind_ok; last (by apply quantize_phase).
  done.
Qed.

End DwtRun.

(** *** Even-indexed elements *)













(** The reference on the sample image, evaluated. *)
Example dwt_reference_sample :
  dwt_reference sample_image 1 1 1 1
  = [ NdArray 2 2 [[1; 3]; [10; 12]]; NdArray 2 2 [[0; 0]; [4; 4]];
      NdArray 2 2 [[0; 1]; [0; 1]]; NdArray 2 2 [[0; 0]; [0; 0]] ].
Proof. vm_compute. reflexivity. Qed.

(** ** What dwt and dwt_levels leave of the heap *)

Section Frames.
Variable K : option pyobj -> option pyobj -> Prop.
Hypothesis K_refl : forall o, K o o.
Hypothesis K_trans : forall o1 o2 o3, K o1 o2 -> K o2 o3 -> K o1 o3.
Variable n : nat.

Lemma kept_refl (h : heap) : (n <= length h)%nat -> kept K n h h.
Proof using K_refl. intros Hn. split; [done|]. intros a _. apply K_refl. Qed.

Lemma kept_trans (h1 h2 h3 : heap) :
  kept K n h1 h2 -> kept K n h2 h3 -> kept K n h1 h3.
Proof using K_trans.
  intros [_ H12] [Hn H23]. split; [done|].
  intros a Ha. eapply K_trans; [by apply H12 | by apply H23].
Qed.

Lemma kept_app (h : heap) (o : pyobj) :
  (n <= length h)%nat -> kept K n h (h ++ [o]).
Proof using K_refl.
  intros Hn. split; [rewrite length_app; lia|].
  intros a Ha. rewrite lookup_app_l by lia. apply K_refl.
Qed.

Lemma kept_insert_fresh (h : heap) (a : addr) (o : pyobj) :
  (n <= length h)%nat -> (n <= a)%nat -> kept K n h (<[a := o]> h).
Proof using K_refl.
  intros Hn Ha. split; [by rewrite length_insert|].
  intros b Hb. rewrite list_lookup_insert_ne by lia. apply K_refl.
Qed.

Lemma frames_ret {A} (Q : A -> Prop) (a : A) : Q a -> frames K n Q (ret a).
Proof using K_refl.
  intros HQ h Hn. split; [by apply kept_refl|]. intros v [= <-]. done.
Qed.

Lemma frames_raise {A} (Q : A -> Prop) (e : exn) : frames K n Q (raise e).
Proof using K_refl. intros h Hn. split; [by apply kept_refl|]. done. Qed.

Lemma frames_lift {A} (r : result A) : frames K n (fun _ => True) (lift r).
Proof using K_refl. intros h Hn. split; [by apply kept_refl|]. done. Qed.

Lemma frames_weaken {A} (Q Q' : A -> Prop) (m : M A) :
  frames K n Q m -> (forall v, Q v -> Q' v) -> frames K n Q' m.
Proof.
  intros Hm HQ h Hn. destruct (Hm h Hn) as [H1 H2]. split; [done|].
  intros v Hv. by apply HQ, H2.
Qed.

Lemma frames_bind {A B} (Q : A -> Prop) (Q' : B -> Prop) (m : M A) (k : A -> M B) :
  frames K n Q m -> (forall a, Q a -> frames K n Q' (k a)) ->
  frames K n Q' (bind m k).
Proof using K_trans.
  intros Hm Hk h Hn. destruct (Hm h Hn) as [H1 H2]. unfold bind.
  destruct (m h) as [[a|e] h1]; simpl in *; [|done].
  destruct (Hk a (H2 a eq_refl) h1 (proj1 H1)) as [H3 H4].
  split; [by eapply kept_trans|done].
Qed.

(** An operation that does not change the heap. *)
Lemma frames_reader {A} (m : M A) :
  (forall h, (m h).2 = h) -> frames K n (fun _ => True) m.
Proof using K_refl.
  intros Hm h Hn. rewrite Hm. split; [by apply kept_refl|done].
Qed.

Lemma frames_alloc (o : pyobj) : frames K n (fun a => (n <= a)%nat) (alloc o).
Proof using K_refl.
  intros h Hn. split; [by apply kept_app|]. intros v [= <-]. done.
Qed.

Lemma frames_array_of (a : addr) : frames K n (fun _ => True) (array_of a).
Proof using K_refl.
  apply frames_reader. intros h. unfold array_of. by destruct (resolve h a).
Qed.

Lemma frames_getrow (a : addr) (i : nat) : frames K n (fun _ => True) (getrow a i).
Proof using K_refl.
  apply frames_reader. intros h. unfold getrow, bind, array_of.
  destruct (resolve h a) as [x|]; [|done]. by destruct (data x !! i).
Qed.

Lemma frames_getcol (a : addr) (j : nat) : frames K n (fun _ => True) (getcol a j).
Proof using K_refl.
  apply frames_reader. intros h. unfold getcol, bind, array_of.
  destruct (resolve h a) as [x|]; [|done]. by destruct (j <? ncols x)%nat.
Qed.

Lemma frames_list_getitem (l : addr) (i : Z) :
  frames K n (fun _ => True) (list_getitem l i).
Proof using K_refl.
  apply frames_reader. intros h. unfold list_getitem.
  destruct (h !! l) as [[| | |items]|]; try done.
  destruct (Py.index (length items) i) as [k|]; [|done].
  by destruct (items !! k).
Qed.

Lemma frames_divisor (q : list Z) (i : nat) :
  frames K n (fun _ => True) (divisor q i).
Proof using K_refl.
  apply frames_reader. intros h. unfold divisor. by destruct (q !! i).
Qed.

Lemma frames_setrow (a : addr) (i : nat) (v : list Q) :
  (n <= a)%nat -> frames K n (fun _ => True) (setrow a i v).
Proof using K_refl.
  intros Ha h Hn. split; [|done]. unfold setrow.
  destruct (h !! a) as [[x| | |]|]; try by apply kept_refl.
  destruct (i <? nrows x)%nat; [|by apply kept_refl].
  destruct (broadcast_to (ncols x) v); [|by apply kept_refl].
  by apply kept_insert_fresh.
Qed.

Lemma frames_setcol (a : addr) (j : nat) (v : list Q) :
  (n <= a)%nat -> frames K n (fun _ => True) (setcol a j v).
Proof using K_refl.
  intros Ha h Hn. split; [|done]. unfold setcol.
  destruct (h !! a) as [[x| | |]|]; try by apply kept_refl.
  destruct (j <? ncols x)%nat; [|by apply kept_refl].
  destruct (broadcast_to (nrows x) v); [|by apply kept_refl].
  by apply kept_insert_fresh.
Qed.

Lemma frames_list_setitem_fresh (l : addr) (i : Z) (x : addr) :
  (n <= l)%nat -> frames K n (fun _ => True) (list_setitem l i x).
Proof using K_refl.
  intros Hl h Hn. split; [|done]. unfold list_setitem.
  destruct (h !! l) as [[| | |items]|]; try by apply kept_refl.
  destruct (Py.index (length items) i); [|by apply kept_refl].
  by apply kept_insert_fresh.
Qed.

Lemma frames_view_cols2 (a : addr) :
  frames K n (fun v => (n <= v)%nat) (view_cols2 a).
Proof using K_refl.
  intros h Hn. unfold view_cols2.
  destruct (h !! a) as [[| | |]|]; try (by apply frames_alloc);
    (split; [by apply kept_refl|done]).
Qed.

Lemma frames_view_rows2 (a : addr) :
  frames K n (fun v => (n <= v)%nat) (view_rows2 a).
Proof using K_refl.
  intros h Hn. unfold view_rows2.
  destruct (h !! a) as [[| | |]|]; try (by apply frames_alloc);
    (split; [by apply kept_refl|done]).
Qed.

Lemma frames_round_div (a : addr) (d : Z) :
  frames K n (fun v => (n <= v)%nat) (round_div a d).
Proof using K_refl K_trans.
  unfold round_div. eapply frames_bind; [apply frames_array_of|].
  intros x _. destruct (d =? 0); [apply frames_raise | apply frames_alloc].
Qed.

Lemma frames_for_each {A} (l : list A) (body : A -> M unit) :
  Forall (fun x => frames K n (fun _ => True) (body x)) l ->
  frames K n (fun _ => True) (for_each l body).
Proof using K_refl K_trans.
  induction 1 as [|x l Hx _ IH].
  - by apply frames_ret.
  - rewrite for_each_cons'. eapply frames_bind; [exact Hx|]. intros _ _. exact IH.
Qed.

Lemma frames_for_range (k : nat) (body : nat -> M unit) :
  (forall i, frames K n (fun _ => True) (body i)) ->
  frames K n (fun _ => True) (for_range k body).
Proof using K_refl K_trans.
  intros Hb. apply frames_for_each, Forall_forall. intros i _. apply Hb.
Qed.


End Frames.

Ltac frames_prim :=
  first [ apply frames_alloc | apply frames_array_of | apply frames_getrow
        | apply frames_getcol | apply frames_list_getitem | apply frames_divisor
        | apply frames_lift | apply frames_view_cols2 | apply frames_view_rows2
        | apply frames_round_div
        | apply frames_setrow; assumption
        | apply frames_setcol; assumption
        | apply frames_list_setitem_fresh; assumption
        | apply frames_raise
        | apply frames_ret; first [assumption | exact I] ];
  try assumption.

Ltac frames_go :=
  repeat first
    [ frames_prim
    | apply frames_for_range; [assumption | assumption | intros ?]
    | eapply frames_bind; [assumption | frames_prim | intros ? ?] ].

(** dwt changes no object of the heap it is given: it only adds objects, and
    the list it returns is one of them. *)
Lemma dwt_frames (K : option pyobj -> option pyobj -> Prop) (n : nat)
      (a : addr) (q : list Z) :
  (forall o, K o o) -> (forall o1 o2 o3, K o1 o2 -> K o2 o3 -> K o1 o3) ->
  frames K n (fun l => (n <= l)%nat) (dwt a q).
Proof.
  intros K_refl K_trans. unfold dwt.
  eapply frames_bind; [assumption | frames_prim | intros shape _].
  eapply frames_bind; [assumption | frames_prim | intros LL HLL].
  eapply frames_bind; [assumption | frames_prim | intros LH HLH].
  eapply frames_bind; [assumption | frames_prim | intros HL HHL].
  eapply frames_bind; [assumption | frames_prim | intros HH HHH].
  eapply frames_bind; [assumption | frames_prim | intros fi Hfi].
  eapply frames_bind; [assumption | frames_prim | intros lp Hlp].
  eapply frames_bind; [assumption | frames_prim | intros hp Hhp].
  eapply frames_bind; [assumption | | intros _ _].
  { apply frames_for_range; [assumption | assumption | intros i]. frames_go. }
  eapply frames_bind; [assumption | | intros _ _].
  { apply frames_for_range; [assumption | assumption | intros i]. frames_go. }
  eapply frames_bind; [assumption | | intros _ _].
  { apply frames_for_range; [assumption | assumption | intros i]. frames_go. }
  eapply frames_bind; [assumption | | intros _ _].
  { apply frames_for_range; [assumption | assumption | intros i]. frames_go. }
  by apply frames_ret.
Qed.




(** Induction over a decomposition specification. *)
Lemma level_ind (P : level -> Prop) :
  (forall index sub,
      match sub with None => True | Some levels => Forall P levels end ->
      P (Level index sub)) ->
  forall entry, P entry.
Proof.
  intros Hlevel. fix IH 1. intros [index [levels|]].
  - apply Hlevel. induction levels as [|x r IHr].
    + apply Forall_nil_2.
    + apply Forall_cons_2; [apply IH | exact IHr].
  - by apply Hlevel.
Qed.







(** ** The recursion bound *)

(** C6 (counterexample).  A specification of nesting depth 5 is not
    rejected: on four 64 x 64 subbands dwt_levels returns normally, having
    decomposed at every level, and the given list holds the new list of the
    first decomposition. *)
Lemma dwt_levels_accepts_depth_five :
  depth chain5 = 5%nat
  /\ fst (dwt_levels 4%nat chain5 [1; 1; 1; 1] (zero_subbands 64)) = Ok tt
  /\ snd (dwt_levels 4%nat chain5 [1; 1; 1; 1] (zero_subbands 64)) !! 4%nat
     = Some (OList [9; 1; 2; 3]%nat)
  /\ length (snd (dwt_levels 4%nat chain5 [1; 1; 1; 1] (zero_subbands 64)))
     = 100%nat.
Proof. vm_compute. auto. Qed.

(** C6 (amended).  dwt_levels rejects a specification collection of more
    than four entries: it fails with AssertionError before any decomposition,
    leaving the heap as it was.  (The nesting depth is not examined.) *)
Theorem dwt_levels_rejects_more_than_four
  (fi : addr) (levels : list level) (q : list Z) (h : heap) :
  (4 < length levels)%nat ->
  dwt_levels fi levels q h = (Raise AssertionError, h).
Proof.
  intros Hlen. unfold dwt_levels.
  by replace (4 <? length levels)%nat with true by (symmetry; by apply Nat.ltb_lt).
Qed.

Lemma dwt_levels_rejects_more_than_four_witness :
  dwt_levels 4%nat
             [Level 0 None; Level 1 None; Level 2 None; Level 3 None; Level 0 None]
             [1; 1; 1; 1] (zero_subbands 4)
  = (Raise AssertionError, zero_subbands 4).
Proof.
  apply dwt_levels_rejects_more_than_four. simpl. lia.
Defined.
(* ================================================================== *)
(** * Part II, continued: further properties of the code                *)
(* ================================================================== *)

(** ** Run-length decoding, in general *)

Lemma paired_app (p s : list Z) :
  paired p = true -> paired (p ++ s) = paired s.
Proof.
  induction p as [p IH] using (induction_ltof1 _ length). unfold ltof in IH.
  intros Hp. destruct p as [|x r]; [done|]. simpl in *.
  destruct (x =? 0).
  - destruct r as [|n r']; [done|]. simpl. apply IH; [simpl; lia | done].
  - apply IH; [simpl; lia | done].
Qed.

Lemma expand_app (p s : list Z) :
  paired p = true -> expand (p ++ s) = expand p ++ expand s.
Proof.
  induction p as [p IH] using (induction_ltof1 _ length). unfold ltof in IH.
  intros Hp. destruct p as [|x r]; [done|]. simpl in *.
  destruct (x =? 0).
  - destruct r as [|n r']; [done|]. simpl.
    rewrite IH by (simpl; lia || done). by rewrite app_assoc.
  - rewrite IH by (simpl; lia || done). done.
Qed.

(** A scan that does not end well ends on a marker: the stream is a
    well-paired part followed by one [0]. *)
Lemma unpaired_split (s : list Z) :
  paired s = false -> exists p, s = p ++ [0] /\ paired p = true.
Proof.
  induction s as [s IH] using (induction_ltof1 _ length). unfold ltof in IH.
  intros Hs. destruct s as [|x r]; [done|]. simpl in Hs.
  destruct (x =? 0) eqn:Hx.
  - apply Z.eqb_eq in Hx as ->.
    destruct r as [|n r'].
    + by exists [].
    + destruct (IH r') as (p & -> & Hp); [simpl; lia | done |].
      exists (0 :: n :: p). split; [done|]. done.
  - destruct (IH r) as (p & -> & Hp); [simpl; lia | done |].
    exists (x :: p). split; [done|]. simpl. by rewrite Hx.
Qed.

Lemma rld_paired (s : list Z) :
  paired s = true -> run_length_decode s = Some (Ok (expand s)).
Proof.
  intros Hp. unfold run_length_decode.
  destruct (rld_loop_scan (length s) s [] [] [] (length s))
    as (fuel' & _ & Heq); [lia | done | lia |].
  rewrite app_nil_r in Heq. simpl in Heq. rewrite Heq.
  by apply rld_loop_end.
Qed.

Lemma rld_unpaired (s : list Z) :
  paired s = false -> run_length_decode s = Some (Raise IndexError).
Proof.
  intros Hs. destruct (unpaired_split s Hs) as (p & -> & Hp).
  unfold run_length_decode.
  destruct (rld_loop_scan (length p) p [] [0] [] (length (p ++ [0])))
    as (fuel' & Hfuel' & Heq); [lia | done | rewrite length_app; lia |].
  simpl in Heq. rewrite Heq.
  rewrite length_app in Hfuel'. simpl in Hfuel'.
  destruct fuel' as [|fuel']; [lia|].
  rewrite (rld_loop_step _ _ _ _ 0) by (by apply list_lookup_middle).
  simpl. rewrite lookup_ge_None_2; [done|]. rewrite length_app. simpl. lia.
Qed.

(** X1.  run_length_decode always terminates, and it fails exactly when the
    left-to-right scan ends on a 0 that has no following token; it then
    raises IndexError.  Otherwise it returns the expansion, in which a
    marker whose following token n is below -1 contributes no value at
    all. *)
Theorem run_length_decode_characterised (rlcoded : list Z) :
  run_length_decode rlcoded
  = Some (if paired rlcoded then Ok (expand rlcoded) else Raise IndexError).
Proof.
  destruct (paired rlcoded) eqn:Hp.
  - by apply rld_paired.
  - by apply rld_unpaired.
Qed.

(** X2.  Decoding composes over concatenation at a pair boundary: if the
    first part is complete (every marker has its token), the decoding of the
    whole is the expansion of the first part followed by the decoding of the
    rest, and fails when the rest fails. *)
Theorem run_length_decode_app (first rest : list Z) :
  paired first = true ->
  run_length_decode (first ++ rest)
  = match run_length_decode rest with
    | Some (Ok out) => Some (Ok (expand first ++ out))
    | r => r
    end.
Proof.
  intros Hp. destruct (paired rest) eqn:Hr.
  - rewrite (rld_paired rest Hr).
    rewrite rld_paired by (by rewrite paired_app).
    by rewrite expand_app.
  - rewrite (rld_unpaired rest Hr).
    by rewrite rld_unpaired by (by rewrite paired_app).
Qed.

Lemma run_length_decode_app_witness :
  run_length_decode ([7; 0; 1] ++ [0; 0; 3]) = Some (Ok ([7; 0; 0] ++ [0; 3])).
Proof. exact (run_length_decode_app [7; 0; 1] [0; 0; 3] eq_refl). Defined.

Lemma expand_zero_free (s : list Z) : Forall (fun x => x <> 0) s -> expand s = s.
Proof.
  induction 1 as [|x r Hx _ IH]; [done|]. simpl.
  replace (x =? 0) with false by (symmetry; by apply Z.eqb_neq).
  by rewrite IH.
Qed.

Lemma paired_zero_free (s : list Z) : Forall (fun x => x <> 0) s -> paired s = true.
Proof.
  induction 1 as [|x r Hx _ IH]; [done|]. simpl.
  by replace (x =? 0) with false by (symmetry; by apply Z.eqb_neq).
Qed.

(** X3.  A stream without any 0 token is returned as it is. *)
Theorem run_length_decode_zero_free (rlcoded : list Z) :
  Forall (fun x => x <> 0) rlcoded ->
  run_length_decode rlcoded = Some (Ok rlcoded).
Proof.
  intros Hz. rewrite rld_paired by (by apply paired_zero_free).
  by rewrite expand_zero_free.
Qed.

Lemma run_length_decode_zero_free_witness :
  run_length_decode [3; -1; 12] = Some (Ok [3; -1; 12]).
Proof.
  apply run_length_decode_zero_free. repeat constructor; lia.
Defined.

(** ** When the filter fails *)

Lemma convolve_valid_empty_r {R : Type} (rzero : R) (radd rmul : R -> R -> R)
      (a : list R) :
  convolve_valid rzero radd rmul a [] = Raise ValueError.
Proof. unfold convolve_valid. simpl. by destruct (length a =? 0)%nat. Qed.

Lemma convolve_valid_empty_l {R : Type} (rzero : R) (radd rmul : R -> R -> R)
      (v : list R) :
  convolve_valid rzero radd rmul [] v = Raise ValueError.
Proof.
  unfold convolve_valid. destruct v as [|x v]; [done|]. simpl. done.
Qed.

(** X4.  lfilter raises an exception exactly when the sequence or the kernel
    is empty, and the exception is numpy's ValueError; on every other input,
    whatever the centre offset, it returns a non-empty sequence. *)
Theorem lfilter_fails_iff_empty
  {R : Type} (rzero : R) (radd rmul : R -> R -> R)
  (taps array : list R) (c : Z) :
  (taps = [] \/ array = [] ->
   lfilter rzero radd rmul taps array c = Raise ValueError)
  /\ (taps <> [] -> array <> [] ->
      exists out, lfilter rzero radd rmul taps array c = Ok out /\ out <> []).
Proof.
  split.
  - intros [-> | ->]; unfold lfilter.
    + apply convolve_valid_empty_r.
    + rewrite !slice_nil. apply convolve_valid_empty_l.
  - apply lfilter_nonempty_ok.
Qed.

Lemma lfilter_fails_iff_empty_witness :
  lfilterQ LPF [] 2 = Raise ValueError
  /\ exists out, lfilterQ HPF [1; 2]%Q (-7) = Ok out /\ out <> [].
Proof.
  split.
  - apply (lfilter_fails_iff_empty 0%Q Qplus Qmult LPF [] 2). by right.
  - apply (lfilter_fails_iff_empty 0%Q Qplus Qmult HPF [1; 2]%Q (-7)); discriminate.
Defined.

(** ** Deserialization: the length of the stream *)

Section DeserializeStream.
Variable gen : nat -> nat -> list (nat * nat).
Variables n_rows n_cols : nat.

Lemma fill_block_next (serialized : list Z) (indices : list (nat * nat)) :
  forall matrix matrix' step step',
    fill_block serialized n_rows n_cols indices matrix step = Ok (matrix', step') ->
    step' = (step + length indices)%nat.
Proof.
  induction indices as [|[i j] rest IH]; intros matrix matrix' step step' Hrun.
  - simpl in Hrun. injection Hrun as _ <-. simpl. lia.
  - simpl in Hrun.
    destruct (serialized !! step); [|done].
    destruct (setitem16 n_rows n_cols matrix i j z) as [m1|]; [|done].
    apply IH in Hrun. simpl. lia.
Qed.

Lemma fill_block_runs (serialized : list Z) (indices : list (nat * nat)) :
  forall matrix step,
    Forall (in_block n_rows n_cols) indices ->
    (step + length indices <= length serialized)%nat ->
    exists matrix',
      fill_block serialized n_rows n_cols indices matrix step
      = Ok (matrix', (step + length indices)%nat).
Proof.
  induction indices as [|[i j] rest IH]; intros matrix step Hin Hlen.
  - exists matrix. simpl. by rewrite Nat.add_0_r.
  - simpl in Hlen. simpl.
    destruct (lookup_lt_is_Some_2 serialized step) as [v Hv]; [lia|].
    rewrite Hv. unfold setitem16.
    apply Forall_cons in Hin as [[Hi Hj] Hin]. simpl in Hi, Hj.
    replace (i <? n_rows)%nat with true by (symmetry; by apply Nat.ltb_lt).
    replace (j <? n_cols)%nat with true by (symmetry; by apply Nat.ltb_lt).
    simpl.
    destruct (IH (alter (fun row => <[j := int16 v]> row) i matrix) (S step))
      as (m' & Hm'); [done | lia |].
    exists m'. rewrite Hm'. do 2 f_equal. lia.
Qed.

Lemma fill_block_short (serialized : list Z) (indices : list (nat * nat)) :
  forall matrix step,
    Forall (in_block n_rows n_cols) indices ->
    (step <= length serialized)%nat ->
    (length serialized < step + length indices)%nat ->
    fill_block serialized n_rows n_cols indices matrix step = Raise IndexError.
Proof.
  induction indices as [|[i j] rest IH]; intros matrix step Hin Hstep0 Hlen.
  - simpl in Hlen. lia.
  - simpl in Hlen. simpl.
    destruct (serialized !! step) as [v|] eqn:Hv; [|done].
    apply lookup_lt_Some in Hv as Hstep.
    unfold setitem16.
    apply Forall_cons in Hin as [[Hi Hj] Hin]. simpl in Hi, Hj.
    replace (i <? n_rows)%nat with true by (symmetry; by apply Nat.ltb_lt).
    replace (j <? n_cols)%nat with true by (symmetry; by apply Nat.ltb_lt).
    simpl. apply IH; [done | lia | lia].
Qed.

Lemma fill_blocks_short (serialized : list Z) (output : list (list (list Z))) :
  forall step,
    Forall (in_block n_rows n_cols) (gen n_rows n_cols) ->
    (step <= length serialized)%nat ->
    (length serialized < step + length output * length (gen n_rows n_cols))%nat ->
    fill_blocks gen serialized n_rows n_cols output step = Raise IndexError.
Proof.
  induction output as [|matrix rest IH]; intros step Hin Hstep0 Hlen.
  - simpl in Hlen. lia.
  - simpl in Hlen. simpl.
    destruct (decide (step + length (gen n_rows n_cols) <= length serialized)%nat)
      as [Hfits|Hshort].
    + destruct (fill_block_runs serialized _ matrix step Hin Hfits) as (m' & ->).
      rewrite IH; [done | done | lia | lia].
    + rewrite fill_block_short; [done | done | done | lia].
Qed.

Lemma fill_block_app (serialized extra : list Z) (indices : list (nat * nat)) :
  forall matrix step,
    (step + length indices <= length serialized)%nat ->
    fill_block (serialized ++ extra) n_rows n_cols indices matrix step
    = fill_block serialized n_rows n_cols indices matrix step.
Proof.
  induction indices as [|[i j] rest IH]; intros matrix step Hlen; [done|].
  simpl in Hlen. simpl.
  rewrite lookup_app_l by lia.
  destruct (serialized !! step) as [v|]; [|done].
  destruct (setitem16 n_rows n_cols matrix i j v) as [m1|]; [|done].
  apply IH. lia.
Qed.

Lemma fill_blocks_app (serialized extra : list Z) (output : list (list (list Z))) :
  forall step,
    (step + length output * length (gen n_rows n_cols) <= length serialized)%nat ->
    fill_blocks gen (serialized ++ extra) n_rows n_cols output step
    = fill_blocks gen serialized n_rows n_cols output step.
Proof.
  induction output as [|matrix rest IH]; intros step Hlen; [done|].
  simpl in Hlen. simpl.
  rewrite fill_block_app by lia.
  destruct (fill_block serialized n_rows n_cols (gen n_rows n_cols) matrix step)
    as [[m' step']|] eqn:Hblock; [|done].
  apply fill_block_next in Hblock as ->.
  rewrite IH by lia. done.
Qed.

End DeserializeStream.

(** X5.  A stream shorter than n_blocks times the number of positions per
    block makes deserialize raise IndexError: it never returns partly filled
    or zero-filled blocks.  (The positions are assumed to lie in the
    block.) *)
Theorem deserialize_short_stream
  (gen : nat -> nat -> list (nat * nat)) (serialized : list Z)
  (n_blocks n_rows n_cols : nat) :
  Forall (in_block n_rows n_cols) (gen n_rows n_cols) ->
  (length serialized < n_blocks * length (gen n_rows n_cols))%nat ->
  deserialize gen serialized n_blocks n_rows n_cols = Raise IndexError.
Proof.
  intros Hin Hlen. unfold deserialize.
  rewrite fill_blocks_short; [done | done | lia |].
  rewrite length_replicate. lia.
Qed.

Lemma deserialize_short_stream_witness :
  deserialize zigzag_2x2 [1; 2; 3; 4; 5; 6; 7] 2 2 2 = Raise IndexError.
Proof.
  apply deserialize_short_stream.
  - repeat constructor; simpl; lia.
  - simpl. lia.
Defined.

(** X6.  deserialize reads the first n_blocks * len values only: whatever
    follows them in the stream is ignored without any error. *)
Theorem deserialize_ignores_tail
  (gen : nat -> nat -> list (nat * nat)) (serialized extra : list Z)
  (n_blocks n_rows n_cols : nat) :
  (n_blocks * length (gen n_rows n_cols) <= length serialized)%nat ->
  deserialize gen (serialized ++ extra) n_blocks n_rows n_cols
  = deserialize gen serialized n_blocks n_rows n_cols.
Proof.
  intros Hlen. unfold deserialize.
  rewrite fill_blocks_app; [done|]. rewrite length_replicate. lia.
Qed.

Lemma deserialize_ignores_tail_witness :
  deserialize zigzag_2x2 ([1; 2; 3; 4] ++ [9; 9; 9]) 1 2 2
  = deserialize zigzag_2x2 [1; 2; 3; 4] 1 2 2.
Proof. apply deserialize_ignores_tail. simpl. lia. Defined.

(** ** Deserialization inverts a scan *)

Lemma int16_id (z : Z) : in_int16 z -> int16 z = z.
Proof.
  unfold in_int16, int16. intros Hz. rewrite Z.mod_small by lia. lia.
Qed.

(** Two matrices of the same shape with the same elements are equal. *)
Lemma matrix_ext {A} (r c : nat) (X Y : list (list A)) :
  has_shape r c X -> has_shape r c Y ->
  (forall i j, (i < r)%nat -> (j < c)%nat -> at2 X i j = at2 Y i j) ->
  X = Y.
Proof.
  intros [HX1 HX2] [HY1 HY2] Hat. apply list_eq. intros i.
  destruct (decide (i < r)%nat) as [Hi|Hi].
  - destruct (lookup_lt_is_Some_2 X i) as [x Hx]; [lia|].
    destruct (lookup_lt_is_Some_2 Y i) as [y Hy]; [lia|].
    rewrite Hx, Hy. f_equal.
    rewrite Forall_lookup in HX2. rewrite Forall_lookup in HY2.
    apply list_eq. intros j.
    destruct (decide (j < c)%nat) as [Hj|Hj].
    + specialize (Hat i j Hi Hj). unfold at2 in Hat.
      by rewrite Hx, Hy in Hat.
    + rewrite !lookup_ge_None_2; [done | |].
      * rewrite (HY2 _ _ Hy). lia.
      * rewrite (HX2 _ _ Hx). lia.
  - rewrite !lookup_ge_None_2; [done | lia | lia].
Qed.

(** The element [b * n + k] of a concatenation of sequences of length [n]. *)
Lemma lookup_concat_uniform {A} (n : nat) (ls : list (list A)) :
  Forall (fun l => length l = n) ls ->
  forall b k l, ls !! b = Some l -> (k < n)%nat ->
                concat ls !! (b * n + k)%nat = l !! k.
Proof.
  induction 1 as [|l0 ls Hl0 _ IH]; intros b k l Hb Hk; [done|].
  destruct b as [|b]; simpl in *.
  - injection Hb as <-. by rewrite lookup_app_l by lia.
  - rewrite lookup_app_r by lia.
    replace (n + b * n + k - length l0)%nat with (b * n + k)%nat by lia.
    by apply IH.
Qed.

Lemma length_concat_uniform {A} (n : nat) (ls : list (list A)) :
  Forall (fun l => length l = n) ls -> length (concat ls) = (length ls * n)%nat.
Proof.
  induction 1 as [|l0 ls Hl0 _ IH]; [done|].
  simpl. rewrite length_app, IH, Hl0. lia.
Qed.

Section DeserializeShapes.
Variable gen : nat -> nat -> list (nat * nat).
Variable serialized : list Z.
Variables n_rows n_cols : nat.

Lemma fill_block_shape (indices : list (nat * nat)) :
  forall matrix matrix' step step',
    has_shape n_rows n_cols matrix ->
    fill_block serialized n_rows n_cols indices matrix step = Ok (matrix', step') ->
    has_shape n_rows n_cols matrix'.
Proof.
  induction indices as [|[i j] rest IH]; intros matrix matrix' step step' Hsh Hrun.
  - simpl in Hrun. by injection Hrun as <- _.
  - simpl in Hrun.
    destruct (serialized !! step) as [v|]; [|done].
    unfold setitem16 in Hrun.
    destruct ((i <? n_rows)%nat && (j <? n_cols)%nat); [|done].
    eapply IH; [|exact Hrun]. by apply has_shape_alter_insert.
Qed.

Lemma fill_blocks_shape (output : list (list (list Z))) :
  forall blocks step,
    Forall (has_shape n_rows n_cols) output ->
    fill_blocks gen serialized n_rows n_cols output step = Ok blocks ->
    Forall (has_shape n_rows n_cols) blocks.
Proof.
  induction output as [|matrix rest IH]; intros blocks step Hsh Hrun.
  - simpl in Hrun. by injection Hrun as <-.
  - simpl in Hrun. apply Forall_cons in Hsh as [Hsh0 Hsh].
    destruct (fill_block serialized n_rows n_cols (gen n_rows n_cols) matrix step)
      as [[m' step']|] eqn:Hblock; [|done].
    destruct (fill_blocks gen serialized n_rows n_cols rest step')
      as [rest'|] eqn:Hrest; [|done].
    injection Hrun as <-. apply Forall_cons. split.
    + by eapply fill_block_shape.
    + by eapply IH.
Qed.

End DeserializeShapes.

(** X7.  Round trip: when the index generator enumerates every position of
    the block exactly once, deserialize rebuilds any set of int16 blocks
    from the concatenation of their scans along those positions. *)
Theorem deserialize_scan_round_trip
  (gen : nat -> nat -> list (nat * nat)) (blocks : list (list (list Z)))
  (n_rows n_cols : nat) :
  let zz := gen n_rows n_cols in
  Forall (in_block n_rows n_cols) zz ->
  NoDup zz ->
  (forall i j, (i < n_rows)%nat -> (j < n_cols)%nat -> (i, j) ∈ zz) ->
  Forall (has_shape n_rows n_cols) blocks ->
  Forall (Forall (Forall in_int16)) blocks ->
  deserialize gen (concat (scan zz <$> blocks)) (length blocks) n_rows n_cols
  = Ok (NdArray n_rows n_cols <$> blocks).
Proof.
  intros zz Hin Hnd Hcover Hsh Hrg.
  set (serialized := concat (scan zz <$> blocks)).
  assert (Hscans : Forall (fun l : list Z => length l = length zz) (scan zz <$> blocks)).
  { apply Forall_fmap, Forall_forall. intros blk _. simpl.
    unfold scan. by rewrite length_fmap. }
  assert (Hlen : length serialized = (length blocks * length zz)%nat).
  { unfold serialized. rewrite (length_concat_uniform (length zz)) by done.
    by rewrite length_fmap. }
  set (zeros := replicate (length blocks) (replicate n_rows (replicate n_cols 0))).
  assert (Hz_shape : Forall (has_shape n_rows n_cols) zeros).
  { apply Forall_replicate. split; [by rewrite length_replicate|].
    apply Forall_replicate. by rewrite length_replicate. }
  destruct (fill_blocks_spec gen serialized n_rows n_cols zeros 0%nat)
    as (out & Hrun & Hlen' & _ & Hset).
  - done.
  - done.
  - unfold zeros. rewrite length_replicate. fold zz. lia.
  - done.
  - apply Forall_replicate, Forall_replicate, Forall_replicate.
    unfold in_int16. lia.
  - unfold deserialize. fold zeros. rewrite Hrun. do 2 f_equal.
    pose proof (fill_blocks_shape gen serialized n_rows n_cols zeros out 0%nat
                  Hz_shape Hrun) as Hout.
    unfold zeros in Hlen', Hset. rewrite length_replicate in Hlen', Hset.
    apply list_eq. intros b.
    destruct (decide (b < length blocks)%nat) as [Hb|Hb].
    2:{ rewrite !lookup_ge_None_2; [done | lia | lia]. }
    destruct (lookup_lt_is_Some_2 blocks b Hb) as [blk Hblk].
    destruct (lookup_lt_is_Some_2 out b) as [blk' Hblk']; [lia|].
    rewrite Hblk, Hblk'. f_equal.
    rewrite Forall_lookup in Hsh. rewrite Forall_lookup in Hout.
    rewrite Forall_lookup in Hrg.
    apply (matrix_ext n_rows n_cols); [by eapply Hout | by eapply Hsh |].
    intros i j Hi Hj.
    destruct (proj1 (list_elem_of_lookup zz (i, j)) (Hcover i j Hi Hj)) as [k Hk].
    apply lookup_lt_Some in Hk as Hk'.
    destruct (Hsh _ _ Hblk) as [Hr Hc].
    destruct (lookup_lt_is_Some_2 blk i) as [row Hrow]; [lia|].
    rewrite Forall_lookup in Hc.
    destruct (lookup_lt_is_Some_2 row j) as [x Hx]; [by rewrite (Hc _ _ Hrow)|].
    assert (Hat : at2 blk i j = Some x) by (unfold at2; by rewrite Hrow).
    destruct (Hset b k i j x Hb Hk) as (blk'' & Hb'' & Hv).
    + change (0 + b * length (gen n_rows n_cols) + k)%nat
        with (b * length zz + k)%nat.
      unfold serialized.
      rewrite (lookup_concat_uniform (length zz) _ Hscans b k (scan zz blk));
        [| by rewrite list_lookup_fmap, Hblk | done].
      unfold scan. rewrite list_lookup_fmap, Hk. simpl.
      by rewrite Hat.
    + rewrite Hblk' in Hb''. injection Hb'' as <-.
      rewrite Hv, Hat. f_equal. apply int16_id.
      specialize (Hrg _ _ Hblk). rewrite Forall_lookup in Hrg.
      specialize (Hrg _ _ Hrow). rewrite Forall_lookup in Hrg.
      by apply (Hrg _ _ Hx).
Qed.

Lemma deserialize_scan_round_trip_witness :
  deserialize zigzag_2x2
              (concat (scan (zigzag_2x2 2 2) <$> [[[1; -2]; [3; 4]]; [[5; 6]; [7; 8]]]))
              2 2 2
  = Ok [NdArray 2 2 [[1; -2]; [3; 4]]; NdArray 2 2 [[5; 6]; [7; 8]]].
Proof.
  apply (deserialize_scan_round_trip zigzag_2x2
           [[[1; -2]; [3; 4]]; [[5; 6]; [7; 8]]] 2 2).
  - repeat constructor; simpl; lia.
  - unfold zigzag_2x2. apply NoDup_ListNoDup.
    repeat constructor; simpl; intuition congruence.
  - intros i j Hi Hj. unfold zigzag_2x2.
    destruct i as [|[|i]]; destruct j as [|[|j]]; try lia;
      repeat (first [apply list_elem_of_here | apply list_elem_of_further]).
  - repeat constructor.
  - repeat constructor; unfold in_int16; lia.
Defined.

(** ** Dequantization of whole blocks *)

Lemma has_shape_tabulate {A} (r c : nat) (f : nat -> nat -> A) :
  has_shape r c (tabulate r c f).
Proof.
  unfold tabulate. split.
  - by rewrite length_fmap, length_seq.
  - apply Forall_fmap, Forall_forall. intros i _. simpl.
    by rewrite length_fmap, length_seq.
Qed.

Lemma at2_tabulate {A} (r c : nat) (f : nat -> nat -> A) (i j : nat) :
  (i < r)%nat -> (j < c)%nat -> at2 (tabulate r c f) i j = Some (f i j).
Proof.
  intros Hi Hj. unfold at2, tabulate.
  rewrite list_lookup_fmap, lookup_seq_lt by done. simpl.
  by rewrite list_lookup_fmap, lookup_seq_lt by done.
Qed.

Lemma has_shape_zip_with {A} (r c : nat) (f : A -> A -> A) (X Y : list (list A)) :
  has_shape r c X -> has_shape r c Y ->
  has_shape r c (zip_with (zip_with f) X Y).
Proof.
  intros [HX1 HX2] [HY1 HY2]. split.
  - rewrite length_zip_with. lia.
  - apply Forall_lookup. intros i row Hrow.
    apply lookup_zip_with_Some in Hrow as (x & y & -> & Hx & Hy).
    rewrite Forall_lookup in HX2. rewrite Forall_lookup in HY2.
    rewrite length_zip_with, (HX2 _ _ Hx), (HY2 _ _ Hy). lia.
Qed.

Lemma at2_zip_with {A} (f : A -> A -> A) (X Y : list (list A)) (i j : nat) (x y : A) :
  at2 X i j = Some x -> at2 Y i j = Some y ->
  at2 (zip_with (zip_with f) X Y) i j = Some (f x y).
Proof.
  unfold at2. intros HX HY.
  destruct (X !! i) as [rx|] eqn:Hrx; [|done].
  destruct (Y !! i) as [ry|] eqn:Hry; [|done].
  simpl in *.
  rewrite (proj2 (lookup_zip_with_Some (zip_with f) X Y i (zip_with f rx ry)));
    [| by exists rx, ry].
  simpl. apply lookup_zip_with_Some. by exists x, y.
Qed.

Lemma at2_in_shape {A} (r c : nat) (X : list (list A)) (i j : nat) :
  has_shape r c X -> (i < r)%nat -> (j < c)%nat -> exists x, at2 X i j = Some x.
Proof.
  intros [H1 H2] Hi Hj. unfold at2.
  destruct (lookup_lt_is_Some_2 X i) as [row Hrow]; [lia|].
  rewrite Forall_lookup in H2.
  destruct (lookup_lt_is_Some_2 row j) as [x Hx]; [by rewrite (H2 _ _ Hrow)|].
  exists x. by rewrite Hrow.
Qed.

Lemma broadcast_dim_same (a : nat) : broadcast_dim a a = Ok a.
Proof. unfold broadcast_dim. by rewrite Nat.eqb_refl. Qed.

Lemma broadcast_dim_raise (a b : nat) (e : exn) :
  broadcast_dim a b = Raise e <-> e = ValueError /\ incompatible a b.
Proof.
  unfold broadcast_dim, incompatible.
  destruct (Nat.eqb_spec a b); [split; [done | intros (_ & ? & _); done]|].
  destruct (Nat.eqb_spec a 1); [split; [done | intros (_ & _ & ? & _); done]|].
  destruct (Nat.eqb_spec b 1); [split; [done | intros (_ & _ & _ & ?); done]|].
  split; [by intros [= <-] | by intros [-> _]].
Qed.

Lemma np_multiply_same_shape (x y : ndarray Z) :
  wf_array x -> wf_array y -> nrows x = nrows y -> ncols x = ncols y ->
  np_multiply x y
  = Ok (NdArray (nrows y) (ncols y) (zip_with (zip_with Z.mul) (data x) (data y))).
Proof.
  intros Hx Hy Hr Hc. unfold np_multiply, wf_array in *.
  rewrite Hr, Hc in *. rewrite !broadcast_dim_same. do 2 f_equal.
  apply (matrix_ext (nrows y) (ncols y)).
  - apply has_shape_tabulate.
  - by apply has_shape_zip_with.
  - intros i j Hi Hj. rewrite at2_tabulate by done.
    assert (Hpi : (if (nrows y =? 1)%nat then 0%nat else i) = i).
    { destruct (Nat.eqb_spec (nrows y) 1); lia. }
    assert (Hpj : (if (ncols y =? 1)%nat then 0%nat else j) = j).
    { destruct (Nat.eqb_spec (ncols y) 1); lia. }
    rewrite Hpi, Hpj.
    destruct (at2_in_shape _ _ _ i j Hx Hi Hj) as [a Ha].
    destruct (at2_in_shape _ _ _ i j Hy Hi Hj) as [b Hb].
    rewrite (at2_zip_with Z.mul _ _ i j a b Ha Hb), Ha, Hb. done.
Qed.

Lemma np_multiply_raise (x y : ndarray Z) (e : exn) :
  np_multiply x y = Raise e
  <-> e = ValueError
      /\ (incompatible (nrows x) (nrows y) \/ incompatible (ncols x) (ncols y)).
Proof.
  unfold np_multiply.
  destruct (broadcast_dim (nrows x) (nrows y)) as [r|e1] eqn:Hr;
    destruct (broadcast_dim (ncols x) (ncols y)) as [c|e2] eqn:Hc.
  - split; [done|]. intros [_ [H|H]].
    + assert (broadcast_dim (nrows x) (nrows y) = Raise ValueError)
        by (by apply broadcast_dim_raise). congruence.
    + assert (broadcast_dim (ncols x) (ncols y) = Raise ValueError)
        by (by apply broadcast_dim_raise). congruence.
  - apply broadcast_dim_raise in Hc as [-> Hc].
    split; [intros [= <-]; auto | by intros [-> _]].
  - apply broadcast_dim_raise in Hr as [-> Hr].
    split; [intros [= <-]; auto | by intros [-> _]].
  - apply broadcast_dim_raise in Hr as [-> Hr].
    split; [intros [= <-]; auto | by intros [-> _]].
Qed.

(** X8.  On blocks that all have the shape of the quantization table,
    dequantize returns, block by block, the elementwise product with the
    table. *)
Theorem dequantize_elementwise (quantized : list (ndarray Z)) (table : ndarray Z) :
  wf_array table ->
  Forall (fun block => wf_array block
                       /\ nrows block = nrows table
                       /\ ncols block = ncols table) quantized ->
  dequantize quantized table
  = Ok ((fun block => NdArray (nrows table) (ncols table)
                              (zip_with (zip_with Z.mul) (data block) (data table)))
          <$> quantized).
Proof.
  intros Ht. unfold dequantize.
  induction 1 as [|block rest (Hb & Hr & Hc) _ IH]; [done|].
  simpl. rewrite np_multiply_same_shape by done. by rewrite IH.
Qed.

Lemma dequantize_elementwise_witness :
  dequantize [NdArray 2 2 [[1; -2]; [3; 0]]] (NdArray 2 2 [[16; 11]; [12; 14]])
  = Ok ((fun block => NdArray 2 2
                              (zip_with (zip_with Z.mul) (data block)
                                        [[16; 11]; [12; 14]]))
          <$> [NdArray 2 2 [[1; -2]; [3; 0]]]).
Proof.
  apply (dequantize_elementwise [NdArray 2 2 [[1; -2]; [3; 0]]]
                                (NdArray 2 2 [[16; 11]; [12; 14]])).
  - split; [reflexivity | repeat constructor].
  - repeat constructor.
Defined.

(** X9.  On blocks of one common shape, dequantize fails exactly when there
    is at least one block and the block shape cannot be broadcast against
    the table's on some axis; the exception is then ValueError. *)
Theorem dequantize_raises_iff
  (quantized : list (ndarray Z)) (table : ndarray Z) (r c : nat) (e : exn) :
  Forall (fun block => nrows block = r /\ ncols block = c) quantized ->
  dequantize quantized table = Raise e
  <-> e = ValueError
      /\ quantized <> []
      /\ (incompatible r (nrows table) \/ incompatible c (ncols table)).
Proof.
  unfold dequantize.
  induction 1 as [|block rest [Hr Hc] _ IH].
  - simpl. split; [done | by intros (_ & ? & _)].
  - simpl.
    destruct (np_multiply block table) as [p|e1] eqn:Hm.
    + destruct (result_mapM (fun b => np_multiply b table) rest) as [ps|e2] eqn:Hrest.
      * split; [done|]. intros (-> & _ & Hinc).
        assert (np_multiply block table = Raise ValueError).
        { apply np_multiply_raise. by rewrite Hr, Hc. }
        congruence.
      * split.
        -- intros [= <-]. destruct (proj1 IH eq_refl) as (-> & _ & Hinc). done.
        -- intros (-> & _ & Hinc). f_equal.
           assert (np_multiply block table = Raise ValueError).
           { apply np_multiply_raise. by rewrite Hr, Hc. }
           congruence.
    + apply np_multiply_raise in Hm as [-> Hinc]. rewrite Hr, Hc in Hinc.
      split; [by intros [= <-] | by intros (-> & _)].
Qed.

Lemma dequantize_raises_iff_witness :
  dequantize [NdArray 2 2 [[1; 2]; [3; 4]]] (NdArray 3 3 [[1; 1; 1]; [1; 1; 1]; [1; 1; 1]])
  = Raise ValueError.
Proof.
  apply (dequantize_raises_iff [NdArray 2 2 [[1; 2]; [3; 4]]]
           (NdArray 3 3 [[1; 1; 1]; [1; 1; 1]; [1; 1; 1]]) 2 2 ValueError).
  - repeat constructor.
  - split; [done|]. split; [done|]. left. unfold incompatible. simpl. lia.
Defined.

(** ** Flattening with accumulators, and the caller's list *)

Section FlattenMore.
Variable serialize : ndarray Z -> list Z.

Lemma visit_all_flatten (l : list subband_item) (st : frame) :
  f_output (visit_all serialize l st) = f_output st ++ concat (flatten serialize <$> l)
  /\ f_length (visit_all serialize l st) = f_length st ++ (shape_of serialize <$> l).
Proof.
  apply visit_all_spec, Forall_forall. intros i _. apply visit_spec.
Qed.

Lemma visit_aliased (i : subband_item) (st : frame) :
  f_aliased (visit serialize i st)
  = match i with Leaf _ => false | Nested _ => f_aliased st end.
Proof. by destruct i. Qed.

Lemma visit_all_detached (l : list subband_item) :
  forall st, f_aliased st = false ->
             f_caller (visit_all serialize l st) = f_caller st
             /\ f_aliased (visit_all serialize l st) = false.
Proof.
  induction l as [|i l IH]; intros st Hst; [done|].
  assert (Hi : f_aliased (visit serialize i st) = false).
  { rewrite visit_aliased. by destruct i. }
  assert (Hc : f_caller (visit serialize i st) = f_caller st).
  { destruct i; simpl; by rewrite ?Hst. }
  simpl. destruct (IH (visit serialize i st) Hi) as [-> ->].
  by rewrite Hc.
Qed.

Lemma visit_all_caller (l : list subband_item) :
  forall st, f_aliased st = true ->
             f_caller (visit_all serialize l st)
             = f_caller st ++ (shape_of serialize <$> leading_nested l).
Proof.
  induction l as [|i l IH]; intros st Hst.
  - simpl. by rewrite app_nil_r.
  - destruct i as [a|sub].
    + change (visit_all serialize (Leaf a :: l) st)
        with (visit_all serialize l (visit serialize (Leaf a) st)).
      destruct (visit_all_detached l (visit serialize (Leaf a) st) eq_refl) as [-> _].
      simpl. by rewrite app_nil_r.
    + change (visit_all serialize (Nested sub :: l) st)
        with (visit_all serialize l (visit serialize (Nested sub) st)).
      rewrite IH by (by simpl).
      cbn [visit f_caller leading_nested fmap list_fmap]. rewrite Hst.
      destruct (visit_all_flatten sub (Frame [] [] [] true)) as [_ Hl].
      unfold visit_all in Hl. rewrite Hl. simpl.
      by rewrite <- app_assoc.
Qed.

End FlattenMore.

(** X10.  Whatever lists are passed as accumulators, dwt_serialize returns
    them extended: the given stream followed by the scans of all arrays in
    depth-first order, and the given record followed by one entry per
    element of the nested list. *)
Theorem dwt_serialize_extends_accumulators
  (serialize : ndarray Z -> list Z) (filtered_image : list subband_item)
  (output : list Z) (length : list length_item) :
  fst (dwt_serialize serialize filtered_image output length)
  = (output ++ concat (flatten serialize <$> filtered_image),
     length ++ (shape_of serialize <$> filtered_image)).
Proof.
  unfold dwt_serialize. cbn [fst].
  destruct (visit_all_flatten serialize filtered_image (Frame output length length true))
    as [-> ->].
  done.
Qed.

(** X11.  The list object passed as [length] is not filled with the whole
    record: after the call it has gained exactly the records of the
    sublists that stand before the first array of the nested list, and
    nothing for that array or anything after it. *)
Theorem dwt_serialize_caller_list
  (serialize : ndarray Z -> list Z) (filtered_image : list subband_item)
  (output : list Z) (length : list length_item) :
  snd (dwt_serialize serialize filtered_image output length)
  = length ++ (shape_of serialize <$> leading_nested filtered_image).
Proof.
  unfold dwt_serialize. cbn [snd].
  by rewrite visit_all_caller.
Qed.

(** ** The dimensions chosen by check_image *)

Lemma np_round_tie (x : Q) (f : Z) :
  (x == inject_Z f + (1 # 2))%Q ->
  np_round x = if Z.even f then f else f + 1.
Proof.
  intros Hx. unfold np_round.
  assert (Hf : Qfloor x = f).
  { symmetry. apply Z.le_antisymm.
    - rewrite <- (Qfloor_Z f). apply Qfloor_resp_le. rewrite Hx. lra.
    - assert (Qfloor x < f + 1); [|lia].
      rewrite Zlt_Qlt. eapply Qle_lt_trans; [apply Qfloor_le|].
      rewrite Hx, inject_Z_plus. change (inject_Z 1) with 1%Q. lra. }
  rewrite Hf.
  assert (Hc : (x - inject_Z f ?= 1 # 2)%Q = Eq).
  { apply Qeq_alt. rewrite Hx. ring. }
  by rewrite Hc.
Qed.

Lemma pow2_pos (depth : nat) : 0 < 2 ^ Z.of_nat depth.
Proof. apply Z.pow_pos_nonneg; lia. Qed.

Lemma check_image_dim_close (size : Z) (depth : nat) :
  2 * Z.abs (check_image_dim size depth - size) <= 2 ^ Z.of_nat depth.
Proof.
  unfold check_image_dim. cbv zeta.
  pose proof (pow2_pos depth) as HD. set (D := 2 ^ Z.of_nat depth) in *.
  pose proof (quantize_error (inject_Z size) D HD) as [Hlo Hhi].
  unfold quantize in Hlo, Hhi.
  set (f := np_round (inject_Z size / inject_Z D) * D) in *.
  assert (H1 : (inject_Z (2 * (f - size)) <= inject_Z D)%Q).
  { rewrite inject_Z_mult. unfold Z.sub. rewrite inject_Z_plus, inject_Z_opp.
    change (inject_Z 2) with 2%Q. lra. }
  assert (H2 : (inject_Z (2 * (size - f)) <= inject_Z D)%Q).
  { rewrite inject_Z_mult. unfold Z.sub. rewrite inject_Z_plus, inject_Z_opp.
    change (inject_Z 2) with 2%Q. lra. }
  rewrite <- Zle_Qle in H1, H2. lia.
Qed.

(** X12.  The dimension that check_image computes is a multiple of
    2**depth, and no further than half of 2**depth from the original
    size. *)
Theorem check_image_dim_nearest_multiple (size : Z) (depth : nat) :
  (2 ^ Z.of_nat depth | check_image_dim size depth)
  /\ 2 * Z.abs (check_image_dim size depth - size) <= 2 ^ Z.of_nat depth.
Proof.
  split; [|apply check_image_dim_close].
  unfold check_image_dim. cbv zeta. apply Z.divide_factor_r.
Qed.

(** X13.  check_image keeps a dimension exactly when it is already a
    multiple of 2**depth. *)
Theorem check_image_dim_fixed_iff (size : Z) (depth : nat) :
  check_image_dim size depth = size <-> (2 ^ Z.of_nat depth | size).
Proof.
  split.
  - intros <-. unfold check_image_dim. cbv zeta. apply Z.divide_factor_r.
  - intros [k ->]. unfold check_image_dim. cbv zeta.
    pose proof (inject_Z_pos _ (pow2_pos depth)) as HD.
    set (D := 2 ^ Z.of_nat depth) in *. f_equal.
    apply np_round_unique.
    assert (Hx : (inject_Z (k * D) / inject_Z D == inject_Z k)%Q).
    { rewrite inject_Z_mult. field. lra. }
    rewrite Hx. lra.
Qed.

(** X14.  check_image computes the dimension 0 exactly for the sizes of at
    most half of 2**depth: the tie at exactly one half is rounded to the
    even neighbour, which is 0. *)
Theorem check_image_dim_zero_iff (size : Z) (depth : nat) :
  check_image_dim size depth = 0 <-> 2 * Z.abs size <= 2 ^ Z.of_nat depth.
Proof.
  split.
  - intros H0. pose proof (check_image_dim_close size depth) as Hc.
    rewrite H0 in Hc. lia.
  - intros Hs. unfold check_image_dim. cbv zeta.
    pose proof (pow2_pos depth) as HDz.
    pose proof (inject_Z_pos _ HDz) as HD.
    set (D := 2 ^ Z.of_nat depth) in *.
    cut (np_round (inject_Z size / inject_Z D) = 0); [by intros ->|].
    destruct (decide (2 * Z.abs size < D)) as [Hlt|Hge].
    + apply np_round_unique.
      assert (H1 : (inject_Z (2 * size) < inject_Z D)%Q) by (rewrite <- Zlt_Qlt; lia).
      assert (H2 : (inject_Z (- (2 * size)) < inject_Z D)%Q)
        by (rewrite <- Zlt_Qlt; lia).
      rewrite inject_Z_opp in H2. rewrite inject_Z_mult in H1, H2.
      change (inject_Z 2) with 2%Q in H1, H2. change (inject_Z 0) with 0%Q.
      assert (Hu : (inject_Z size / inject_Z D < 1 # 2)%Q).
      { apply Qlt_shift_div_r; [done | lra]. }
      assert (Hl : (- (1 # 2) < inject_Z size / inject_Z D)%Q).
      { apply Qlt_shift_div_l; [done | lra]. }
      lra.
    + destruct (decide (0 <= size)) as [Hpos|Hneg].
      * assert (HDs : D = 2 * size) by lia.
        rewrite (np_round_tie _ 0); [done|].
        rewrite HDs, inject_Z_mult. change (inject_Z 2) with 2%Q.
        change (inject_Z 0) with 0%Q.
        assert (inject_Z size > 0)%Q by (apply inject_Z_pos; lia).
        field. lra.
      * assert (HDs : D = 2 * - size) by lia.
        rewrite (np_round_tie _ (-1)); [done|].
        rewrite HDs, inject_Z_mult, inject_Z_opp. change (inject_Z 2) with 2%Q.
        change (inject_Z (-1)) with (-1)%Q.
        assert (inject_Z (- size) > 0)%Q by (apply inject_Z_pos; lia).
        rewrite inject_Z_opp in *.
        field. lra.
Qed.

(** ** The only object that dwt_levels changes *)

Lemma untouched_refl (l : addr) (n : nat) (h : heap) :
  (n <= length h)%nat -> untouched_except l n h h.
Proof. by split. Qed.

Lemma untouched_trans (l : addr) (n : nat) (h1 h2 h3 : heap) :
  untouched_except l n h1 h2 -> untouched_except l n h2 h3 ->
  untouched_except l n h1 h3.
Proof.
  intros [_ H12] [Hn H23]. split; [done|].
  intros a Ha Hne. by rewrite H23, H12.
Qed.

Lemma kept_untouched (l : addr) (n : nat) (h h' : heap) :
  kept eq n h h' -> untouched_except l n h h'.
Proof. intros [Hn Hk]. split; [done|]. intros a Ha _. symmetry. by apply Hk. Qed.

(** Nothing below [n] changes when the object excepted is not below [n]. *)
Lemma untouched_fresh (l l' : addr) (n : nat) (h h' : heap) :
  (n <= l)%nat -> untouched_except l n h h' -> untouched_except l' n h h'.
Proof.
  intros Hl [Hn Hk]. split; [done|]. intros a Ha _. apply Hk; lia.
Qed.

Lemma list_getitem_reads (l : addr) (i : Z) (h : heap) : (list_getitem l i h).2 = h.
Proof.
  unfold list_getitem.
  destruct (h !! l) as [[| | |items]|]; try done.
  destruct (Py.index (length items) i) as [k|]; [|done].
  by destruct (items !! k).
Qed.

Lemma list_setitem_untouched (l : addr) (i : Z) (x : addr) (n : nat) (h : heap) :
  (n <= length h)%nat -> untouched_except l n h (list_setitem l i x h).2.
Proof.
  intros Hn. unfold list_setitem.
  destruct (h !! l) as [[| | |items]|]; try by apply untouched_refl.
  destruct (Py.index (length items) i) as [k|]; [|by apply untouched_refl].
  cbn [snd]. split; [by rewrite length_insert|].
  intros a _ Ha. by apply list_lookup_insert_ne.
Qed.

(** After [l[i] = x], reading [l[i]] gives [x]. *)
Lemma list_getitem_after_setitem (l : addr) (i : Z) (x z : addr) (h : heap) :
  (list_setitem l i x h).1 = Ok tt ->
  (list_getitem l i (list_setitem l i x h).2).1 = Ok z ->
  z = x.
Proof.
  unfold list_setitem.
  destruct (h !! l) as [[| | |items]|] eqn:Hl; try done.
  destruct (Py.index (length items) i) as [k|] eqn:Hk; [|done].
  intros _. cbn [snd]. unfold list_getitem.
  rewrite list_lookup_insert_eq by (by eapply lookup_lt_Some).
  rewrite length_insert, Hk.
  destruct (decide (k < length items)%nat) as [Hlt|Hge].
  - rewrite list_lookup_insert_eq by done. by intros [= <-].
  - by rewrite lookup_ge_None_2 by (rewrite length_insert; lia).
Qed.

Lemma try_ret_heap (m : M unit) (h : heap) :
  (try_except_IndexError m (ret tt) h).2 = (m h).2.
Proof.
  unfold try_except_IndexError. destruct (m h) as [[u|e] h1]; [done|].
  by destruct e.
Qed.

Lemma for_each_untouched {A} (body : addr -> A -> M unit) (l : list A) :
  Forall (fun x => forall fi n h, (n <= length h)%nat ->
                                  untouched_except fi n h (body fi x h).2) l ->
  forall fi n h, (n <= length h)%nat ->
                 untouched_except fi n h (for_each l (body fi) h).2.
Proof.
  induction 1 as [|x l Hx _ IH]; intros fi n h Hn.
  - by apply untouched_refl.
  - rewrite for_each_cons. unfold bind.
    specialize (Hx fi n h Hn).
    destruct (body fi x h) as [[u|e] h1]; [|done].
    cbn [snd] in Hx. eapply untouched_trans; [exact Hx|].
    apply IH. apply Hx.
Qed.

Lemma dwt_level_untouched (q : list Z) (entry : level) :
  forall fi n h, (n <= length h)%nat ->
                 untouched_except fi n h (dwt_level fi q entry h).2.
Proof.
  induction entry as [index sub IH] using level_ind. intros fi n h Hn.
  cbn [dwt_level]. unfold bind at 1.
  pose proof (list_getitem_reads fi index h) as Hread.
  destruct (list_getitem fi index h) as [[x|e] h0]; cbn [snd] in Hread; subst h0;
    [|by apply untouched_refl].
  unfold bind at 1.
  destruct (dwt_frames eq (length h) x q (@eq_refl _) (@eq_trans _) h (le_n _))
    as [Hkept Hfresh].
  destruct (dwt x q h) as [[y|e] h2]; cbn [fst snd] in Hkept, Hfresh.
  2:{ cbn [snd]. apply kept_untouched. destruct Hkept as [Hl Hk]. split; [lia|].
      intros a Ha. apply Hk. lia. }
  specialize (Hfresh y eq_refl).
  assert (H02 : untouched_except fi n h h2).
  { apply kept_untouched. destruct Hkept as [Hl Hk]. split; [lia|].
    intros a Ha. apply Hk. lia. }
  assert (Hn2 : (n <= length h2)%nat) by apply H02.
  unfold bind at 1.
  pose proof (list_setitem_untouched fi index y n h2 Hn2) as H23.
  pose proof (fun z => list_getitem_after_setitem fi index y z h2) as Hback.
  destruct (list_setitem fi index y h2) as [[[]|e] h3]; cbn [fst snd] in H23, Hback;
    [|by eapply untouched_trans].
  assert (H03 : untouched_except fi n h h3) by (by eapply untouched_trans).
  rewrite try_ret_heap. eapply untouched_trans; [exact H03|].
  assert (Hn3 : (n <= length h3)%nat) by apply H03.
  unfold bind.
  pose proof (list_getitem_reads fi index h3) as Hread.
  destruct (list_getitem fi index h3) as [[z|e] h4] eqn:Hget;
    cbn [fst snd] in Hread, Hback; subst h4; [|by apply untouched_refl].
  assert (z = y) as -> by (by apply Hback).
  destruct sub as [levels|]; [|by apply untouched_refl].
  destruct (4 <? length levels)%nat; [by apply untouched_refl|].
  apply (untouched_fresh y); [lia|].
  by apply (for_each_untouched (fun l e => dwt_level l q e)).
Qed.

(** X15.  The only object existing before the call that dwt_levels can
    change is the list it is given: every other object, among them every
    other list, is afterwards what it was, whatever the outcome of the
    call.  The nested decompositions work on lists made during the call. *)
Theorem dwt_levels_changes_only_its_list
  (fi : addr) (levels : list level) (q : list Z) (h : heap) (a : addr) :
  (a < length h)%nat -> a <> fi ->
  (dwt_levels fi levels q h).2 !! a = h !! a.
Proof.
  intros Ha Hne. unfold dwt_levels.
  destruct (4 <? length levels)%nat; [done|].
  destruct (for_each_untouched (fun l e => dwt_level l q e) levels) with
    (fi := fi) (n := length h) (h := h) as [_ Hk]; [| done | by apply Hk].
  apply Forall_forall. intros e _. apply dwt_level_untouched.
Qed.

Lemma dwt_levels_changes_only_its_list_witness :
  (dwt_levels 4%nat [Level 0 None] [1; 1; 1; 1] (zero_subbands 4)).2 !! 0%nat
  = zero_subbands 4 !! 0%nat.
Proof.
  apply (dwt_levels_changes_only_its_list 4%nat [Level 0 None] [1; 1; 1; 1]
           (zero_subbands 4) 0%nat).
  - simpl. lia.
  - lia.
Defined.

(** ** One entry of a decomposition specification *)

Lemma list_getitem_ok (l : addr) (i : Z) (h : heap) (items : list addr)
      (k : nat) (x : addr) :
  h !! l = Some (OList items) -> Py.index (length items) i = Ok k ->
  items !! k = Some x ->
  list_getitem l i h = (Ok x, h).
Proof. intros Hl Hi Hx. unfold list_getitem. by rewrite Hl, Hi, Hx. Qed.

Lemma list_setitem_ok (l : addr) (i : Z) (x : addr) (h : heap) (items : list addr)
      (k : nat) :
  h !! l = Some (OList items) -> Py.index (length items) i = Ok k ->
  list_setitem l i x h = (Ok tt, <[l := OList (<[k := x]> items)]> h).
Proof. intros Hl Hi. unfold list_setitem. by rewrite Hl, Hi. Qed.

Lemma index_lt (len : nat) (i : Z) (k : nat) :
  Py.index len i = Ok k -> (k < len)%nat.
Proof.
  unfold Py.index.
  destruct ((0 <=? i) && (i <? Z.of_nat len)) eqn:H1.
  - intros [= <-]. apply andb_true_iff in H1 as [Ha Hb].
    apply Z.leb_le in Ha. apply Z.ltb_lt in Hb. lia.
  - destruct ((i <? 0) && (- Z.of_nat len <=? i)) eqn:H2; [|done].
    intros [= <-]. apply andb_true_iff in H2 as [Ha Hb].
    apply Z.ltb_lt in Ha. apply Z.leb_le in Hb. lia.
Qed.

Lemma index_raise (len : nat) (i : Z) :
  i < - Z.of_nat len \/ Z.of_nat len <= i -> Py.index len i = Raise IndexError.
Proof.
  intros Hi. unfold Py.index.
  destruct ((0 <=? i) && (i <? Z.of_nat len)) eqn:H1.
  - apply andb_true_iff in H1 as [Ha Hb].
    apply Z.leb_le in Ha. apply Z.ltb_lt in Hb. lia.
  - destruct ((i <? 0) && (- Z.of_nat len <=? i)) eqn:H2; [|done].
    apply andb_true_iff in H2 as [Ha Hb].
    apply Z.ltb_lt in Ha. apply Z.leb_le in Hb. lia.
Qed.

(** The heap that dwt leaves, when an object of the caller's heap is
    replaced afterwards. *)
Lemma dwt_final_heap_insert (h : heap) (l : addr) (o : pyobj) (image : ndarray Z)
      (d0 d1 d2 d3 : Z) :
  (l < length h)%nat ->
  <[l := o]> (dwt_final_heap h image d0 d1 d2 d3)
  = dwt_final_heap (<[l := o]> h) image d0 d1 d2 d3.
Proof.
  intros Hl. unfold dwt_final_heap. cbv zeta.
  rewrite insert_app_l by done. by rewrite length_insert.
Qed.

Section SingleEntry.
Variables (h : heap) (fi a : addr) (items : list addr) (k : Z) (i : nat).
Variables (image : ndarray Z) (d0 d1 d2 d3 : Z).
Hypothesis Hfi : h !! fi = Some (OList items).
Hypothesis Hk : Py.index (length items) k = Ok i.
Hypothesis Hi : items !! i = Some a.
Hypothesis Himage : h !! a = Some (OIntArray image).
Hypothesis Hwf : wf_array image.
Hypothesis Hrows : (2 < nrows image)%nat.
Hypothesis Hcols : (2 < ncols image)%nat.
Hypothesis Hd : d0 <> 0 /\ d1 <> 0 /\ d2 <> 0 /\ d3 <> 0.

(** One entry: the item is replaced by the list that dwt returns, and the
    nested specification, if any, is run on that list. *)
Lemma dwt_level_run (sub : option (list level)) :
  dwt_level fi [d0; d1; d2; d3] (Level k sub) h
  = try_except_IndexError
      (match sub with
       | None => raise IndexError
       | Some levels =>
           if (4 <? length levels)%nat then raise AssertionError
           else for_each levels (dwt_level (length h + 4)%nat [d0; d1; d2; d3])
       end)
      (ret tt)
      (dwt_final_heap (<[fi := OList (<[i := (length h + 4)%nat]> items)]> h)
                      image d0 d1 d2 d3).
Proof using Hfi Hk Hi Himage Hwf Hrows Hcols Hd.
  assert (Hlt : (fi < length h)%nat) by (by eapply lookup_lt_Some).
  assert (Hil : (i < length items)%nat) by (by eapply index_lt).
  cbn [dwt_level].
  erewrite bind_ok; last (by eapply list_getitem_ok).
  erewrite bind_ok; last first.
  { rewrite <- (app_nil_r h) at 1. by apply dwt_run_app. }
  assert (Hfi' : dwt_final_heap h image d0 d1 d2 d3 !! fi = Some (OList items)).
  { unfold dwt_final_heap. cbv zeta. by rewrite lookup_app_l. }
  erewrite bind_ok; last (by eapply list_setitem_ok).
  rewrite dwt_final_heap_insert by done.
  unfold try_except_IndexError.
  erewrite bind_ok; [done|].
  eapply list_getitem_ok.
  - unfold dwt_final_heap. cbv zeta.
    rewrite lookup_app_l by (by rewrite length_insert).
    by apply list_lookup_insert_eq.
  - by rewrite length_insert.
  - by apply list_lookup_insert_eq.
Qed.

End SingleEntry.



(** ** Indices out of range in a decomposition specification *)

(** X17.  When the first entry of the specification names an index outside
    the given list, dwt_levels raises IndexError and has changed nothing. *)
Theorem dwt_levels_index_out_of_range
  (h : heap) (fi : addr) (items : list addr) (k : Z) (sub : option (list level))
  (rest : list level) (q : list Z) :
  h !! fi = Some (OList items) ->
  k < - Z.of_nat (length items) \/ Z.of_nat (length items) <= k ->
  (length rest < 4)%nat ->
  dwt_levels fi (Level k sub :: rest) q h = (Raise IndexError, h).
Proof.
  intros Hfi Hk Hlen. unfold dwt_levels.
  replace (4 <? length (Level k sub :: rest))%nat with false
    by (symmetry; apply Nat.ltb_ge; simpl; lia).
  rewrite for_each_cons'. cbn [dwt_level]. unfold bind at 1 2.
  unfold list_getitem. by rewrite Hfi, index_raise.
Qed.

Lemma dwt_levels_index_out_of_range_witness :
  dwt_levels 4%nat [Level 4 None] [1; 1; 1; 1] (zero_subbands 4)
  = (Raise IndexError, zero_subbands 4).
Proof.
  apply (dwt_levels_index_out_of_range (zero_subbands 4) 4%nat [0; 1; 2; 3]%nat
           4 None [] [1; 1; 1; 1]).
  - reflexivity.
  - right. simpl. lia.
  - simpl. lia.
Defined.

(** X18.  Inside a nested specification the same mistake is silent: when
    the first nested entry names an index outside the four new subbands, the
    IndexError is caught, and the call has the effect of the entry without
    its nested specification; the nested entries after it are skipped. *)
Theorem dwt_levels_nested_index_swallowed
  (h : heap) (fi a : addr) (items : list addr) (k : Z) (i : nat)
  (image : ndarray Z) (d0 d1 d2 d3 : Z)
  (j : Z) (sub : option (list level)) (rest : list level) :
  h !! fi = Some (OList items) ->
  Py.index (length items) k = Ok i ->
  items !! i = Some a ->
  h !! a = Some (OIntArray image) ->
  wf_array image ->
  (2 < nrows image)%nat -> (2 < ncols image)%nat ->
  d0 <> 0 -> d1 <> 0 -> d2 <> 0 -> d3 <> 0 ->
  j < -4 \/ 4 <= j ->
  (length rest < 4)%nat ->
  dwt_levels fi [Level k (Some (Level j sub :: rest))] [d0; d1; d2; d3] h
  = dwt_levels fi [Level k None] [d0; d1; d2; d3] h
  /\ fst (dwt_levels fi [Level k None] [d0; d1; d2; d3] h) = Ok tt.
Proof.
  intros Hfi Hk Hi Himage Hwf Hrows Hcols H0 H1 H2 H3 Hj Hlen.
  set (h1 := <[fi := OList (<[i := (length h + 4)%nat]> items)]> h).
  assert (Hlen1 : length h1 = length h) by (unfold h1; by rewrite length_insert).
  unfold dwt_levels. cbn [length Nat.ltb Nat.leb].
  rewrite !for_each_cons', !for_each_nil'. unfold bind.
  rewrite !(dwt_level_run h fi a items k i image d0 d1 d2 d3) by done.
  fold h1.
  replace (4 <? length (Level j sub :: rest))%nat with false
    by (symmetry; apply Nat.ltb_ge; simpl; lia).
  assert (Hnested :
    for_each (Level j sub :: rest) (dwt_level (length h + 4)%nat [d0; d1; d2; d3])
             (dwt_final_heap h1 image d0 d1 d2 d3)
    = (Raise IndexError, dwt_final_heap h1 image d0 d1 d2 d3)).
  { rewrite for_each_cons'. cbn [dwt_level]. unfold bind at 1 2.
    unfold list_getitem. unfold dwt_final_heap at 1. cbv zeta.
    rewrite <- Hlen1, lookup_app_plus. cbn [lookup list_lookup length].
    by rewrite index_raise. }
  unfold try_except_IndexError. rewrite Hnested. done.
Qed.

Lemma dwt_levels_nested_index_swallowed_witness :
  dwt_levels 1%nat [Level 0 (Some [Level 7 None; Level 0 None])] [1; 1; 1; 1]
             [OIntArray sample_image; OList [0%nat]]
  = dwt_levels 1%nat [Level 0 None] [1; 1; 1; 1]
               [OIntArray sample_image; OList [0%nat]]
  /\ fst (dwt_levels 1%nat [Level 0 None] [1; 1; 1; 1]
                     [OIntArray sample_image; OList [0%nat]]) = Ok tt.
Proof.
  apply (dwt_levels_nested_index_swallowed [OIntArray sample_image; OList [0%nat]]
           1%nat 0%nat [0%nat] 0 0%nat sample_image 1 1 1 1 7 None [Level 0 None]).
  - reflexivity.
  - reflexivity.
  - reflexivity.
  - reflexivity.
  - split; [reflexivity | repeat constructor].
  - simpl. lia.
  - simpl. lia.
  - lia.
  - lia.
  - lia.
  - lia.
  - right. lia.
  - simpl. lia.
Defined.

(** ** Decomposition of an image of any size *)




(** ** The divisors that dwt reads *)

Lemma bind_fails {A B} (m : M A) (k : A -> M B) (h : heap) (e : exn) :
  (m h).1 = Raise e -> (bind m k h).1 = Raise e.
Proof. unfold bind. destruct (m h) as [[a|e'] h']; [done|]. by intros [= ->]. Qed.

Section DwtDivisors.
Variables (h : heap) (a : addr) (image : ndarray Z).
Hypothesis Himage : h !! a = Some (OIntArray image).
Hypothesis Hwf : wf_array image.
Hypothesis Hrows : (2 < nrows image)%nat.
Hypothesis Hcols : (2 < ncols image)%nat.

(** dwt up to its last loop, for any list of divisors. *)
Lemma dwt_run_to_quantize (q : list Z) :
  let n := nrows image in
  let m := ncols image in
  let LPd := filter_rows LPF LPF_center (pixels (data image)) in
  let HPd := filter_rows HPF HPF_center (pixels (data image)) in
  dwt a q h
  = (for_range 4 (fun i =>
       x <- list_getitem (length h + 4) (Z.of_nat i) ;;
       v <- view_rows2 x ;;
       list_setitem (length h + 4) (Z.of_nat i) v ;;;
       x <- list_getitem (length h + 4) (Z.of_nat i) ;;
       d <- divisor q i ;;
       r <- round_div x d ;;
       list_setitem (length h + 4) (Z.of_nat i) r) ;;;
     ret (length h + 4)%nat)
      (h ++ [fa n m (filter_cols LPF LPF_center n m LPd);
             fa n m (filter_cols HPF HPF_center n m LPd);
             fa n m (filter_cols LPF LPF_center n m HPd);
             fa n m (filter_cols HPF HPF_center n m HPd);
             OList [length h + 7; length h + 8; length h + 9; length h + 10]%nat;
             fa n m LPd; fa n m HPd;
             OView (length h + 0) 1 2; OView (length h + 1) 1 2;
             OView (length h + 2) 1 2; OView (length h + 3) 1 2]).
Proof using Himage Hwf Hrows Hcols.
  intros n m LPd HPd.
  assert (Ha : (a < length h)%nat) by (by eapply lookup_lt_Some).
  rewrite <- (app_nil_r h) at 1.
  unfold dwt.
  erewrite bind_ok;
    last (apply array_of_int; rewrite lookup_app_l by done; exact Himage).
  cbn [nrows ncols]. fold n m.
  do 7 (heap_step alloc_app).
  erewrite bind_ok; last first.
  { unfold for_range.
    assert (Hdist : a <> (length h + 5)%nat /\ a <> (length h + 6)%nat
                    /\ (length h + 5)%nat <> (length h + 6)%nat) by lia.
    apply (row_loop_spec a (length h + 5) (length h + 6) image Hwf Hcols
             Hdist n 0 _ (replicate n (replicate m 0%Q))
             (replicate n (replicate m 0%Q)));
      [ done | by rewrite lookup_app_l | by rewrite lookup_app_plus
      | by rewrite lookup_app_plus | by rewrite length_replicate
      | by rewrite length_replicate ]. }
  rewrite !insert_app_r. heap_norm. cbn [take drop app].
  fold LPd HPd.
  erewrite bind_ok; last apply views_phase.
  erewrite bind_ok; last first.
  { unfold for_range.
    apply (col_loop_spec h n m LPd HPd _
             [OView (length h + 0) 1 2; OView (length h + 1) 1 2;
              OView (length h + 2) 1 2; OView (length h + 3) 1 2]
             Hrows
             (filter_rows_shape image Hwf Hrows Hcols _ _ lfilter_LPF)
             (filter_rows_shape image Hwf Hrows Hcols _ _ lfilter_HPF) m 0);
      [done | split; [by rewrite length_replicate
                     | apply Forall_replicate; by rewrite length_replicate] ..]. }
  unfold col_heap, fa.
  rewrite !frontier_0
    by (rewrite length_replicate; symmetry; apply filter_cols_shape).
  done.
Qed.

End DwtDivisors.

Ltac quantize_iteration :=
  erewrite bind_ok; last first;
  [ heap_step list_getitem_app;
    heap_step view_rows2_app;
    heap_step list_setitem_app;
    heap_step list_getitem_app;
    heap_step divisor_ok;
    heap_step round_div_app;
    eapply list_setitem_app; reflexivity
  | heap_norm ].

Ltac quantize_iteration_fails :=
  apply bind_fails;
  heap_step list_getitem_app;
  heap_step view_rows2_app;
  heap_step list_setitem_app;
  heap_step list_getitem_app;
  apply bind_fails; reflexivity.

Section ShortDivisors.
Variables (h : heap) (n m : nat) (A B C D LPd HPd : list (list Q)).

(** The last loop of dwt on a list of fewer than four divisors. *)
Lemma quantize_phase_short (q : list Z) :
  (length q < 4)%nat -> Forall (fun d => d <> 0) q ->
  (for_range 4 (fun i =>
     x <- list_getitem (length h + 4) (Z.of_nat i) ;;
     v <- view_rows2 x ;;
     list_setitem (length h + 4) (Z.of_nat i) v ;;;
     x <- list_getitem (length h + 4) (Z.of_nat i) ;;
     d <- divisor q i ;;
     r <- round_div x d ;;
     list_setitem (length h + 4) (Z.of_nat i) r)
     (h ++ [fa n m A; fa n m B; fa n m C; fa n m D;
            OList [length h + 7; length h + 8; length h + 9; length h + 10]%nat;
            fa n m LPd; fa n m HPd;
            OView (length h + 0) 1 2; OView (length h + 1) 1 2;
            OView (length h + 2) 1 2; OView (length h + 3) 1 2])).1
  = Raise IndexError.
Proof.
  intros Hlen Hq.
  unfold for_range. simpl seq. rewrite !for_each_cons', for_each_nil'.
  destruct q as [|d0 [|d1 [|d2 [|d3 q']]]]; [| | | |simpl in Hlen; lia].
  - quantize_iteration_fails.
  - apply Forall_cons in Hq as [H0 _].
    quantize_iteration. quantize_iteration_fails.
  - apply Forall_cons in Hq as [H0 Hq]. apply Forall_cons in Hq as [H1 _].
    do 2 quantize_iteration. quantize_iteration_fails.
  - apply Forall_cons in Hq as [H0 Hq]. apply Forall_cons in Hq as [H1 Hq].
    apply Forall_cons in Hq as [H2 _].
    do 3 quantize_iteration. quantize_iteration_fails.
Qed.

End ShortDivisors.

(** X20.  With fewer than four divisors, all nonzero, dwt on a matrix with
    more than two rows and columns fails with IndexError: the subbands are
    filtered first and the missing divisor is noticed when its subband is to
    be quantized. *)
Theorem dwt_too_few_divisors (h : heap) (a : addr) (image : ndarray Z) (q : list Z) :
  h !! a = Some (OIntArray image) ->
  wf_array image ->
  (2 < nrows image)%nat -> (2 < ncols image)%nat ->
  (length q < 4)%nat -> Forall (fun d => d <> 0) q ->
  (dwt a q h).1 = Raise IndexError.
Proof.
  intros Ha Hwf Hrows Hcols Hlen Hq.
  rewrite (dwt_run_to_quantize h a image Ha Hwf Hrows Hcols q).
  apply bind_fails. by apply quantize_phase_short.
Qed.

Lemma dwt_too_few_divisors_witness :
  (dwt 0%nat [1; 1; 1] [OIntArray sample_image]).1 = Raise IndexError.
Proof.
  apply (dwt_too_few_divisors [OIntArray sample_image] 0%nat sample_image [1; 1; 1]).
  - reflexivity.
  - split; [reflexivity | repeat constructor].
  - simpl. lia.
  - simpl. lia.
  - simpl. lia.
  - repeat constructor; lia.
Defined.

(** ** Images too small to be filtered *)

Lemma bind_ret_tt {B} (k : unit -> M B) (h : heap) : bind (ret tt) k h = k tt h.
Proof. done. Qed.

Lemma setrow_broadcast (h : heap) (a : addr) (x : ndarray Q) (i : nat) (v v' : list Q) :
  h !! a = Some (OFloatArray x) ->
  (i < nrows x)%nat ->
  broadcast_to (ncols x) v = Ok v' ->
  setrow a i v h
  = (Ok tt, <[a := OFloatArray (NdArray (nrows x) (ncols x) (<[i := v']> (data x)))]> h).
Proof.
  intros H Hi Hv. unfold setrow. rewrite H.
  replace (i <? nrows x)%nat with true by (symmetry; by apply Nat.ltb_lt).
  by rewrite Hv.
Qed.

(** On a row of at least two samples each kernel gives a sequence that can
    be stored in the row: of the same length or, for the three-tap kernel on
    two samples, a single value that is repeated. *)
Lemma lfilter_row_fits (x : list Q) :
  (2 <= length x)%nat ->
  (exists y y', lfilterQ LPF x LPF_center = Ok y /\ broadcast_to (length x) y = Ok y')
  /\ (exists y y', lfilterQ HPF x HPF_center = Ok y /\ broadcast_to (length x) y = Ok y').
Proof.
  intros Hx. destruct (decide (2 < length x)%nat) as [Hw|Hn].
  - destruct (lfilter_LPF x Hw) as [Hl1 Hl2].
    destruct (lfilter_HPF x Hw) as [Hh1 Hh2].
    split; eexists; eexists; (split; [eassumption|]); unfold broadcast_to.
    + by rewrite Hl2, Nat.eqb_refl.
    + by rewrite Hh2, Nat.eqb_refl.
  - destruct x as [|u [|v [|w x]]]; simpl in Hx, Hn; try lia.
    split; eexists; eexists; split; reflexivity.
Qed.

Section SmallImages.
Variables (h : heap) (a : addr) (image : ndarray Z) (q : list Z).
Hypothesis Himage : h !! a = Some (OIntArray image).

(** dwt up to its first loop. *)
Lemma dwt_after_allocs :
  let n := nrows image in
  let m := ncols image in
  let Z0 := replicate n (replicate m 0%Q) in
  exists rest : M addr,
    dwt a q h
    = (for_range n (row_body a (length h + 5) (length h + 6)) ;;;
       for_range 4 (fun i =>
         x <- list_getitem (length h + 4) (Z.of_nat i) ;;
         v <- view_cols2 x ;;
         list_setitem (length h + 4) (Z.of_nat i) v) ;;;
       for_range m (col_body (length h + 5) (length h + 6) (length h + 0)
                             (length h + 1) (length h + 2) (length h + 3)) ;;;
       rest)
        (h ++ [fa n m Z0; fa n m Z0; fa n m Z0; fa n m Z0;
               OList [length h + 0; length h + 1; length h + 2; length h + 3]%nat;
               fa n m Z0; fa n m Z0]).
Proof using Himage.
  intros n m Z0.
  assert (Ha : (a < length h)%nat) by (by eapply lookup_lt_Some).
  eexists.
  rewrite <- (app_nil_r h) at 1.
  unfold dwt.
  erewrite bind_ok;
    last (apply array_of_int; rewrite lookup_app_l by done; exact Himage).
  cbn [nrows ncols]. fold n m.
  do 7 (heap_step alloc_app).
  reflexivity.
Qed.

End SmallImages.

(** X21.  dwt raises ValueError on every image that has a single row or a
    single column, and on every image that has no rows or no columns except
    the empty 0 x 0 image: a sequence of fewer than two samples cannot be
    filtered into its place. *)
Theorem dwt_fails_below_two
  (h : heap) (a : addr) (image : ndarray Z) (q : list Z) :
  h !! a = Some (OIntArray image) ->
  wf_array image ->
  (nrows image <= 1)%nat \/ (ncols image <= 1)%nat ->
  (0 < nrows image)%nat \/ (0 < ncols image)%nat ->
  (dwt a q h).1 = Raise ValueError.
Proof.
  intros Himage Hwf Hsmall Hnonempty.
  destruct (dwt_after_allocs h a image q Himage) as [rest ->].
  assert (Ha : (a < length h)%nat) by (by eapply lookup_lt_Some).
  destruct image as [n m dat]. destruct Hwf as [Hlen Hrowlen].
  cbn [nrows ncols data] in *.
  destruct n as [|n].
  - (* no row: the first column is empty *)
    destruct m as [|m]; [lia|].
    destruct dat; [|done].
    unfold for_range at 1. simpl seq. rewrite for_each_nil', bind_ret_tt.
    erewrite bind_ok; last apply views_phase.
    apply bind_fails. unfold for_range. simpl seq. rewrite for_each_cons'.
    apply bind_fails. unfold col_body.
    erewrite bind_ok; last first.
    { eapply getcol_float; [by rewrite lookup_app_plus | simpl; lia]. }
    apply bind_fails. reflexivity.
  - destruct dat as [|row dat]; [done|].
    apply Forall_cons in Hrowlen as [Hrow Hrowlen].
    destruct (decide (m <= 1)%nat) as [Hm|Hm].
    + (* rows of fewer than two pixels *)
      apply bind_fails. unfold for_range. simpl seq. rewrite for_each_cons'.
      apply bind_fails. unfold row_body.
      erewrite bind_ok; last first.
      { eapply getrow_int; [by rewrite lookup_app_l | reflexivity]. }
      destruct row as [|x [|y row]]; simpl in Hrow; [| |lia].
      * apply bind_fails. reflexivity.
      * subst m. erewrite bind_ok; last reflexivity.
        apply bind_fails. unfold setrow.
        rewrite lookup_app_plus. reflexivity.
    + (* a single row of at least two pixels: its columns are too short *)
      assert (n = 0%nat) as -> by lia.
      destruct dat; [|done].
      destruct (lfilter_row_fits (inject_Z <$> row)) as [(lo & lo' & Hlo & Hlo')
                                                          (hi & hi' & Hhi & Hhi')];
        [rewrite length_fmap; lia|].
      rewrite length_fmap, Hrow in Hlo', Hhi'.
      erewrite bind_ok; last first.
      { unfold for_range. simpl seq. rewrite for_each_cons', for_each_nil'.
        erewrite bind_ok; [reflexivity|].
        unfold row_body.
        erewrite bind_ok; last first.
        { eapply getrow_int; [by rewrite lookup_app_l | reflexivity]. }
        erewrite bind_ok; last (unfold lift; by rewrite Hlo).
        erewrite bind_ok; last first.
        { eapply setrow_broadcast; [by rewrite lookup_app_plus | simpl; lia | exact Hlo']. }
        rewrite insert_app_r. heap_norm. cbn [nrows ncols data replicate].
        erewrite bind_ok; last first.
        { eapply getrow_int; [by rewrite lookup_app_l | reflexivity]. }
        erewrite bind_ok; last (unfold lift; by rewrite Hhi).
        erewrite setrow_broadcast;
          [reflexivity | by rewrite lookup_app_plus | simpl; lia | exact Hhi']. }
      rewrite insert_app_r. heap_norm. cbn [nrows ncols data replicate].
      erewrite bind_ok; last apply views_phase.
      apply bind_fails. unfold for_range.
      destruct m as [|m]; [lia|]. simpl seq. rewrite for_each_cons'.
      apply bind_fails. unfold col_body.
      erewrite bind_ok; last first.
      { eapply getcol_float; [by rewrite lookup_app_plus | simpl; lia]. }
      erewrite bind_ok; last reflexivity.
      apply bind_fails. unfold setcol.
      rewrite lookup_app_plus. reflexivity.
Qed.

Lemma dwt_fails_below_two_witness :
  (dwt 0%nat [1; 1; 1; 1] [OIntArray (NdArray 1 4 [[1; 2; 3; 4]])]).1
  = Raise ValueError.
Proof.
  apply (dwt_fails_below_two [OIntArray (NdArray 1 4 [[1; 2; 3; 4]])] 0%nat
           (NdArray 1 4 [[1; 2; 3; 4]]) [1; 1; 1; 1]).
  - reflexivity.
  - split; [reflexivity | repeat constructor].
  - left. simpl. lia.
  - left. simpl. lia.
Defined.

(** ** Reassembling the image from its blocks *)

Lemma at2_imap_block {A} (P R : nat -> bool) (f : nat -> nat -> A)
      (m : list (list A)) (y x : nat) :
  at2 (imap (fun y row => if P y
                          then imap (fun x v => if R x then f y x else v) row
                          else row) m) y x
  = (fun v => if P y && R x then f y x else v) <$> at2 m y x.
Proof.
  unfold at2. rewrite list_lookup_imap.
  destruct (m !! y) as [row|]; [|done]. simpl.
  destruct (P y); simpl.
  - rewrite list_lookup_imap. by destruct (row !! x).
  - by destruct (row !! x).
Qed.

Lemma has_shape_imap_block {A} (P R : nat -> bool) (f : nat -> nat -> A)
      (r c : nat) (m : list (list A)) :
  has_shape r c m ->
  has_shape r c (imap (fun y row => if P y
                                    then imap (fun x v => if R x then f y x else v) row
                                    else row) m).
Proof.
  intros [H1 H2]. split; [by rewrite length_imap|].
  apply Forall_lookup. intros i row Hrow.
  rewrite list_lookup_imap in Hrow.
  destruct (m !! i) as [r0|] eqn:Hr; [|done].
  simpl in Hrow. injection Hrow as <-.
  rewrite Forall_lookup in H2.
  destruct (P i); [rewrite length_imap|]; by apply (H2 i).
Qed.

Lemma in_range_true (lo len k : nat) :
  in_range lo len k = true <-> (lo <= k < lo + len)%nat.
Proof.
  unfold in_range. rewrite andb_true_iff, Nat.leb_le, Nat.ltb_lt. done.
Qed.

Lemma in_range_false (lo len k : nat) :
  in_range lo len k = false <-> (k < lo \/ lo + len <= k)%nat.
Proof.
  unfold in_range. rewrite andb_false_iff, Nat.leb_gt, Nat.ltb_ge. done.
Qed.

Lemma assign_dim_same (n : nat) : assign_dim n n = true.
Proof. unfold assign_dim. by rewrite Nat.eqb_refl. Qed.

Section Reconstruct.
Variable divided_image : list (ndarray Z).
Variables n_rows n_cols box_size : nat.
Hypothesis Hblocks :
  Forall (fun block => nrows block = box_size /\ ncols block = box_size) divided_image.

(** One block put in its place. *)
Lemma place_block_ok (i j c : nat) (image block : ndarray Z) :
  canvas n_rows n_cols box_size image ->
  (i < n_rows)%nat -> (j < n_cols)%nat ->
  divided_image !! c = Some block ->
  exists image',
    place_block divided_image box_size i (image, c) j = Ok (image', S c)
    /\ canvas n_rows n_cols box_size image'
    /\ forall y x,
         at2 (data image') y x
         = (fun v => if in_range (i * box_size) box_size y
                        && in_range (j * box_size) box_size x
                     then uint8 (default 0 (at2 (data block) (y - i * box_size)
                                                (x - j * box_size)))
                     else v) <$> at2 (data image) y x.
Proof using Hblocks.
  intros (Hr & Hc & Hwf) Hi Hj Hblock.
  rewrite Forall_lookup in Hblocks. destruct (Hblocks _ _ Hblock) as [Hbr Hbc].
  unfold place_block. cbn [fst snd]. rewrite Hblock.
  unfold setblock. rewrite Hbr, Hbc, Hr, Hc.
  assert (Hi' : (i * box_size + box_size <= n_rows * box_size)%nat) by nia.
  assert (Hj' : (j * box_size + box_size <= n_cols * box_size)%nat) by nia.
  replace (Nat.min (i * box_size + box_size) (n_rows * box_size)
           - Nat.min (i * box_size) (n_rows * box_size))%nat with box_size by lia.
  replace (Nat.min (j * box_size + box_size) (n_cols * box_size)
           - Nat.min (j * box_size) (n_cols * box_size))%nat with box_size by lia.
  rewrite assign_dim_same. cbn [andb].
  eexists. split; [reflexivity|]. split.
  - split; [done|]. split; [done|].
    unfold wf_array in *. cbn [nrows ncols data].
    rewrite <- Hr, <- Hc. by apply has_shape_imap_block.
  - intros y x. cbn [data]. rewrite at2_imap_block.
    destruct (at2 (data image) y x) as [v|]; [|done]. simpl. f_equal.
    destruct (in_range (i * box_size) box_size y) eqn:Hy; [|done].
    destruct (in_range (j * box_size) box_size x) eqn:Hx; [|done].
    apply in_range_true in Hy. apply in_range_true in Hx. simpl.
    assert (Hpy : (if (box_size =? 1)%nat then 0%nat else (y - i * box_size)%nat)
                  = (y - i * box_size)%nat).
    { destruct (Nat.eqb_spec box_size 1); lia. }
    assert (Hpx : (if (box_size =? 1)%nat then 0%nat else (x - j * box_size)%nat)
                  = (x - j * box_size)%nat).
    { destruct (Nat.eqb_spec box_size 1); lia. }
    by rewrite Hpy, Hpx.
Qed.

(** The inner loop, over the blocks of one block row. *)
Lemma inner_loop_ok (i : nat) :
  (i < n_rows)%nat ->
  (i * n_cols + n_cols <= length divided_image)%nat ->
  forall k j0 image,
    (j0 + k = n_cols)%nat ->
    canvas n_rows n_cols box_size image ->
    tiled divided_image n_cols box_size (i * n_cols + j0) image ->
    exists image',
      result_foldM (place_block divided_image box_size i) (seq j0 k)
                   (image, (i * n_cols + j0)%nat)
      = Ok (image', (i * n_cols + n_cols)%nat)
      /\ canvas n_rows n_cols box_size image'
      /\ tiled divided_image n_cols box_size (i * n_cols + n_cols) image'.
Proof using Hblocks.
  intros Hi Hlen. induction k as [|k IH]; intros j0 image Hk Hcanvas Htiled.
  - replace j0 with n_cols in * by lia. by exists image.
  - destruct (lookup_lt_is_Some_2 divided_image (i * n_cols + j0)) as [block Hblock];
      [lia|].
    destruct (place_block_ok i j0 _ image block Hcanvas Hi ltac:(lia) Hblock)
      as (image1 & Hstep & Hcanvas1 & Hpix).
    simpl seq. cbn [result_foldM]. rewrite Hstep.
    replace (S (i * n_cols + j0)) with (i * n_cols + S j0)%nat by lia.
    apply IH; [lia | done |].
    intros i' j' y x block' v Hlt Hj' Hy Hx Hblock' Hv.
    assert (Hi' : (i' <= i)%nat) by nia.
    destruct Hcanvas as (Hr & Hc & Hwf).
    destruct (at2_in_shape _ _ _ (i' * box_size + y) (j' * box_size + x) Hwf)
      as [old Hold]; [rewrite Hr; nia | rewrite Hc; nia |].
    rewrite Hpix, Hold. simpl. f_equal.
    destruct (decide (i' = i /\ j' = j0)) as [[-> ->]|Hne].
    + replace (in_range (i * box_size) box_size (i * box_size + y)) with true
        by (symmetry; apply in_range_true; lia).
      replace (in_range (j0 * box_size) box_size (j0 * box_size + x)) with true
        by (symmetry; apply in_range_true; lia).
      simpl.
      replace (i * box_size + y - i * box_size)%nat with y by lia.
      replace (j0 * box_size + x - j0 * box_size)%nat with x by lia.
      rewrite Hblock in Hblock'. injection Hblock' as <-. by rewrite Hv.
    + assert (Hbefore : (i' * n_cols + j' < i * n_cols + j0)%nat).
      { destruct (decide (i' = i)) as [->|Hlow].
        - assert (j' <> j0) by (intros ->; by apply Hne). lia.
        - assert (i' * n_cols + n_cols <= i * n_cols)%nat by nia. lia. }
      specialize (Htiled i' j' y x block' v Hbefore Hj' Hy Hx Hblock' Hv).
      rewrite Hold in Htiled. injection Htiled as ->.
      destruct (decide (i' = i)) as [->|Hi'ne].
      * assert (j' < j0)%nat by lia.
        replace (in_range (j0 * box_size) box_size (j' * box_size + x)) with false
          by (symmetry; apply in_range_false; nia).
        by rewrite andb_false_r.
      * replace (in_range (i * box_size) box_size (i' * box_size + y)) with false
          by (symmetry; apply in_range_false; nia).
        done.
Qed.

(** The outer loop, over the block rows. *)
Lemma outer_loop_ok :
  (n_rows * n_cols <= length divided_image)%nat ->
  forall k i0 image,
    (i0 + k = n_rows)%nat ->
    canvas n_rows n_cols box_size image ->
    tiled divided_image n_cols box_size (i0 * n_cols) image ->
    exists image',
      result_foldM
        (fun st i => result_foldM (place_block divided_image box_size i)
                                  (seq 0 n_cols) st)
        (seq i0 k) (image, (i0 * n_cols)%nat)
      = Ok (image', (n_rows * n_cols)%nat)
      /\ canvas n_rows n_cols box_size image'
      /\ tiled divided_image n_cols box_size (n_rows * n_cols) image'.
Proof using Hblocks.
  intros Hlen. induction k as [|k IH]; intros i0 image Hk Hcanvas Htiled.
  - replace i0 with n_rows in * by lia. by exists image.
  - destruct (inner_loop_ok i0 ltac:(lia) ltac:(nia) n_cols 0%nat image)
      as (image1 & Hrow & Hcanvas1 & Htiled1);
      [lia | done | by rewrite Nat.add_0_r |].
    rewrite Nat.add_0_r in Hrow.
    simpl seq. cbn [result_foldM]. rewrite Hrow.
    replace (i0 * n_cols + n_cols)%nat with (S i0 * n_cols)%nat in * by lia.
    apply IH; [lia | done | done].
Qed.

(** The inner loop when the blocks run out in the block row. *)
Lemma inner_loop_short (i : nat) :
  (i < n_rows)%nat ->
  forall k j0 image c,
    (j0 + k = n_cols)%nat ->
    canvas n_rows n_cols box_size image ->
    (c <= length divided_image)%nat ->
    (length divided_image < c + k)%nat ->
    result_foldM (place_block divided_image box_size i) (seq j0 k) (image, c)
    = Raise IndexError.
Proof using Hblocks.
  intros Hi. induction k as [|k IH]; intros j0 image c Hk Hcanvas Hc Hshort; [lia|].
  simpl seq. cbn [result_foldM].
  destruct (decide (c < length divided_image)%nat) as [Hlt|Hge].
  - destruct (lookup_lt_is_Some_2 divided_image c Hlt) as [block Hblock].
    destruct (place_block_ok i j0 c image block Hcanvas Hi ltac:(lia) Hblock)
      as (image1 & -> & Hcanvas1 & _).
    apply IH; [lia | done | lia | lia].
  - unfold place_block. cbn [snd].
    by rewrite lookup_ge_None_2 by lia.
Qed.

Lemma outer_loop_short :
  (length divided_image < n_rows * n_cols)%nat ->
  forall k i0 image,
    (i0 + k = n_rows)%nat ->
    canvas n_rows n_cols box_size image ->
    tiled divided_image n_cols box_size (i0 * n_cols) image ->
    (i0 * n_cols <= length divided_image)%nat ->
    result_foldM
      (fun st i => result_foldM (place_block divided_image box_size i)
                                (seq 0 n_cols) st)
      (seq i0 k) (image, (i0 * n_cols)%nat)
    = Raise IndexError.
Proof using Hblocks.
  intros Hshort. induction k as [|k IH]; intros i0 image Hk Hcanvas Htiled Hi0.
  - replace i0 with n_rows in * by lia. lia.
  - simpl seq. cbn [result_foldM].
    destruct (decide (i0 * n_cols + n_cols <= length divided_image)%nat) as [Hle|Hgt].
    + destruct (inner_loop_ok i0 ltac:(lia) Hle n_cols 0%nat image)
        as (image1 & Hrow & Hcanvas1 & Htiled1);
        [lia | done | by rewrite Nat.add_0_r |].
      rewrite Nat.add_0_r in Hrow. rewrite Hrow.
      replace (i0 * n_cols + n_cols)%nat with (S i0 * n_cols)%nat in * by lia.
      apply IH; [lia | done | done | lia].
    + rewrite (inner_loop_short i0 ltac:(lia) n_cols 0%nat image (i0 * n_cols));
        [done | lia | done | done | lia].
Qed.

Lemma canvas_zeros : canvas n_rows n_cols box_size
                            (np_zeros 0 (n_rows * box_size) (n_cols * box_size)).
Proof.
  split; [done|]. split; [done|].
  unfold wf_array, np_zeros. cbn [nrows ncols data].
  split; [by rewrite length_replicate|].
  apply Forall_replicate. by rewrite length_replicate.
Qed.

End Reconstruct.

(** X22.  Given at least [n_rows * n_cols] blocks of [box_size x box_size]
    pixels, get_reconstructed_image returns an image of
    [n_rows * box_size] by [n_cols * box_size] pixels in which block number
    [i * n_cols + j] fills the square whose top left corner is
    [(i * box_size, j * box_size)]: the blocks are laid out row by row, and
    each pixel is the block's value narrowed to uint8. *)
Theorem get_reconstructed_image_tiles
  (divided_image : list (ndarray Z)) (n_rows n_cols box_size : nat) :
  Forall (fun block => nrows block = box_size /\ ncols block = box_size)
         divided_image ->
  (n_rows * n_cols <= length divided_image)%nat ->
  exists image,
    get_reconstructed_image divided_image n_rows n_cols box_size = Ok image
    /\ nrows image = (n_rows * box_size)%nat
    /\ ncols image = (n_cols * box_size)%nat
    /\ wf_array image
    /\ forall i j y x block v,
         (i < n_rows)%nat -> (j < n_cols)%nat ->
         (y < box_size)%nat -> (x < box_size)%nat ->
         divided_image !! (i * n_cols + j)%nat = Some block ->
         at2 (data block) y x = Some v ->
         at2 (data image) (i * box_size + y) (j * box_size + x) = Some (uint8 v).
Proof.
  intros Hblocks Hlen.
  destruct (outer_loop_ok divided_image n_rows n_cols box_size Hblocks Hlen
              n_rows 0%nat (np_zeros 0 (n_rows * box_size) (n_cols * box_size)))
    as (image & Hrun & (Hr & Hc & Hwf) & Htiled).
  - lia.
  - apply canvas_zeros.
  - intros i j y x block v Hlt. simpl in Hlt. lia.
  - exists image. unfold get_reconstructed_image. cbv zeta.
    simpl Nat.mul in Hrun. rewrite Hrun. cbn [fst].
    split; [done|]. split; [done|]. split; [done|]. split; [done|].
    intros i j y x block v Hi Hj Hy Hx. apply Htiled; [nia | done | done | done].
Qed.

Lemma get_reconstructed_image_tiles_witness :
  exists image,
    get_reconstructed_image
      [NdArray 1 1 [[7]]; NdArray 1 1 [[300]]; NdArray 1 1 [[9]]] 1 2 1
    = Ok image
    /\ nrows image = 1%nat
    /\ ncols image = 2%nat
    /\ wf_array image
    /\ forall i j y x block v,
         (i < 1)%nat -> (j < 2)%nat -> (y < 1)%nat -> (x < 1)%nat ->
         [NdArray 1 1 [[7]]; NdArray 1 1 [[300]]; NdArray 1 1 [[9]]]
           !! (i * 2 + j)%nat = Some block ->
         at2 (data block) y x = Some v ->
         at2 (data image) (i * 1 + y) (j * 1 + x) = Some (uint8 v).
Proof.
  apply (get_reconstructed_image_tiles
           [NdArray 1 1 [[7]]; NdArray 1 1 [[300]]; NdArray 1 1 [[9]]] 1 2 1).
  - repeat constructor.
  - simpl. lia.
Defined.

(** X23.  With fewer than [n_rows * n_cols] blocks, all of
    [box_size x box_size] pixels, get_reconstructed_image raises
    IndexError. *)
Theorem get_reconstructed_image_too_few_blocks
  (divided_image : list (ndarray Z)) (n_rows n_cols box_size : nat) :
  Forall (fun block => nrows block = box_size /\ ncols block = box_size)
         divided_image ->
  (length divided_image < n_rows * n_cols)%nat ->
  get_reconstructed_image divided_image n_rows n_cols box_size = Raise IndexError.
Proof.
  intros Hblocks Hshort. unfold get_reconstructed_image. cbv zeta.
  pose proof (outer_loop_short divided_image n_rows n_cols box_size Hblocks Hshort
                n_rows 0%nat (np_zeros 0 (n_rows * box_size) (n_cols * box_size)))
    as Hrun.
  simpl Nat.mul in Hrun. rewrite Hrun; [done | lia | apply canvas_zeros | | lia].
  intros i j y x block v Hlt. lia.
Qed.

Lemma get_reconstructed_image_too_few_blocks_witness :
  get_reconstructed_image [NdArray 1 1 [[7]]] 1 2 1 = Raise IndexError.
Proof.
  apply (get_reconstructed_image_too_few_blocks [NdArray 1 1 [[7]]] 1 2 1).
  - repeat constructor.
  - simpl. lia.
Defined.
